(** * gitmoji-commit-mcp: message codec, change classifier and tool handlers

    A shallow embedding of [src/utils.ts], [src/types.ts], [src/git.ts] and of
    the request handler and the tool handlers of [src/index.ts].

    JavaScript strings are sequences of UTF-16 code units; they are modelled as
    lists of code units ([N]).  Regular expressions are embedded as syntax
    trees that are run by a backtracking matcher with the ECMAScript priorities
    (greedy quantifiers, ordered alternation, captures restored on
    backtracking), so that every regular expression literal of the source has
    a syntax tree that can be compared with it symbol by symbol. *)

From Stdlib Require Import Bool List NArith ZArith QArith Lia Permutation.
From Stdlib Require Import Ascii String DecimalString.
From Stdlib Require DecimalN.
Import ListNotations.

Local Open Scope N_scope.
Local Open Scope list_scope.

(* ===================================================================== *)
(** ** Strings *)
(* ===================================================================== *)

Definition jsstring := list N.

(** An ASCII literal of the source as a list of code units. *)
Definition lit (s : string) : jsstring :=
  map N_of_ascii (list_ascii_of_string s).
Arguments lit s%_string.

(** Number-to-string conversion of a non-negative integer, as a template
    literal does it. *)
Definition numberToString (n : N) : jsstring :=
  lit (NilZero.string_of_uint (N.to_uint n)).

Definition len (s : jsstring) : N := N.of_nat (List.length s).

Definition streq (a b : jsstring) : bool :=
  if list_eq_dec N.eq_dec a b then true else false.

(** ECMAScript [WhiteSpace] and [LineTerminator], the set matched by [\s] and
    removed by [trim]. *)
Definition isLineTerminator (c : N) : bool :=
  (c =? 0x0A) || (c =? 0x0D) || (c =? 0x2028) || (c =? 0x2029).

Definition isWhiteSpace (c : N) : bool :=
  (c =? 0x09) || (c =? 0x0B) || (c =? 0x0C) || (c =? 0x20) || (c =? 0xA0)
  || (c =? 0x1680) || ((0x2000 <=? c) && (c <=? 0x200A))
  || (c =? 0x202F) || (c =? 0x205F) || (c =? 0x3000) || (c =? 0xFEFF)
  || isLineTerminator c.

Fixpoint dropWhile (p : N -> bool) (s : jsstring) : jsstring :=
  match s with
  | c :: s' => if p c then dropWhile p s' else s
  | [] => []
  end.

Fixpoint takeWhile (p : N -> bool) (s : jsstring) : jsstring :=
  match s with
  | c :: s' => if p c then c :: takeWhile p s' else []
  | [] => []
  end.

(** [String.prototype.trim] *)
Definition trim (s : jsstring) : jsstring :=
  rev (dropWhile isWhiteSpace (rev (dropWhile isWhiteSpace s))).

(** [String.prototype.startsWith] *)
Fixpoint startsWith (s prefix : jsstring) : bool :=
  match prefix, s with
  | [], _ => true
  | p :: prefix', c :: s' => (c =? p) && startsWith s' prefix'
  | _ :: _, [] => false
  end.

(** [String.prototype.endsWith] *)
Definition endsWith (s suffix : jsstring) : bool :=
  startsWith (rev s) (rev suffix).

(** [String.prototype.includes] *)
Fixpoint includes (s needle : jsstring) : bool :=
  startsWith s needle ||
  match s with
  | [] => false
  | _ :: s' => includes s' needle
  end.

(** [s.split(sep)] for a one-character separator: never returns the empty
    array, [''.split(sep)] is [['']]. *)
Fixpoint split (sep : N) (s : jsstring) : list jsstring :=
  match s with
  | [] => [[]]
  | c :: s' =>
      if c =? sep then [] :: split sep s'
      else match split sep s' with
           | l :: ls => (c :: l) :: ls
           | [] => [[c]]
           end
  end.

(** [Array.prototype.join] *)
Fixpoint join (sep : jsstring) (parts : list jsstring) : jsstring :=
  match parts with
  | [] => []
  | [p] => p
  | p :: ps => p ++ sep ++ join sep ps
  end.

(** [s.substring(n)] and [s.slice(1, -1)] *)
Definition substring (s : jsstring) (n : nat) : jsstring := skipn n s.
Definition slice_1_m1 (s : jsstring) : jsstring := removelast (tl s).

(** A string is truthy when it is not empty. *)
Definition truthy (s : jsstring) : bool :=
  match s with [] => false | _ :: _ => true end.

Definition NL : N := 0x0A.
Definition SP : N := 0x20.

(* ===================================================================== *)
(** ** Regular expressions *)
(* ===================================================================== *)

(** The fragment of the ECMAScript pattern language that the source uses. *)
Inductive regex : Type :=
| Eps
| Lit (c : N)                   (* a pattern character *)
| Class (p : N -> bool)         (* [\s], [.], a bracket class *)
| Seq (r1 r2 : regex)
| Alt (r1 r2 : regex)           (* r1|r2, r1 tried first *)
| Opt (r : regex)               (* r?, greedy *)
| Plus (p : N -> bool)          (* class+, greedy *)
| Group (i : nat) (r : regex)   (* the i-th capturing parenthesis *)
| Bol                           (* ^ without the m flag *)
| Eol.                          (* $ without the m flag *)

Record RegExp := { source : regex; ignoreCase : bool }.

(** Matcher state: index of the next character, the characters from there on,
    and the captures made so far. *)
Record mstate := MState {
  pos : nat;
  rest : jsstring;
  caps : list (nat * jsstring)
}.

Definition setCap (i : nat) (v : jsstring) (st : mstate) : mstate :=
  MState (pos st) (rest st) ((i, v) :: caps st).

Fixpoint lookupCap (i : nat) (cs : list (nat * jsstring)) : option jsstring :=
  match cs with
  | [] => None
  | (j, v) :: cs' => if Nat.eqb i j then Some v else lookupCap i cs'
  end.

(** [Canonicalize] of a non-unicode, ignore-case pattern.  It is written for
    the case where one of the two compared characters is ASCII, which is so
    for every ignore-case pattern of the source (their atoms are ASCII pattern
    characters): ECMAScript never canonicalizes a non-ASCII code unit to an
    ASCII one, and upper-cases [a-z]. *)
Definition Canonicalize (c : N) : N :=
  if (0x61 <=? c) && (c <=? 0x7A) then c - 0x20 else c.

Definition charMatches (ic : bool) (pat c : N) : bool :=
  if ic then Canonicalize c =? Canonicalize pat else c =? pat.

(** The continuation [k] is the rest of the pattern; [None] is failure, on
    which the caller tries its next choice. *)
Fixpoint plusLoop (p : N -> bool) (k : mstate -> option mstate)
    (i : nat) (cs : list (nat * jsstring)) (s : jsstring) : option mstate :=
  match s with
  | c :: s' =>
      if p c then
        match plusLoop p k (S i) cs s' with
        | Some r => Some r
        | None => k (MState i s cs)
        end
      else k (MState i s cs)
  | [] => k (MState i s cs)
  end.

Fixpoint matcher (ic : bool) (r : regex) (k : mstate -> option mstate)
    (st : mstate) : option mstate :=
  match r with
  | Eps => k st
  | Lit c =>
      match rest st with
      | a :: s' =>
          if charMatches ic c a then k (MState (S (pos st)) s' (caps st))
          else None
      | [] => None
      end
  | Class p =>
      match rest st with
      | a :: s' => if p a then k (MState (S (pos st)) s' (caps st)) else None
      | [] => None
      end
  | Seq r1 r2 => matcher ic r1 (matcher ic r2 k) st
  | Alt r1 r2 =>
      match matcher ic r1 k st with
      | Some r => Some r
      | None => matcher ic r2 k st
      end
  | Opt r1 =>
      match matcher ic r1 k st with
      | Some r => Some r
      | None => k st
      end
  | Plus p =>
      match rest st with
      | a :: s' => if p a then plusLoop p k (S (pos st)) (caps st) s' else None
      | [] => None
      end
  | Group i r1 =>
      matcher ic r1
        (fun st' => k (setCap i (firstn (pos st' - pos st) (rest st)) st')) st
  | Bol => if Nat.eqb (pos st) 0 then k st else None
  | Eol => match rest st with [] => k st | _ :: _ => None end
  end.

(** The result of a successful match: where it starts, where it ends, and
    the captures; capture 0 is the whole match. *)
Record MatchResult := {
  index : nat;
  lastIndex : nat;
  groups : list (nat * jsstring)
}.

Definition capture (i : nat) (m : MatchResult) : option jsstring :=
  lookupCap i (groups m).

Fixpoint execFrom (re : RegExp) (i : nat) (s : jsstring) : option MatchResult :=
  match matcher (ignoreCase re) (Group 0 (source re)) Some (MState i s []) with
  | Some st => Some {| index := i; lastIndex := pos st; groups := caps st |}
  | None =>
      match s with
      | [] => None
      | _ :: s' => execFrom re (S i) s'
      end
  end.

(** [s.match(re)] for a regular expression without the g flag. *)
Definition regexMatch (s : jsstring) (re : RegExp) : option MatchResult :=
  execFrom re 0 s.

Definition isSome {A} (o : option A) : bool :=
  match o with Some _ => true | None => false end.

(** [s.replace(re, '')] for a regular expression without the g flag. *)
Definition replaceEmpty (s : jsstring) (re : RegExp) : jsstring :=
  match regexMatch s re with
  | Some m => firstn (index m) s ++ skipn (lastIndex m) s
  | None => s
  end.

(** Pattern builders. *)
Fixpoint Str (s : jsstring) : regex :=
  match s with
  | [] => Eps
  | [c] => Lit c
  | c :: s' => Seq (Lit c) (Str s')
  end.

Fixpoint Alts (rs : list regex) : regex :=
  match rs with
  | [] => Eps
  | [r] => r
  | r :: rs' => Alt r (Alts rs')
  end.

Fixpoint Seqs (rs : list regex) : regex :=
  match rs with
  | [] => Eps
  | [r] => r
  | r :: rs' => Seq r (Seqs rs')
  end.

Definition ch (s : string) : N :=
  match s with
  | String a _ => N_of_ascii a
  | EmptyString => 0
  end.
Arguments ch s%_string.

Definition notWhiteSpace (c : N) : bool := negb (isWhiteSpace c).
Definition lowerLetter (c : N) : bool := (ch "a" <=? c) && (c <=? ch "z").
Definition notCloseParen (c : N) : bool := negb (c =? ch ")").
Definition dot (c : N) : bool := negb (isLineTerminator c).

(* ===================================================================== *)
(** ** Type registry ([src/types.ts]) *)
(* ===================================================================== *)

Module CommitTypeInfo.
Record t := { emoji : jsstring; title : jsstring; description : jsstring }.
End CommitTypeInfo.

Module CommitParams.
Record t := {
  type : jsstring;
  scope : option jsstring;
  title : jsstring;
  description : option jsstring;
  breaking : bool
}.
End CommitParams.

Inductive Confidence := high | medium | low.

Module SuggestionResult.
Record t := {
  type : jsstring;
  emoji : jsstring;
  reason : jsstring;
  confidence : Confidence
}.
End SuggestionResult.

Record ValidationResult := {
  valid : bool;
  issues : list jsstring;
  warnings : option (list jsstring)
}.

Record DiffStats := {
  additions : N;
  deletions : N;
  files : list jsstring
}.

Definition entry (k : string) (e : jsstring) (t d : string)
  : jsstring * CommitTypeInfo.t :=
  (lit k, {| CommitTypeInfo.emoji := e;
             CommitTypeInfo.title := lit t;
             CommitTypeInfo.description := lit d |}).

(** The table of [COMMIT_TYPES], in the order of the source.  Each emoji is
    the string literal of the source file read as UTF-8, one number per
    UTF-16 code unit; the literal of 'deprecate' holds a no-break space
    (U+00A0) as its third code unit. *)
Definition COMMIT_TYPES : list (jsstring * CommitTypeInfo.t) := [
  entry "feat" [0x00E2; 0x0153; 0x00A8]
    "Features"
    "A new feature";
  entry "fix" [0x011F; 0x0178; 0x203A]
    "Bug Fixes"
    "A bug fix";
  entry "docs" [0x011F; 0x0178; 0x201C]
    "Documentation"
    "Documentation only changes";
  entry "style" [0x011F; 0x0178; 0x00A8]
    "Styles"
    "Changes that do not affect code meaning (whitespace, formatting, missing semi-colons, etc.)";
  entry "refactor" [0x00E2; 0x2122; 0x00BB; 0x00EF; 0x00B8]
    "Code Refactoring"
    "A code change that neither fixes a bug nor adds a feature";
  entry "perf" [0x00E2; 0x0161; 0x00A1]
    "Performance Improvements"
    "A code change that improves performance";
  entry "test" [0x011F; 0x0178; 0x00A7; 0x00AA]
    "Tests"
    "Adding missing tests or correcting existing tests";
  entry "build" [0x011F; 0x0178; 0x201C; 0x00A6]
    "Builds"
    "Changes that affect the build system or external dependencies (npm, maven, gradle, etc.)";
  entry "ci" [0x011F; 0x0178; 0x2018; 0x00B7]
    "Continuous Integration"
    "Changes to CI configuration files and scripts (GitHub Actions, GitLab CI, Jenkins, etc.)";
  entry "chore" [0x011F; 0x0178; 0x201D; 0x00A7]
    "Chores"
    "Other changes that don't modify src or test files (maintenance tasks, config updates, etc.)";
  entry "revert" [0x00E2; 0x00AA]
    "Reverts"
    "Reverts a previous commit";
  entry "security" [0x011F; 0x0178; 0x201D; 0x2019]
    "Security Fixes"
    "Security vulnerability fixes or improvements";
  entry "deprecate" [0x00E2; 0x0161; 0x00A0; 0x00EF; 0x00B8]
    "Deprecations"
    "Mark features/APIs as deprecated";
  entry "breaking" [0x011F; 0x0178; 0x2019; 0x00A5]
    "Breaking Changes"
    "Changes that break backward compatibility";
  entry "i18n" [0x011F; 0x0178; 0x0152]
    "Internationalization"
    "Translations and localization changes";
  entry "a11y" [0x00E2; 0x2122; 0x00BF]
    "Accessibility"
    "Accessibility improvements";
  entry "deps" [0x00E2; 0x00AC; 0x2020; 0x00EF; 0x00B8]
    "Dependencies"
    "Dependency updates (when not using automated tools)"
].

(** The names every object inherits from [Object.prototype]: [COMMIT_TYPES[k]]
    is a truthy value without an [emoji] property for these. *)
Definition objectPrototypeKeys : list jsstring :=
  map lit ["constructor"; "hasOwnProperty"; "isPrototypeOf";
           "propertyIsEnumerable"; "toLocaleString"; "toString"; "valueOf";
           "__proto__"; "__defineGetter__"; "__defineSetter__";
           "__lookupGetter__"; "__lookupSetter__"]%string.

Inductive property :=
| Own (info : CommitTypeInfo.t)
| Inherited
| Undefined.

Fixpoint assoc {A} (k : jsstring) (l : list (jsstring * A)) : option A :=
  match l with
  | [] => None
  | (k', v) :: l' => if streq k k' then Some v else assoc k l'
  end.

(** [COMMIT_TYPES[type]] *)
Definition getProperty (type : jsstring) : property :=
  match assoc type COMMIT_TYPES with
  | Some info => Own info
  | None => if existsb (streq type) objectPrototypeKeys then Inherited
            else Undefined
  end.

(** [COMMIT_TYPES[type].emoji], [None] for [undefined]. *)
Definition emojiOf (p : property) : option jsstring :=
  match p with
  | Own info => Some (CommitTypeInfo.emoji info)
  | _ => None
  end.

(** A string or [undefined] inside a template literal. *)
Definition render (v : option jsstring) : jsstring :=
  match v with
  | Some s => s
  | None => lit "undefined"
  end.

(** [COMMIT_TYPES.docs.emoji] and the like, for a key of the table. *)
Definition emojiOfType (type : jsstring) : jsstring :=
  render (emojiOf (getProperty type)).

Definition registered (type : jsstring) : bool :=
  isSome (assoc type COMMIT_TYPES).

(* ===================================================================== *)
(** ** Exceptions *)
(* ===================================================================== *)

Inductive exn := Error (message : jsstring).

Inductive result (A : Type) :=
| Ok (a : A)
| Throw (e : exn).
Arguments Ok {A} a.
Arguments Throw {A} e.

(* ===================================================================== *)
(** ** Message codec ([src/utils.ts]) *)
(* ===================================================================== *)

Definition BREAKING_MARKER : jsstring := lit "BREAKING CHANGE:".
Definition BREAKING_FOOTER : jsstring := [NL; NL] ++ lit "BREAKING CHANGE: ".

(** The first line built by [formatCommitMessage]. *)
Definition headerLine (emoji : jsstring) (params : CommitParams.t) : jsstring :=
  let scopeStr :=
    match CommitParams.scope params with
    | Some scope => if truthy scope then lit "(" ++ scope ++ lit ")" else []
    | None => []
    end in
  let breakingPrefix := if CommitParams.breaking params then lit "!" else [] in
  emoji ++ lit " " ++ CommitParams.type params ++ scopeStr ++ breakingPrefix
    ++ lit ": " ++ CommitParams.title params.

(** [description] as a condition: present and not the empty string. *)
Definition present (d : option jsstring) : bool :=
  match d with
  | Some s => truthy s
  | None => false
  end.

Definition formatCommitMessage (params : CommitParams.t) : result jsstring :=
  let description := CommitParams.description params in
  let breaking := CommitParams.breaking params in
  match getProperty (CommitParams.type params) with
  | Undefined =>
      Throw (Error (lit "Invalid commit type: " ++ CommitParams.type params))
  | p =>
      let emoji := render (emojiOf p) in
      let message := headerLine emoji params in
      let message :=
        if present description then message ++ [NL; NL] ++ render description
        else message in
      let message :=
        if breaking && present description
           && negb (includes (render description) BREAKING_MARKER)
        then message ++ BREAKING_FOOTER
        else message in
      Ok message
  end.

(** [/^([^\s]+)\s+/] *)
Definition emojiRegex : RegExp :=
  {| source := Seqs [Bol; Group 1 (Plus notWhiteSpace); Plus isWhiteSpace];
     ignoreCase := false |}.

(** [/^([a-z]+)(\([^)]+\))?(!)?:\s+(.+)$/] *)
Definition typeRegex : RegExp :=
  {| source :=
       Seqs [Bol;
             Group 1 (Plus lowerLetter);
             Opt (Group 2 (Seqs [Lit (ch "("); Plus notCloseParen; Lit (ch ")")]));
             Opt (Group 3 (Lit (ch "!")));
             Lit (ch ":");
             Plus isWhiteSpace;
             Group 4 (Plus dot);
             Eol];
     ignoreCase := false |}.

(** [/s?ed$/], [/es$/] and [/s$/] *)
Definition sedRegex : RegExp :=
  {| source := Seqs [Opt (Lit (ch "s")); Lit (ch "e"); Lit (ch "d"); Eol];
     ignoreCase := false |}.
Definition esRegex : RegExp :=
  {| source := Seqs [Lit (ch "e"); Lit (ch "s"); Eol]; ignoreCase := false |}.
Definition sRegex : RegExp :=
  {| source := Seqs [Lit (ch "s"); Eol]; ignoreCase := false |}.

(** A capture that took part in the match, as a string. *)
Definition str (v : option jsstring) : jsstring :=
  match v with
  | Some s => s
  | None => []
  end.

Definition nonImperativePrefixes : list jsstring :=
  map lit ["added"; "adds"; "fixed"; "fixes"; "updated"; "updates"]%string.

Definition imperativeOf (prefix : jsstring) : jsstring :=
  replaceEmpty (replaceEmpty (replaceEmpty prefix sedRegex) esRegex) sRegex.

Definition QUOTE : N := 0x22.

(** The loop over [lines[2..]] of [validateCommitMessage]; [i] is the index
    of the head of [ls]. *)
Fixpoint longLineWarnings (i : N) (ls : list jsstring) : list jsstring :=
  match ls with
  | [] => []
  | l :: ls' =>
      (if 72 <? len l
       then [lit "Line " ++ numberToString (i + 1) ++ lit " is "
               ++ numberToString (len l)
               ++ lit " characters (recommended max: 72)"]
       else [])
      ++ longLineWarnings (i + 1) ls'
  end.

Definition MSG_EMPTY : jsstring := lit "Commit message cannot be empty".
Definition MSG_NO_EMOJI : jsstring :=
  lit "Commit message must start with an emoji".
Definition MSG_BAD_FORMAT : jsstring :=
  lit "Invalid commit format. Expected: <emoji> <type>(<scope>): <title>".
Definition MSG_EMPTY_TITLE : jsstring := lit "Title cannot be empty".

Section Codec.

(** [String.prototype.toUpperCase] and [toLowerCase] depend on the Unicode
    case tables of the runtime; the codec is parametric in them. *)
Variables toUpperCase toLowerCase : jsstring -> jsstring.

Definition titleWarnings (title : jsstring) : list jsstring :=
  (if 50 <? len title
   then [lit "Title is " ++ numberToString (len title)
           ++ lit " characters (recommended max: 50)"]
   else [])
  ++ (match title with
      | c :: _ =>
          if streq [c] (toUpperCase [c]) && negb (streq [c] (toLowerCase [c]))
          then [lit "Title should start with lowercase letter"]
          else []
      | [] => []
      end)
  ++ (if endsWith title (lit ".")
      then [lit "Title should not end with a period"]
      else [])
  ++ (let titleLower := toLowerCase title in
      match find (startsWith titleLower) nonImperativePrefixes with
      | Some prefix =>
          [lit "Use imperative mood: " ++ [QUOTE] ++ prefix ++ [QUOTE]
             ++ lit " should be " ++ [QUOTE] ++ imperativeOf prefix ++ [QUOTE]]
      | None => []
      end).

Definition descriptionWarnings (lines : list jsstring) : list jsstring :=
  match lines with
  | _ :: second :: others =>
      (if negb (streq second [])
       then [lit "Second line should be blank (separate title from description)"]
       else [])
      ++ longLineWarnings 2 others
  | _ => []
  end.

Definition validateCommitMessage (message : jsstring) : ValidationResult :=
  if negb (truthy message) || (len (trim message) =? 0) then
    {| valid := false; issues := [MSG_EMPTY]; warnings := Some [] |}
  else
    let lines := split NL message in
    let firstLine := nth 0 lines [] in
    match regexMatch firstLine emojiRegex with
    | None =>
        {| valid := false; issues := [MSG_NO_EMOJI]; warnings := Some [] |}
    | Some emojiMatch =>
        let emoji := str (capture 1 emojiMatch) in
        let restOfLine := substring firstLine (List.length emoji + 1) in
        match regexMatch restOfLine typeRegex with
        | None =>
            {| valid := false; issues := [MSG_BAD_FORMAT];
               warnings := Some [] |}
        | Some typeMatch =>
            let type := str (capture 1 typeMatch) in
            let title := str (capture 4 typeMatch) in
            let issues :=
              (match getProperty type with
               | Undefined => [lit "Invalid commit type: " ++ type]
               | p =>
                   let expectedEmoji := emojiOf p in
                   if match expectedEmoji with
                      | Some e => negb (streq emoji e)
                      | None => true
                      end
                   then [lit "Emoji " ++ emoji ++ lit " doesn't match type "
                           ++ type ++ lit ". Expected " ++ render expectedEmoji]
                   else []
               end)
              ++ (if len title =? 0 then [MSG_EMPTY_TITLE] else []) in
            let warnings := titleWarnings title ++ descriptionWarnings lines in
            {| valid := Nat.eqb (List.length issues) 0;
               issues := issues;
               warnings := match warnings with
                           | [] => None
                           | _ :: _ => Some warnings
                           end |}
        end
    end.

End Codec.

Definition parseCommitMessage (message : jsstring) : option CommitParams.t :=
  let lines := split NL message in
  let firstLine := nth 0 lines [] in
  match regexMatch firstLine emojiRegex with
  | None => None
  | Some emojiMatch =>
      let restOfLine :=
        substring firstLine (List.length (str (capture 0 emojiMatch))) in
      match regexMatch restOfLine typeRegex with
      | None => None
      | Some typeMatch =>
          let type := str (capture 1 typeMatch) in
          let scopeRaw := capture 2 typeMatch in
          let breaking := capture 3 typeMatch in
          let title := str (capture 4 typeMatch) in
          let scope :=
            match scopeRaw with
            | Some s => if truthy s then Some (slice_1_m1 s) else None
            | None => None
            end in
          let description :=
            if (2 <? List.length lines)%nat
            then Some (trim (join [NL] (skipn 2 lines)))
            else None in
          Some {| CommitParams.type := type;
                  CommitParams.scope := scope;
                  CommitParams.title := title;
                  CommitParams.description := description;
                  CommitParams.breaking :=
                    match breaking with
                    | Some b => streq b (lit "!")
                    | None => false
                    end |}
      end
  end.

(** One iteration of the loop of [wrapText]: the state is the array [lines]
    and [currentLine]. *)
Definition wrapStep (width : Z) (st : list jsstring * jsstring)
    (word : jsstring) : list jsstring * jsstring :=
  let (lines, currentLine) := st in
  if (Z.of_nat (List.length currentLine) + Z.of_nat (List.length word) + 1
        <=? width)%Z
  then (lines, currentLine ++ (if truthy currentLine then [SP] else []) ++ word)
  else (if truthy currentLine then lines ++ [currentLine] else lines, word).

(** The array [lines] of [wrapText] just before it is joined. *)
Definition wrapLines (text : jsstring) (width : Z) : list jsstring :=
  let (lines, currentLine) :=
    fold_left (wrapStep width) (split SP text) ([], []) in
  if truthy currentLine then lines ++ [currentLine] else lines.

Definition wrapText (text : jsstring) (width : Z) : jsstring :=
  join [NL] (wrapLines text width).

(** [wrapText(text)], with the default width. *)
Definition wrapTextDefault (text : jsstring) : jsstring := wrapText text 72.

(* ===================================================================== *)
(** ** Change classifier ([src/git.ts]) *)
(* ===================================================================== *)

Definition Text (s : string) : regex := Str (lit s).
Arguments Text s%_string.

(** [/\.(md|txt|rst|adoc)$/i] *)
Definition docRegex : RegExp :=
  {| source :=
       Seqs [Lit (ch ".");
             Group 1 (Alts [Text "md"; Text "txt"; Text "rst"; Text "adoc"]);
             Eol];
     ignoreCase := true |}.

(** [/\.(test|spec)\.(ts|js|tsx|jsx)$/i] *)
Definition testRegex : RegExp :=
  {| source :=
       Seqs [Lit (ch ".");
             Group 1 (Alts [Text "test"; Text "spec"]);
             Lit (ch ".");
             Group 2 (Alts [Text "ts"; Text "js"; Text "tsx"; Text "jsx"]);
             Eol];
     ignoreCase := true |}.

(** [/\.(yml|yaml)$/i] *)
Definition ymlRegex : RegExp :=
  {| source :=
       Seqs [Lit (ch "."); Group 1 (Alts [Text "yml"; Text "yaml"]); Eol];
     ignoreCase := true |}.

(** [/^(package\.json|package-lock\.json|yarn\.lock|pnpm-lock\.yaml|Gemfile\.lock|requirements\.txt|pom\.xml|build\.gradle|Cargo\.toml|go\.mod|go\.sum)$/i] *)
Definition manifestRegex : RegExp :=
  {| source :=
       Seqs [Bol;
             Group 1 (Alts [Text "package.json"; Text "package-lock.json";
                            Text "yarn.lock"; Text "pnpm-lock.yaml";
                            Text "Gemfile.lock"; Text "requirements.txt";
                            Text "pom.xml"; Text "build.gradle";
                            Text "Cargo.toml"; Text "go.mod"; Text "go.sum"]);
             Eol];
     ignoreCase := true |}.

(** [/lock|package\.json/i] *)
Definition lockRegex : RegExp :=
  {| source := Alts [Text "lock"; Text "package.json"]; ignoreCase := true |}.

(** [/\.(config|conf|cfg|ini|env|rc)(\.(ts|js|json|yaml|yml))?$/i] *)
Definition configRegex : RegExp :=
  {| source :=
       Seqs [Lit (ch ".");
             Group 1 (Alts [Text "config"; Text "conf"; Text "cfg";
                            Text "ini"; Text "env"; Text "rc"]);
             Opt (Group 2
                    (Seqs [Lit (ch ".");
                           Group 3 (Alts [Text "ts"; Text "js"; Text "json";
                                          Text "yaml"; Text "yml"])]));
             Eol];
     ignoreCase := true |}.

Definition matches (f : jsstring) (re : RegExp) : bool :=
  isSome (regexMatch f re).

Definition isDocFile (f : jsstring) : bool :=
  matches f docRegex || includes f (lit "README") || includes f (lit "docs/").

Definition isTestFile (f : jsstring) : bool :=
  matches f testRegex || includes f (lit "__tests__/")
  || includes f (lit "test/") || includes f (lit "tests/").

Definition isCiFile (f : jsstring) : bool :=
  matches f ymlRegex
  && (includes f (lit ".github/") || includes f (lit ".gitlab/")
      || includes f (lit "jenkins") || includes f (lit "circle")).

Definition isBuildFile (f : jsstring) : bool := matches f manifestRegex.

Definition isLockFile (f : jsstring) : bool := matches f lockRegex.

Definition isConfigFile (f : jsstring) : bool :=
  matches f configRegex || startsWith f (lit ".").

(** [x.length > 0 && x.length === files.length] *)
Definition allOf (selected all : list jsstring) : bool :=
  (0 <? List.length selected)%nat
  && Nat.eqb (List.length selected) (List.length all).

Definition Qltb (x y : Q) : bool := negb (Qle_bool y x).

(** The integer nearest to [num / den], for a positive [den]; a tie goes to
    the even one. *)
Definition roundNearestEven (num den : Z) : Z :=
  let q := (num / den)%Z in
  let r := (num mod den)%Z in
  if (2 * r <? den)%Z then q
  else if (den <? 2 * r)%Z then (q + 1)%Z
  else if Z.even q then q else (q + 1)%Z.

(** [a / d] in IEEE 754 double precision, for positive integers that are
    doubles.  The quotient is scaled by a power of two to a significand of
    53 bits, [2^52 <= a * 2^K / (d * 2^P) < 2^53], or of fewer bits where
    the exponent [P - K] would fall below [-1074], that of the subnormal
    doubles; the significand is rounded to the nearest integer, a tie to
    the even one, and scaled back.  The quotient is at most [a] and does not
    overflow. *)
Definition doubleQuotient (a d : N) : Q :=
  let K := (Z.log2 (Z.of_N d) + 54)%Z in
  let A := (Z.of_N a * 2 ^ K)%Z in
  let E := Z.log2 (A / Z.of_N d) in
  let P := Z.max (E - 52) (K - 1074) in
  let n := roundNearestEven A (Z.of_N d * 2 ^ P) in
  (inject_Z (n * 2 ^ P) / inject_Z (2 ^ K))%Q.

(** [deletions > 0 ? additions / deletions : additions > 0 ? 10 : 0], with
    the division of doubles ([0 / d] is [0]). *)
Definition ratioOf (additions deletions : N) : Q :=
  if 0 <? deletions
  then if 0 <? additions then doubleQuotient additions deletions else 0%Q
  else if 0 <? additions then 10%Q else 0%Q.

(** The doubles that the literals [0.7] and [1.3] denote. *)
Definition DOUBLE_0_7 : Q := 3152519739159347 # 4503599627370496.
Definition DOUBLE_1_3 : Q := 5854679515581645 # 4503599627370496.

Definition suggestion (type reason : jsstring) (c : Confidence)
  : result SuggestionResult.t :=
  Ok {| SuggestionResult.type := type;
        SuggestionResult.emoji := emojiOfType type;
        SuggestionResult.reason := reason;
        SuggestionResult.confidence := c |}.

Definition MSG_NO_STAGED : jsstring := lit "No staged changes found".

(** [suggestCommitType], from the statistics that [getStagedDiff] returned.
    The counts are doubles whose values are natural numbers; the order of
    such doubles is that of the numbers, and [additions + deletions] is
    rounded only from [2^53] on, where the sum and its double are both above
    [100]. *)
Definition suggestCommitType (stats : DiffStats) : result SuggestionResult.t :=
  let files := files stats in
  let additions := additions stats in
  let deletions := deletions stats in
  if Nat.eqb (List.length files) 0 then Throw (Error MSG_NO_STAGED)
  else
  let docFiles := filter isDocFile files in
  if allOf docFiles files then
    suggestion (lit "docs") (lit "All changes are to documentation files") high
  else
  let testFiles := filter isTestFile files in
  if allOf testFiles files then
    suggestion (lit "test") (lit "All changes are to test files") high
  else
  let ciFiles := filter isCiFile files in
  if allOf ciFiles files then
    suggestion (lit "ci") (lit "All changes are to CI/CD configuration files")
      high
  else
  let buildFiles := filter isBuildFile files in
  if (0 <? List.length buildFiles)%nat then
    if existsb isLockFile buildFiles then
      suggestion (lit "deps") (lit "Changes to dependency files detected") high
    else
      suggestion (lit "build") (lit "Changes to build configuration detected")
        high
  else
  let configFiles := filter isConfigFile files in
  if allOf configFiles files then
    suggestion (lit "chore") (lit "All changes are to configuration files")
      high
  else
  let ratio := ratioOf additions deletions in
  if Qltb 2 ratio && (50 <? additions) then
    suggestion (lit "feat")
      (lit "Significant additions (" ++ numberToString additions
         ++ lit " lines added vs " ++ numberToString deletions
         ++ lit " deleted) suggest new feature")
      medium
  else if Qltb DOUBLE_0_7 ratio && Qltb ratio DOUBLE_1_3
          && (100 <? additions + deletions) then
    suggestion (lit "refactor")
      (lit "Balanced changes (" ++ numberToString additions ++ lit " added, "
         ++ numberToString deletions ++ lit " deleted) suggest refactoring")
      medium
  else if additions + deletions <? 50 then
    suggestion (lit "fix") (lit "Small changes suggest bug fix") low
  else
    suggestion (lit "feat")
      (lit "Unable to determine specific type, defaulting to feature") low.

(* ===================================================================== *)
(** ** The commit handler ([handleCommit] of [src/index.ts]) *)
(* ===================================================================== *)

(** The arguments of a tool call ([args: any]), with the fields the handler
    reads. *)
Record CommitArgs := {
  arg_type : jsstring;
  arg_scope : option jsstring;
  arg_title : jsstring;
  arg_description : option jsstring;
  arg_breaking : option bool
}.

Record TextContent := { text : jsstring }.
Record ToolResponse := { content : list TextContent }.

(** The calls made to the version-control collaborator of [src/git.ts]. *)
Inductive call :=
| HasStagedChanges
| CreateCommit (message : jsstring).

Definition CHECK_MARK : jsstring := [0x2705].
Definition WARNING_SIGN : jsstring := [0x26A0; 0xFE0F].

Definition MSG_NOTHING_STAGED : jsstring :=
  lit "No staged changes found. Please stage your changes first with git add.".

Definition MSG_INVALID (issues : list jsstring) : jsstring :=
  lit "Invalid commit message:" ++ [NL] ++ join [NL] issues.

(** [ws.forEach((warning, i) => text += `${i + 1}. ${warning}\n`)] *)
Fixpoint numbered (i : N) (ws : list jsstring) : jsstring :=
  match ws with
  | [] => []
  | w :: ws' =>
      numberToString (i + 1) ++ lit ". " ++ w ++ [NL] ++ numbered (i + 1) ws'
  end.

Definition warningsBlock (ws : option (list jsstring)) : jsstring :=
  match ws with
  | Some ((_ :: _) as l) =>
      [NL; NL] ++ WARNING_SIGN ++ lit "  Warnings:" ++ [NL] ++ numbered 0 l
  | _ => []
  end.

Definition successText (commitHash message : jsstring) : jsstring :=
  CHECK_MARK ++ lit " Commit created successfully!" ++ [NL; NL]
    ++ lit "Commit hash: " ++ commitHash ++ [NL; NL] ++ lit "Message:" ++ [NL]
    ++ message.

Section Dispatcher.

Variables toUpperCase toLowerCase : jsstring -> jsstring.

(** The repository, as the collaborator sees it, and its two operations used
    here; either may throw. *)
Variable World : Type.
Variable hasStagedChanges : World -> result bool * World.
Variable createCommit : jsstring -> World -> result jsstring * World.

(** Computations that thread the repository and the log of collaborator
    calls, and may throw. *)
Definition M (A : Type) : Type :=
  World -> list call -> result A * World * list call.

Definition ret {A} (a : A) : M A := fun w log => (Ok a, w, log).

Definition throw {A} (e : exn) : M A := fun w log => (Throw e, w, log).

Definition bind {A B} (c : M A) (f : A -> M B) : M B :=
  fun w log =>
    match c w log with
    | (Ok a, w', log') => f a w' log'
    | (Throw e, w', log') => (Throw e, w', log')
    end.

Definition lift {A} (r : result A) : M A :=
  match r with
  | Ok a => ret a
  | Throw e => throw e
  end.

Definition callHasStagedChanges : M bool :=
  fun w log =>
    let (r, w') := hasStagedChanges w in (r, w', log ++ [HasStagedChanges]).

Definition callCreateCommit (message : jsstring) : M jsstring :=
  fun w log =>
    let (r, w') := createCommit message w in
    (r, w', log ++ [CreateCommit message]).

Notation "x <- c ;; k" := (bind c (fun x => k))
  (at level 61, c at next level, right associativity).

Definition paramsOf (args : CommitArgs) : CommitParams.t :=
  {| CommitParams.type := arg_type args;
     CommitParams.scope := arg_scope args;
     CommitParams.title := arg_title args;
     CommitParams.description := arg_description args;
     CommitParams.breaking :=
       match arg_breaking args with
       | Some b => b || false
       | None => false
       end |}.

Definition handleCommit (args : CommitArgs) : M ToolResponse :=
  hasChanges <- callHasStagedChanges ;;
  if negb hasChanges then throw (Error MSG_NOTHING_STAGED)
  else
    let params := paramsOf args in
    message <- lift (formatCommitMessage params) ;;
    let validation := validateCommitMessage toUpperCase toLowerCase message in
    if negb (valid validation)
    then throw (Error (MSG_INVALID (issues validation)))
    else
      commitHash <- callCreateCommit message ;;
      let responseText :=
        successText commitHash message
          ++ warningsBlock (warnings validation) in
      ret {| content := [ {| text := responseText |} ] |}.

End Dispatcher.

(** The case mappings on the Basic Latin block, where ECMAScript's
    [toUpperCase] and [toLowerCase] change exactly the letters [a-z] and
    [A-Z]; used to run the codec on ASCII messages. *)
Definition asciiUpper (s : jsstring) : jsstring :=
  map (fun c => if (0x61 <=? c) && (c <=? 0x7A) then c - 0x20 else c) s.
Definition asciiLower (s : jsstring) : jsstring :=
  map (fun c => if (0x41 <=? c) && (c <=? 0x5A) then c + 0x20 else c) s.

(* ===================================================================== *)
(** ** Sample inputs and auxiliary notions of the statements *)
(* ===================================================================== *)

Definition noChanges : DiffStats :=
  {| additions := 0; deletions := 0; files := [] |}.

Definition loginChange : DiffStats :=
  {| additions := 245; deletions := 12; files := [lit "src/auth/login.ts"] |}.

(** The files of [stats] that carry a manifest name. *)
Definition buildFilesOf (stats : DiffStats) : list jsstring :=
  filter isBuildFile (files stats).

Definition requirementsOnly : DiffStats :=
  {| additions := 1; deletions := 1; files := [lit "requirements.txt"] |}.


(** What [formatCommitMessage] has built before it considers the
    breaking-change block: the first line and the description block. *)
Definition messageBody (params : CommitParams.t) : jsstring :=
  headerLine (render (emojiOf (getProperty (CommitParams.type params)))) params
  ++ (if present (CommitParams.description params)
      then [NL; NL] ++ render (CommitParams.description params)
      else []).

(** [breaking && description && !description.includes('BREAKING CHANGE:')] *)
Definition footerCondition (params : CommitParams.t) : bool :=
  CommitParams.breaking params
  && present (CommitParams.description params)
  && negb (includes (render (CommitParams.description params)) BREAKING_MARKER).

(** A line of the wrapped text is acceptable when it fits the width, or is
    one of the words of the text and that word alone is wider. *)
Definition lineOK (width : Z) (words : list jsstring) (l : jsstring) : Prop :=
  (Z.of_nat (List.length l) <= width)%Z
  \/ (In l words /\ (width < Z.of_nat (List.length l))%Z).

(** Declarative reading of a pattern: [steps ic r st st'] when [r] can match
    from [st] and leave the matcher in [st'], whatever the priorities. *)
Fixpoint steps (ic : bool) (r : regex) (st st' : mstate) : Prop :=
  match r with
  | Eps => st' = st
  | Lit c =>
      exists a s', rest st = a :: s' /\ charMatches ic c a = true
                   /\ st' = MState (S (pos st)) s' (caps st)
  | Class p =>
      exists a s', rest st = a :: s' /\ p a = true
                   /\ st' = MState (S (pos st)) s' (caps st)
  | Seq r1 r2 => exists st1, steps ic r1 st st1 /\ steps ic r2 st1 st'
  | Alt r1 r2 => steps ic r1 st st' \/ steps ic r2 st st'
  | Opt r1 => steps ic r1 st st' \/ st' = st
  | Plus p =>
      exists n, (1 <= n <= List.length (takeWhile p (rest st)))%nat
                /\ st' = MState (pos st + n) (skipn n (rest st)) (caps st)
  | Group i r1 =>
      exists st1, steps ic r1 st st1
                  /\ st' = setCap i (firstn (pos st1 - pos st) (rest st)) st1
  | Bol => pos st = 0%nat /\ st' = st
  | Eol => rest st = [] /\ st' = st
  end.

(** A continuation that never fails, and one that fails on every state whose
    next character is in the class [p]. *)
Definition total (k : mstate -> option mstate) : Prop :=
  forall st, k st <> None.

Definition rejects (p : N -> bool) (k : mstate -> option mstate) : Prop :=
  forall st c s', rest st = c :: s' -> p c = true -> k st = None.

(** The first line of a message, and the number of whitespace characters
    that follow its first token. *)
Definition firstLineOf (message : jsstring) : jsstring :=
  nth 0 (split NL message) [].

Definition separators (message : jsstring) : nat :=
  List.length
    (takeWhile isWhiteSpace (dropWhile notWhiteSpace (firstLineOf message))).

(** The results with which [validateCommitMessage] returns early. *)
Definition structuralIssue (v : ValidationResult) : Prop :=
  issues v = [MSG_NO_EMOJI] \/ issues v = [MSG_BAD_FORMAT].

Definition earlyIssue (v : ValidationResult) : Prop :=
  issues v = [MSG_EMPTY] \/ structuralIssue v.

(** [parseCommitMessage] fails exactly when one of its two patterns does:
    the first on the first line, the second on what follows the whole match
    of the first. *)
Definition parsePatternsFail (message : jsstring) : Prop :=
  regexMatch (firstLineOf message) emojiRegex = None
  \/ exists emojiMatch,
       regexMatch (firstLineOf message) emojiRegex = Some emojiMatch
       /\ regexMatch
            (substring (firstLineOf message)
               (List.length (str (capture 0 emojiMatch))))
            typeRegex = None.

Definition twoSpaces : jsstring := emojiOfType (lit "feat") ++ lit "  feat: x".
Definition blankMessage : jsstring := lit " ".

(** The parts of the header pattern after the type. *)
Definition scopeGroup : regex :=
  Group 2 (Seqs [Lit (ch "("); Plus notCloseParen; Lit (ch ")")]).

Definition bangGroup : regex := Group 3 (Lit (ch "!")).

Definition titleTail : regex :=
  Seqs [Lit (ch ":"); Plus isWhiteSpace; Group 4 (Plus dot); Eol].

(** The scope segment and the breaking marker of a first line. *)
Definition scopeStrOf (scope : option jsstring) : jsstring :=
  match scope with
  | Some s => if truthy s then lit "(" ++ s ++ lit ")" else []
  | None => []
  end.

Definition bangOf (breaking : bool) : jsstring :=
  if breaking then lit "!" else [].

(** The captures of the header pattern on [type(scope)!: title]. *)
Definition headerGroups (ty : jsstring) (scope : option jsstring) (b : bool)
    (t' whole : jsstring) : list (nat * jsstring) :=
  (0%nat, whole) :: (4%nat, t')
  :: (if b then [(3%nat, lit "!")] else [])
  ++ (if present scope then [(2%nat, scopeStrOf scope)] else [])
  ++ [(1%nat, ty)].


(** Conditions on the fields under which the first line that
    [formatCommitMessage] builds is read back by the two patterns: the type
    is a key of the table made of lower-case letters whose emoji is a
    non-empty token without whitespace, the scope has no closing parenthesis
    and no newline, the title is not empty and has no line terminator. *)
Definition plainType (type : jsstring) : bool :=
  match assoc type COMMIT_TYPES with
  | Some info =>
      forallb lowerLetter type
      && truthy (CommitTypeInfo.emoji info)
      && forallb notWhiteSpace (CommitTypeInfo.emoji info)
  | None => false
  end.

Definition notNewline (c : N) : bool := negb (c =? NL).

Definition scopeOK (scope : option jsstring) : bool :=
  match scope with
  | Some sc => forallb notCloseParen sc && forallb notNewline sc
  | None => true
  end.

Definition titleOK (title : jsstring) : bool :=
  truthy title && forallb dot title.

Definition validatable (f : CommitParams.t) : bool :=
  plainType (CommitParams.type f)
  && scopeOK (CommitParams.scope f)
  && titleOK (CommitParams.title f).

(** Conditions under which, moreover, every field is recovered as it was
    given: a scope and a description that are present are not empty, and
    the title does not start with whitespace. *)
Definition startsWithWhiteSpace (s : jsstring) : bool :=
  match s with
  | c :: _ => isWhiteSpace c
  | [] => false
  end.

Definition presentOrAbsent (v : option jsstring) : bool :=
  match v with
  | Some s => truthy s
  | None => true
  end.

Definition wellFormed (f : CommitParams.t) : bool :=
  validatable f
  && presentOrAbsent (CommitParams.scope f)
  && negb (startsWithWhiteSpace (CommitParams.title f))
  && presentOrAbsent (CommitParams.description f).

(** The text that [formatCommitMessage] puts after the blank line. *)
Definition writtenDescription (f : CommitParams.t) : option jsstring :=
  match CommitParams.description f with
  | Some d =>
      Some (d ++ (if footerCondition f then BREAKING_FOOTER else []))
  | None => None
  end.

(** The fields that [parseCommitMessage] is expected to return for the
    message formatted from [f]. *)
Definition parsedBack (f : CommitParams.t) : CommitParams.t :=
  {| CommitParams.type := CommitParams.type f;
     CommitParams.scope := CommitParams.scope f;
     CommitParams.title := CommitParams.title f;
     CommitParams.description := option_map trim (writtenDescription f);
     CommitParams.breaking := CommitParams.breaking f |}.

(** Removal of every whitespace character: the coarsest normalization of
    whitespace. *)
Definition withoutWhiteSpace (s : jsstring) : jsstring :=
  filter notWhiteSpace s.

Definition sameUpToDescriptionWhiteSpace (f g : CommitParams.t) : Prop :=
  CommitParams.type g = CommitParams.type f
  /\ CommitParams.scope g = CommitParams.scope f
  /\ CommitParams.title g = CommitParams.title f
  /\ CommitParams.breaking g = CommitParams.breaking f
  /\ option_map withoutWhiteSpace (CommitParams.description g)
     = option_map withoutWhiteSpace (CommitParams.description f).

Definition breakingWithBody : CommitParams.t :=
  {| CommitParams.type := lit "feat";
     CommitParams.scope := Some (lit "api");
     CommitParams.title := lit "drop the v1 endpoints";
     CommitParams.description := Some (lit "Clients must move to v2.");
     CommitParams.breaking := true |}.

Definition i18nFields : CommitParams.t :=
  {| CommitParams.type := lit "i18n";
     CommitParams.scope := None;
     CommitParams.title := lit "add french translations";
     CommitParams.description := None;
     CommitParams.breaking := false |}.

Definition a11yFields : CommitParams.t :=
  {| CommitParams.type := lit "a11y";
     CommitParams.scope := None;
     CommitParams.title := lit "label the search field";
     CommitParams.description := None;
     CommitParams.breaking := false |}.

Definition oauthFields : CommitParams.t :=
  {| CommitParams.type := lit "feat";
     CommitParams.scope := Some (lit "auth");
     CommitParams.title := lit "add OAuth2 authentication";
     CommitParams.description := Some (lit "Implemented OAuth2 flow.");
     CommitParams.breaking := false |}.

(** What follows the first line in a formatted message, and the part of the
    first line after the emoji and its space. *)
Definition messageTail (f : CommitParams.t) : jsstring :=
  (if present (CommitParams.description f)
   then [NL; NL] ++ render (CommitParams.description f)
   else [])
  ++ (if footerCondition f then BREAKING_FOOTER else []).

Definition headerRest (f : CommitParams.t) : jsstring :=
  CommitParams.type f ++ scopeStrOf (CommitParams.scope f)
    ++ bangOf (CommitParams.breaking f) ++ lit ": " ++ CommitParams.title f.

(** The hypotheses of the validity property on the title: it is not empty
    and draws none of the four title warnings (length, capital, period,
    mood). *)
Definition tidyTitle (toUpperCase toLowerCase : jsstring -> jsstring)
    (title : jsstring) : bool :=
  truthy title
  && match titleWarnings toUpperCase toLowerCase title with
     | [] => true
     | _ :: _ => false
     end.

(** A repository that always has staged changes and whose commits get the
    same identifier. *)
Definition alwaysStaged (w : unit) : result bool * unit := (Ok true, w).
Definition commitAs (hash : jsstring) (message : jsstring) (w : unit)
  : result jsstring * unit := (Ok hash, w).

Definition oauthArgs : CommitArgs :=
  {| arg_type := lit "feat";
     arg_scope := Some (lit "auth");
     arg_title := lit "add OAuth2 authentication";
     arg_description := Some (lit "Implemented OAuth2 flow.");
     arg_breaking := None |}.

(** [s] occurs in [t]. *)
Definition occursIn (s t : jsstring) : Prop :=
  exists pre post, t = pre ++ s ++ post.

(** Invariants of the loop of [wrapText]: every finished line and the
    current line are acceptable; every word met so far that is wider than
    [width] is a finished line or the current line. *)
Definition fits (width : Z) (words : list jsstring)
    (st : list jsstring * jsstring) : Prop :=
  Forall (lineOK width words) (fst st) /\ lineOK width words (snd st).

Definition keeps (width : Z) (seen : jsstring -> Prop)
    (st : list jsstring * jsstring) : Prop :=
  forall x, seen x -> (width < Z.of_nat (List.length x))%Z ->
            In x (fst st) \/ x = snd st.

(** A text that does not start with a character of the class [p]. *)
Definition stops (p : N -> bool) (s : jsstring) : Prop :=
  match s with
  | [] => True
  | c :: _ => p c = false
  end.

(** The names of the manifest pattern, and their canonical (upper-case)
    forms. *)
Definition manifestNames : list string :=
  ["package.json"; "package-lock.json"; "yarn.lock"; "pnpm-lock.yaml";
   "Gemfile.lock"; "requirements.txt"; "pom.xml"; "build.gradle";
   "Cargo.toml"; "go.mod"; "go.sum"]%string.

Definition canonical (s : jsstring) : jsstring := map Canonicalize s.

Definition manifestCanonical : list jsstring :=
  map (fun n => canonical (lit n)) manifestNames.

(** The number of full stops of a path. *)
Definition dots (s : jsstring) : nat :=
  List.length (filter (N.eqb (ch ".")) s).

(** Every character of [cs] occurs in [s]. *)
Definition hasChars (cs s : jsstring) : bool :=
  forallb (fun c => existsb (N.eqb c) s) cs.

(** The documentation rule, the first of the ordered rules. *)
Definition allDocumentation (stats : DiffStats) : bool :=
  allOf (filter isDocFile (files stats)) (files stats).

(* ===================================================================== *)
(** ** Further notions used by the properties of the whole code *)
(* ===================================================================== *)

(** A first line [<token> <word>[(<scope>)][!]: <title>] that the two
    patterns read, whatever the token and the word: the token is not empty
    and has no whitespace, the word is a non-empty run of lower-case
    letters. *)
Definition tokenOK (e : jsstring) : bool :=
  truthy e && forallb notWhiteSpace e.

Definition wordOK (ty : jsstring) : bool :=
  truthy ty && forallb lowerLetter ty.

Definition headerOK (e : jsstring) (f : CommitParams.t) : bool :=
  tokenOK e
  && wordOK (CommitParams.type f)
  && scopeOK (CommitParams.scope f)
  && titleOK (CommitParams.title f).

(** The issues that [validateCommitMessage] computes from the emoji and the
    type it captured. *)
Definition typeIssues (emoji type : jsstring) : list jsstring :=
  match getProperty type with
  | Undefined => [lit "Invalid commit type: " ++ type]
  | p =>
      match emojiOf p with
      | Some e =>
          if streq emoji e then []
          else [lit "Emoji " ++ emoji ++ lit " doesn't match type " ++ type
                  ++ lit ". Expected " ++ e]
      | None =>
          [lit "Emoji " ++ emoji ++ lit " doesn't match type " ++ type
             ++ lit ". Expected undefined"]
      end
  end.

(** The fields with another description. *)
Definition withDescription (f : CommitParams.t) (d : option jsstring)
  : CommitParams.t :=
  {| CommitParams.type := CommitParams.type f;
     CommitParams.scope := CommitParams.scope f;
     CommitParams.title := CommitParams.title f;
     CommitParams.description := d;
     CommitParams.breaking := CommitParams.breaking f |}.

(** A text that neither starts nor ends with whitespace. *)
Definition trimmed (s : jsstring) : Prop :=
  stops isWhiteSpace s /\ stops isWhiteSpace (rev s).

Definition unknownTypeFields : CommitParams.t :=
  {| CommitParams.type := lit "wip";
     CommitParams.scope := None;
     CommitParams.title := lit "try things";
     CommitParams.description := None;
     CommitParams.breaking := false |}.

(** The words of a text: the non-empty pieces between its spaces. *)
Definition wordsOf (s : jsstring) : list jsstring :=
  filter truthy (split SP s).

Definition isSpace (c : N) : bool := c =? SP.

(** No rule on the names of the files decides: there are files, they are
    not all documentation, not all tests, not all CI files, not all
    configuration files, and none is a manifest. *)
Definition byVolume (stats : DiffStats) : bool :=
  negb (Nat.eqb (List.length (files stats)) 0)
  && negb (allOf (filter isDocFile (files stats)) (files stats))
  && negb (allOf (filter isTestFile (files stats)) (files stats))
  && negb (allOf (filter isCiFile (files stats)) (files stats))
  && negb (0 <? List.length (filter isBuildFile (files stats)))%nat
  && negb (allOf (filter isConfigFile (files stats)) (files stats)).

(** The type and the confidence that the line counts give, in integer
    arithmetic. *)
Definition volumeVerdict (a d : N) : jsstring * Confidence :=
  if (50 <? a) && (2 * d <? a) then (lit "feat", medium)
  else if (0 <? d) && (7 * d <? 10 * a) && (10 * a <? 13 * d)
          && (100 <? a + d)
  then (lit "refactor", medium)
  else if a + d <? 50 then (lit "fix", low)
  else (lit "feat", low).

(** The types that [suggestCommitType] can return. *)
Definition suggestedTypes : list jsstring :=
  map lit ["docs"; "test"; "ci"; "deps"; "build"; "chore"; "feat";
           "refactor"; "fix"]%string.

(** The fields of a commit of a suggested type. *)
Definition fieldsOf (s : SuggestionResult.t) (scope : option jsstring)
    (title : jsstring) (description : option jsstring) (breaking : bool)
  : CommitParams.t :=
  {| CommitParams.type := SuggestionResult.type s;
     CommitParams.scope := scope;
     CommitParams.title := title;
     CommitParams.description := description;
     CommitParams.breaking := breaking |}.

Definition sourceChange : DiffStats :=
  {| additions := 120; deletions := 10;
     files := [lit "src/parser.ts"; lit "src/lexer.ts"] |}.

(* ===================================================================== *)
(** ** Staged changes ([getStagedDiff] and [hasStagedChanges] of
       [src/git.ts]) *)
(* ===================================================================== *)

Module Git.

Definition TAB : N := 0x09.

(** The fields of the [StatusResult] of simple-git that the source reads. *)
Record StatusResult := {
  staged : list jsstring;
  created : list jsstring;
  modified : list jsstring
}.

(** The numbers of [getStagedDiff]: the doubles whose value is an integer,
    the two infinities and [NaN].  The two zeros are one here: [-0 || 0] is
    [0], and no sum of the loop is [-0]. *)
Inductive number :=
| NaN
| Finite (z : Z)
| Infinite (negative : bool).

(** The double nearest to an integer, a tie going to the even significand:
    integers of at most 53 bits are doubles, longer ones are rounded to 53
    bits, and what rounds to [2^1024] or more is an infinity. *)
Definition toDouble (z : Z) : number :=
  let m := Z.abs z in
  let P := Z.max (Z.log2 m - 52) 0 in
  let r := (roundNearestEven m (2 ^ P) * 2 ^ P)%Z in
  if (2 ^ 1024 <=? r)%Z then Infinite (z <? 0)%Z
  else Finite (Z.sgn z * r).

(** [x + y] *)
Definition add (x y : number) : number :=
  match x, y with
  | NaN, _ | _, NaN => NaN
  | Finite a, Finite b => toDouble (a + b)
  | Infinite s, Finite _ | Finite _, Infinite s => Infinite s
  | Infinite s, Infinite t => if Bool.eqb s t then Infinite s else NaN
  end.

(** The statistics as [getStagedDiff] computes them: the two counts are
    sums of results of [parseInt]. *)
Record Stats := {
  additions : number;
  deletions : number;
  files : list jsstring
}.

(** The value of a character as a digit in the radix, if it is one. *)
Definition digitOf (radix : Z) (c : N) : option Z :=
  let v :=
    if (0x30 <=? c) && (c <=? 0x39) then Some (Z.of_N c - 0x30)%Z
    else if (0x61 <=? c) && (c <=? 0x7A) then Some (Z.of_N c - 0x57)%Z
    else if (0x41 <=? c) && (c <=? 0x5A) then Some (Z.of_N c - 0x37)%Z
    else None in
  match v with
  | Some d => if (d <? radix)%Z then Some d else None
  | None => None
  end.

(** The digits of the longest prefix made of digits. *)
Fixpoint digitsOf (radix : Z) (s : jsstring) : list Z :=
  match s with
  | c :: s' =>
      match digitOf radix c with
      | Some d => d :: digitsOf radix s'
      | None => []
      end
  | [] => []
  end.

(** [parseInt(s)] without a radix.  Leading whitespace is skipped, then a
    sign, then the prefix [0x] or [0X], which selects radix 16; the digits
    up to the first character that is not one are read, and there must be
    at least one; the result is the double nearest to the integer read. *)
Definition parseInt (s : jsstring) : number :=
  let s1 := dropWhile isWhiteSpace s in
  let '(sign, s2) :=
    match s1 with
    | c :: s' =>
        if c =? ch "-" then ((-1)%Z, s')
        else if c =? ch "+" then (1%Z, s')
        else (1%Z, s1)
    | [] => (1%Z, s1)
    end in
  let '(radix, s3) :=
    match s2 with
    | c0 :: c1 :: s' =>
        if (c0 =? ch "0") && ((c1 =? ch "x") || (c1 =? ch "X"))
        then (16%Z, s')
        else (10%Z, s2)
    | _ => (10%Z, s2)
    end in
  match digitsOf radix s3 with
  | [] => NaN
  | ds => toDouble (sign * fold_left (fun acc d => acc * radix + d) ds 0)%Z
  end.

(** [x || 0]: [NaN] and zero are falsy. *)
Definition orZero (v : number) : number :=
  match v with
  | NaN => Finite 0
  | Finite z => if (z =? 0)%Z then Finite 0 else v
  | Infinite _ => v
  end.

(** The body of the loop over the lines of the numstat output; the state
    is [additions], [deletions] and [files]. *)
Definition numstatStep (acc : number * number * list jsstring)
    (line : jsstring) : number * number * list jsstring :=
  let '(additions, deletions, files) := acc in
  let parts := split TAB line in
  if (3 <=? List.length parts)%nat then
    let added := orZero (parseInt (nth 0 parts [])) in
    let deleted := orZero (parseInt (nth 1 parts [])) in
    let file := nth 2 parts [] in
    (add additions added, add deletions deleted, files ++ [file])
  else acc.

(** [Array.from(new Set(xs))]: the first occurrence of each element, in the
    order of the array. *)
Fixpoint dedupeFrom (seen xs : list jsstring) : list jsstring :=
  match xs with
  | [] => []
  | x :: xs' =>
      if existsb (streq x) seen then dedupeFrom seen xs'
      else x :: dedupeFrom (x :: seen) xs'
  end.

Definition dedupe (xs : list jsstring) : list jsstring := dedupeFrom [] xs.

(** [getStagedDiff], from the output of [git diff --staged --numstat] and
    the status that the collaborator returned. *)
Definition getStagedDiff (diffOutput : jsstring) (status : StatusResult)
  : Stats :=
  let lines :=
    filter (fun line => 0 <? len (trim line)) (split NL diffOutput) in
  let '(additions, deletions, files) :=
    fold_left numstatStep lines (Finite 0, Finite 0, []) in
  let stagedFiles :=
    staged status ++ created status
      ++ filter (fun f => existsb (streq f) (staged status))
           (modified status) in
  let allFiles := dedupe (files ++ stagedFiles) in
  {| additions := additions; deletions := deletions; files := allFiles |}.

(** [hasStagedChanges], from the status that the collaborator returned. *)
Definition hasStagedChanges (status : StatusResult) : bool :=
  (0 <? List.length (staged status))%nat
  || (0 <? List.length (created status))%nat.

(** The paths that the numstat output names: the third field of every line
    that is not blank and has at least three fields. *)
Definition numstatPaths (diffOutput : jsstring) : list jsstring :=
  flat_map
    (fun line =>
       let parts := split TAB line in
       if (3 <=? List.length parts)%nat then [nth 2 parts []] else [])
    (filter (fun line => 0 <? len (trim line)) (split NL diffOutput)).

(** The numstat output as git prints it: one line per file with the two
    counts in decimal, or a dash each for a binary file, and the path. *)
Record Entry := {
  added : option N;
  deleted : option N;
  path : jsstring
}.

Definition countText (c : option N) : jsstring :=
  match c with
  | Some n => numberToString n
  | None => lit "-"
  end.

Definition countOf (c : option N) : Z :=
  match c with
  | Some n => Z.of_N n
  | None => 0%Z
  end.

Definition numstatLine (e : Entry) : jsstring :=
  countText (added e) ++ [TAB] ++ countText (deleted e) ++ [TAB] ++ path e.

Definition numstatOutput (entries : list Entry) : jsstring :=
  flat_map (fun e => numstatLine e ++ [NL]) entries.

Definition total (f : Entry -> option N) (entries : list Entry) : Z :=
  fold_right (fun e acc => (countOf (f e) + acc)%Z) 0%Z entries.

Definition pathOK (e : Entry) : Prop :=
  ~ In TAB (path e) /\ ~ In NL (path e).

Definition sampleEntries : list Entry :=
  [ {| added := Some 12; deleted := Some 3; path := lit "src/index.ts" |};
    {| added := None; deleted := None; path := lit "logo.png" |};
    {| added := Some 100; deleted := Some 0; path := lit "README.md" |} ].

Definition sampleStatus : StatusResult :=
  {| staged := [lit "src/index.ts"]; created := [lit "logo.png"];
     modified := [lit "src/index.ts"; lit "notes.txt"] |}.

End Git.

(* ===================================================================== *)
(** ** JavaScript values *)
(* ===================================================================== *)

(** The values that the arguments of a call, of type [any] or [unknown],
    can take: they are read from JSON, so that a number is finite.  No
    induction principle is needed: the properties of an object are only
    looked up, and the items of an array are not read. *)
Unset Elimination Schemes.
Inductive jsvalue :=
| VUndefined
| VNull
| VBoolean (b : bool)
| VNumber (n : Q)
| VString (s : jsstring)
| VArray (items : list jsvalue)
| VObject (props : list (jsstring * jsvalue)).
Set Elimination Schemes.

(** [record.key]: the value of the property, [undefined] when the object
    has none. *)
Definition getField (key : jsstring) (props : list (jsstring * jsvalue))
  : jsvalue :=
  match assoc key props with
  | Some v => v
  | None => VUndefined
  end.

(** [a ?? b] *)
Definition nullish (v : jsvalue) : bool :=
  match v with
  | VUndefined | VNull => true
  | _ => false
  end.

Definition coalesce (a b : jsvalue) : jsvalue :=
  if nullish a then b else a.

(** Truthiness: [undefined], [null], [false], zero and the empty string are
    falsy. *)
Definition truthyValue (v : jsvalue) : bool :=
  match v with
  | VUndefined | VNull => false
  | VBoolean b => b
  | VNumber n => negb (Qeq_bool n 0)
  | VString s => truthy s
  | VArray _ | VObject _ => true
  end.

(* ===================================================================== *)
(** ** The other tools and the dispatcher ([src/index.ts]) *)
(* ===================================================================== *)

Definition CROSS_MARK : jsstring := [0x274C].

Definition MSG_REQUIRED : jsstring := lit "Message is required".

(** [handleFormatMessage] *)
Definition handleFormatMessage (args : CommitArgs) : result ToolResponse :=
  match formatCommitMessage (paramsOf args) with
  | Ok message =>
      Ok {| content :=
              [ {| text := lit "Formatted commit message:" ++ [NL; NL]
                             ++ message |} ] |}
  | Throw e => Throw e
  end.

(** The block of warnings in the answer of [handleValidateMessage]. *)
Definition warningsSection (ws : option (list jsstring)) : jsstring :=
  match ws with
  | Some ((_ :: _) as l) =>
      [NL] ++ WARNING_SIGN ++ lit "  Warnings:" ++ [NL] ++ numbered 0 l
  | _ => []
  end.

Definition MSG_IS_VALID : jsstring :=
  CHECK_MARK ++ lit " Commit message is valid!" ++ [NL].

Definition MSG_HAS_ISSUES : jsstring :=
  CROSS_MARK ++ lit " Commit message has issues:" ++ [NL; NL].

(** [args.message]: reading a property of [undefined] or [null] is a
    [TypeError], whose message is that of V8; a primitive value and an
    object without the property give [undefined]. *)
Definition MSG_NO_MESSAGE_OF_UNDEFINED : jsstring :=
  lit "Cannot read properties of undefined (reading 'message')".

Definition MSG_NO_MESSAGE_OF_NULL : jsstring :=
  lit "Cannot read properties of null (reading 'message')".

(** [args.message]: a [TypeError] on [undefined] and [null], the property
    of an object, and [undefined] on a boolean, a number, a string or an
    array, which have no such property. *)
Definition readMessage (args : jsvalue) : result jsvalue :=
  match args with
  | VUndefined => Throw (Error MSG_NO_MESSAGE_OF_UNDEFINED)
  | VNull => Throw (Error MSG_NO_MESSAGE_OF_NULL)
  | VObject record => Ok (getField (lit "message") record)
  | VBoolean _ | VNumber _ | VString _ | VArray _ => Ok VUndefined
  end.

(** [message.trim()] on a value that is not a string: a [TypeError], with
    the message of V8. *)
Definition MSG_NO_TRIM : jsstring := lit "message.trim is not a function".

(** [handleValidateMessage]; [args] is the value sent as the arguments of
    the call, if any.  A truthy message that is not a string reaches
    [validateCommitMessage], whose first operation on it is
    [message.trim()]. *)
Definition handleValidateMessage
    (toUpperCase toLowerCase : jsstring -> jsstring)
    (args : jsvalue) : result ToolResponse :=
  match readMessage args with
  | Throw e => Throw e
  | Ok message =>
      if negb (truthyValue message) then Throw (Error MSG_REQUIRED)
      else
        match message with
        | VString m =>
            let result := validateCommitMessage toUpperCase toLowerCase m in
            let responseText :=
              if valid result then MSG_IS_VALID
              else MSG_HAS_ISSUES ++ numbered 0 (issues result) in
            let responseText :=
              responseText ++ warningsSection (warnings result) in
            Ok {| content := [ {| text := responseText |} ] |}
        | _ => Throw (Error MSG_NO_TRIM)
        end
  end.

Definition confidenceText (c : Confidence) : jsstring :=
  match c with
  | high => lit "high"
  | medium => lit "medium"
  | low => lit "low"
  end.

(** [COMMIT_TYPES[type].description], in a template literal: reading the
    property of [undefined] is a [TypeError], whose message is that of V8;
    a value that the table object inherits has no such property. *)
Definition MSG_NO_DESCRIPTION : jsstring :=
  lit "Cannot read properties of undefined (reading 'description')".

Definition descriptionOf (type : jsstring) : result jsstring :=
  match getProperty type with
  | Own info => Ok (CommitTypeInfo.description info)
  | Inherited => Ok (lit "undefined")
  | Undefined => Throw (Error MSG_NO_DESCRIPTION)
  end.

Definition suggestionText (s : SuggestionResult.t) (description : jsstring)
  : jsstring :=
  lit "Suggested commit type: " ++ SuggestionResult.emoji s ++ lit " "
    ++ SuggestionResult.type s ++ [NL; NL]
    ++ lit "Confidence: " ++ confidenceText (SuggestionResult.confidence s)
    ++ [NL]
    ++ lit "Reason: " ++ SuggestionResult.reason s ++ [NL; NL]
    ++ lit "Type description: " ++ description.

(** [handleSuggestType], from the statistics that [getStagedDiff]
    returned. *)
Definition handleSuggestType (stats : DiffStats) : result ToolResponse :=
  match suggestCommitType stats with
  | Ok suggestion =>
      match descriptionOf (SuggestionResult.type suggestion) with
      | Ok description =>
          Ok {| content :=
                  [ {| text := suggestionText suggestion description |} ] |}
      | Throw e => Throw e
      end
  | Throw e => Throw e
  end.

(** The arguments of a tool call: the fields that the formatting and the
    commit handlers read, and the value as it was sent, which the
    validation handler reads. *)
Record ToolArgs := {
  commitArgs : CommitArgs;
  rawArgs : jsvalue
}.

(** What the request handler returns: the response of a tool, or an error
    payload with [isError] set. *)
Record CallToolResult := {
  resultContent : list TextContent;
  isError : option bool
}.

Definition messageOf (e : exn) : jsstring :=
  match e with Error m => m end.

Definition toolError (e : exn) : CallToolResult :=
  {| resultContent := [ {| text := lit "Error: " ++ messageOf e |} ];
     isError := Some true |}.

Definition toolNames : list jsstring :=
  map lit ["git_format_message"; "git_validate_message"; "git_suggest_type";
           "git_commit"]%string.

Section Server.

Variables toUpperCase toLowerCase : jsstring -> jsstring.
Variable World : Type.
Variable hasStagedChanges : World -> result bool * World.
Variable createCommit : jsstring -> World -> result jsstring * World.

(** [getStagedDiff] of [src/git.ts] as a collaborator: it queries the
    repository and may throw. *)
Variable getStagedDiff : World -> result DiffStats * World.

Definition callGetStagedDiff : M World DiffStats :=
  fun w log => let (r, w') := getStagedDiff w in (r, w', log).

(** The [switch] of the request handler. *)
Definition dispatch (name : jsstring) (args : ToolArgs)
  : M World ToolResponse :=
  if streq name (lit "git_format_message") then
    lift World (handleFormatMessage (commitArgs args))
  else if streq name (lit "git_validate_message") then
    lift World
      (handleValidateMessage toUpperCase toLowerCase (rawArgs args))
  else if streq name (lit "git_suggest_type") then
    bind World callGetStagedDiff
      (fun stats => lift World (handleSuggestType stats))
  else if streq name (lit "git_commit") then
    handleCommit toUpperCase toLowerCase World hasStagedChanges createCommit
      (commitArgs args)
  else throw World (Error (lit "Unknown tool: " ++ name)).

(** The request handler: the [switch] inside [try], and the [catch] that
    turns every exception into an error payload. *)
Definition callTool (name : jsstring) (args : ToolArgs)
  : M World CallToolResult :=
  fun w log =>
    match dispatch name args w log with
    | (Ok r, w', log') =>
        (Ok {| resultContent := content r; isError := None |}, w', log')
    | (Throw e, w', log') => (Ok (toolError e), w', log')
    end.

End Server.

Definition noArgs : ToolArgs :=
  {| commitArgs := oauthArgs; rawArgs := VUndefined |}.

Definition failingDiff (w : unit) : result DiffStats * unit :=
  (Throw (Error (lit "Failed to get staged diff: Error: not a repository")),
   w).

(* ===================================================================== *)
(** ** The repository path of a call ([extractRepoPath] of the later
       revision of [src/index.ts]) *)
(* ===================================================================== *)

Definition extractRepoPath (args : jsvalue) : option jsstring :=
  match args with
  | VObject record =>
      let raw :=
        coalesce (getField (lit "repo_path") record)
          (getField (lit "repoPath") record) in
      match raw with
      | VString raw =>
          let trimmed := trim raw in
          if 0 <? len trimmed then Some trimmed else None
      | _ => None
      end
  | _ => None
  end.

Definition blankThenPath : jsvalue :=
  VObject [(lit "repo_path", VString (lit "  "));
           (lit "repoPath", VString (lit "/srv/repo"))].

(** Sample messages and the fields read from them. *)
Definition draftMessage : jsstring :=
  lit "x wip(a b)!:  Try." ++ [NL; NL] ++ lit " y ".

Definition draftFields : CommitParams.t :=
  {| CommitParams.type := lit "wip";
     CommitParams.scope := Some (lit "a b");
     CommitParams.title := lit "Try.";
     CommitParams.description := Some (lit "y");
     CommitParams.breaking := true |}.

Definition fixMessage : jsstring :=
  emojiOfType (lit "fix") ++ lit " fix: close the file".

Definition fixFields : CommitParams.t :=
  {| CommitParams.type := lit "fix";
     CommitParams.scope := None;
     CommitParams.title := lit "close the file";
     CommitParams.description := None;
     CommitParams.breaking := false |}.

Definition scopedFixMessage : jsstring :=
  emojiOfType (lit "fix") ++ lit " fix(io): flush before exit".

Definition scopedFixFields : CommitParams.t :=
  {| CommitParams.type := lit "fix";
     CommitParams.scope := Some (lit "io");
     CommitParams.title := lit "flush before exit";
     CommitParams.description := None;
     CommitParams.breaking := false |}.

(** A description that survives a round trip: absent, or with a character
    that is not whitespace. *)
Definition notBlank (d : option jsstring) : bool :=
  match d with
  | Some s => negb (forallb isWhiteSpace s)
  | None => true
  end.

(** The prefixes that draw the warning on the mood of the title, each with
    the replacement that the warning proposes. *)
Definition stems : list (jsstring * jsstring) :=
  [(lit "added", lit "add"); (lit "adds", lit "add");
   (lit "fixed", lit "fix"); (lit "fixes", lit "fix");
   (lit "updated", lit "updat"); (lit "updates", lit "updat")].

Definition moodWarning (prefix stem : jsstring) : jsstring :=
  lit "Use imperative mood: " ++ [QUOTE] ++ prefix ++ [QUOTE]
    ++ lit " should be " ++ [QUOTE] ++ stem ++ [QUOTE].

Definition updatedFields : CommitParams.t :=
  {| CommitParams.type := lit "docs";
     CommitParams.scope := None;
     CommitParams.title := lit "updated the guide";
     CommitParams.description := None;
     CommitParams.breaking := false |}.

Definition MSG_SECOND_LINE : jsstring :=
  lit "Second line should be blank (separate title from description)".

(** The first character of a text, [0] for the empty text. *)
Definition firstChar (s : jsstring) : N :=
  match s with
  | c :: _ => c
  | [] => 0
  end.

Definition guideFields : CommitParams.t :=
  {| CommitParams.type := lit "docs";
     CommitParams.scope := None;
     CommitParams.title := lit "updated the guide";
     CommitParams.description := Some (lit "See chapter 2.");
     CommitParams.breaking := false |}.

Definition guideMessage : jsstring :=
  headerLine (emojiOfType (lit "docs")) guideFields
    ++ [NL; NL] ++ lit "See chapter 2.".

(** The warnings of a result as a list: none when the field is
    [undefined]. *)
Definition warningList (v : ValidationResult) : list jsstring :=
  match warnings v with
  | Some l => l
  | None => []
  end.

Definition guideHeader : jsstring :=
  headerLine (emojiOfType (lit "docs")) guideFields.

(** The arguments of a call of the validation tool. *)
Definition messageArgs (v : jsvalue) : jsvalue :=
  VObject [(lit "message", v)].

(* ===================================================================== *)
(** * Properties *)
(* ===================================================================== *)

(** ** Lists and strings *)

Lemma streq_true (a b : jsstring) : streq a b = true <-> a = b.
Proof.
  unfold streq. destruct (list_eq_dec N.eq_dec a b); split; congruence.
Qed.

Lemma streq_refl (a : jsstring) : streq a a = true.
Proof. now apply streq_true. Qed.

Lemma truthy_false (s : jsstring) : truthy s = false <-> s = [].
Proof. destruct s; simpl; split; congruence. Qed.

Lemma truthy_true (s : jsstring) : truthy s = true <-> s <> [].
Proof. destruct s; simpl; split; congruence. Qed.

Section Counting.

Variable A : Type.
Variable p : A -> bool.

Lemma filter_length_perm (l l' : list A) :
  Permutation l l' ->
  List.length (filter p l) = List.length (filter p l').
Proof.
  induction 1 as [| x l l' _ IH | x y l | l l' l'' _ IH1 _ IH2]; simpl.
  - reflexivity.
  - destruct (p x); simpl; congruence.
  - destruct (p x), (p y); reflexivity.
  - congruence.
Qed.

Lemma existsb_perm (l l' : list A) :
  Permutation l l' -> existsb p l = existsb p l'.
Proof.
  induction 1 as [| x l l' _ IH | x y l | l l' l'' _ IH1 _ IH2]; simpl.
  - reflexivity.
  - now rewrite IH.
  - destruct (p x), (p y); reflexivity.
  - congruence.
Qed.

Lemma filter_perm (l l' : list A) :
  Permutation l l' -> Permutation (filter p l) (filter p l').
Proof.
  induction 1 as [| x l l' _ IH | x y l | l l' l'' _ IH1 _ IH2]; simpl.
  - constructor.
  - destruct (p x); auto.
  - destruct (p x), (p y); auto using perm_swap.
  - eauto using perm_trans.
Qed.

End Counting.

(** ** [formatCommitMessage] *)

Lemma formatCommitMessage_unfold (params : CommitParams.t) :
  formatCommitMessage params
  = match getProperty (CommitParams.type params) with
    | Undefined =>
        Throw (Error (lit "Invalid commit type: " ++ CommitParams.type params))
    | _ =>
        Ok (messageBody params
              ++ (if footerCondition params then BREAKING_FOOTER else []))
    end.
Proof.
  unfold formatCommitMessage, messageBody, footerCondition.
  destruct (getProperty (CommitParams.type params)); [| | reflexivity];
    destruct (present (CommitParams.description params));
    destruct (CommitParams.breaking params); cbn [andb];
    try destruct (includes _ _); cbn [negb]; f_equal;
    now rewrite <- ?app_assoc, ?app_nil_r.
Qed.

Lemma formatCommitMessage_body (params : CommitParams.t) (m : jsstring) :
  formatCommitMessage params = Ok m ->
  m = messageBody params
        ++ (if footerCondition params then BREAKING_FOOTER else []).
Proof.
  rewrite formatCommitMessage_unfold.
  destruct (getProperty (CommitParams.type params)); congruence.
Qed.

(** C3. For every type that the table object knows, [formatCommitMessage]
    returns a message, and that message is the first line and the
    description block followed by a blank line and 'BREAKING CHANGE: '
    exactly when [breaking] is true, the description is present and not
    empty, and the description does not contain 'BREAKING CHANGE:';
    otherwise it is the first line and the description block alone.  With
    [breaking] true and no description, the message is the first line
    alone. *)
Theorem formatCommitMessage_breaking_footer (params : CommitParams.t) :
  getProperty (CommitParams.type params) <> Undefined ->
  exists m,
    formatCommitMessage params = Ok m
    /\ (m = messageBody params ++ [NL; NL] ++ lit "BREAKING CHANGE: "
        <-> (CommitParams.breaking params = true
             /\ (exists d, CommitParams.description params = Some d
                           /\ d <> []
                           /\ includes d (lit "BREAKING CHANGE:") = false)))
    /\ (footerCondition params = false -> m = messageBody params)
    /\ (CommitParams.breaking params = true ->
        CommitParams.description params = None ->
        m = headerLine
              (render (emojiOf (getProperty (CommitParams.type params))))
              params).
Proof.
  intros Hknown.
  assert (Hret : formatCommitMessage params
                 = Ok (messageBody params
                         ++ (if footerCondition params then BREAKING_FOOTER
                             else []))).
  { rewrite formatCommitMessage_unfold.
    destruct (getProperty (CommitParams.type params));
      [reflexivity | reflexivity | contradiction]. }
  exists (messageBody params
            ++ (if footerCondition params then BREAKING_FOOTER else [])).
  split; [exact Hret |].
  assert (Hc : footerCondition params = true
               <-> (CommitParams.breaking params = true
                    /\ (exists d, CommitParams.description params = Some d
                                  /\ d <> []
                                  /\ includes d (lit "BREAKING CHANGE:")
                                     = false))).
  { unfold footerCondition, present.
    destruct (CommitParams.breaking params); cbn [andb].
    - destruct (CommitParams.description params) as [d |]; cbn [render].
      + split.
        * intros H. apply andb_prop in H as [Ht Hi].
          split; [reflexivity |]. exists d. repeat split.
          -- now apply truthy_true.
          -- now apply negb_true_iff in Hi.
        * intros (_ & d' & [= <-] & Hd & Hi).
          apply truthy_true in Hd. rewrite Hd. cbn [andb].
          unfold BREAKING_MARKER. now rewrite Hi.
      + split; [discriminate |]. now intros (_ & d & [=] & _).
    - split; [discriminate |]. now intros ([=] & _). }
  split; [split |]; [| | split].
  - intros He. apply Hc.
    destruct (footerCondition params); [reflexivity |].
    rewrite app_nil_r in He.
    apply (f_equal (@List.length N)) in He.
    rewrite !length_app in He. cbn in He. lia.
  - intros Hd. apply Hc in Hd. now rewrite Hd.
  - intros Hf. now rewrite Hf, app_nil_r.
  - intros Hb Hd. unfold footerCondition, messageBody.
    rewrite Hd. cbn [present andb]. rewrite andb_false_r.
    now rewrite !app_nil_r.
Qed.

Lemma formatCommitMessage_breaking_footer_witness :
  formatCommitMessage breakingWithBody
  = Ok (emojiOfType (lit "feat") ++ lit " feat(api)!: drop the v1 endpoints"
          ++ [NL; NL] ++ lit "Clients must move to v2."
          ++ [NL; NL] ++ lit "BREAKING CHANGE: ").
Proof.
  destruct (formatCommitMessage_breaking_footer breakingWithBody)
    as (m & Hm & Hiff & _); [vm_compute; discriminate |].
  assert (Hfoot : m = messageBody breakingWithBody ++ [NL; NL]
                        ++ lit "BREAKING CHANGE: ").
  { apply Hiff. split; [reflexivity |].
    exists (lit "Clients must move to v2.").
    split; [reflexivity |]. split; [discriminate | reflexivity]. }
  rewrite Hfoot in Hm. exact Hm.
Defined.

(** ** [wrapText] *)

Section Wrap.

Variable width : Z.
Hypothesis width_pos : (0 < width)%Z.
Variable words : list jsstring.

Lemma wrapStep_fits st word :
  In word words -> fits width words st ->
  fits width words (wrapStep width st word).
Proof.
  intros Hin [Hl Hc]. destruct st as [lines cur]. unfold wrapStep.
  cbn [fst snd] in *.
  destruct (Z.leb_spec
              (Z.of_nat (List.length cur) + Z.of_nat (List.length word) + 1)
              width) as [Hle | Hgt].
  - split; [exact Hl |]. cbn [fst snd]. left.
    rewrite !length_app. destruct cur; cbn [truthy List.length] in *; lia.
  - split; cbn [fst snd].
    + destruct cur as [| c cur']; cbn [truthy]; [exact Hl |].
      apply Forall_app. split; [exact Hl | now constructor].
    + unfold lineOK.
      destruct (Z.le_gt_cases (Z.of_nat (List.length word)) width);
        [now left | right; split; [exact Hin | lia]].
Qed.

Lemma fold_wrapStep_fits ws st :
  incl ws words -> fits width words st ->
  fits width words (fold_left (wrapStep width) ws st).
Proof.
  revert st. induction ws as [| word ws IH]; intros st Hincl Hst; cbn.
  - exact Hst.
  - apply IH.
    + intros x Hx. apply Hincl. now right.
    + apply wrapStep_fits; [apply Hincl; now left | exact Hst].
Qed.

Lemma wrapStep_keeps seen st word :
  keeps width seen st ->
  keeps width (fun x => seen x \/ x = word) (wrapStep width st word).
Proof.
  intros Hk x Hx Hlong. destruct st as [lines cur]. unfold wrapStep.
  unfold keeps in Hk. cbn [fst snd] in *.
  destruct (Z.leb_spec
              (Z.of_nat (List.length cur) + Z.of_nat (List.length word) + 1)
              width) as [Hle | Hgt]; cbn [fst snd].
  - destruct Hx as [Hs | ->]; [| lia].
    destruct (Hk x Hs Hlong) as [Hin | ->]; [now left | lia].
  - destruct Hx as [Hs | ->]; [| now right].
    left. destruct (Hk x Hs Hlong) as [Hin | ->].
    + destruct cur; cbn [truthy]; [exact Hin |].
      apply in_or_app. now left.
    + destruct cur as [| c cur']; cbn [truthy List.length] in *; [lia |].
      apply in_or_app. right. now left.
Qed.

Lemma fold_wrapStep_keeps ws seen st :
  keeps width seen st ->
  keeps width (fun x => seen x \/ In x ws) (fold_left (wrapStep width) ws st).
Proof.
  revert seen st. induction ws as [| word ws IH]; intros seen st Hk; cbn.
  - intros x [Hx | []] Hl. now apply Hk.
  - intros x Hx Hl.
    apply (IH (fun x => seen x \/ x = word) _ (wrapStep_keeps _ _ _ Hk));
      [| exact Hl].
    destruct Hx as [Hx | [<- | Hx]]; auto.
Qed.

End Wrap.

Lemma split_not_nil sep s : split sep s <> [].
Proof.
  induction s as [| c s IH]; cbn; [discriminate |].
  destruct (c =? sep); [discriminate |].
  destruct (split sep s); [contradiction | discriminate].
Qed.

Lemma split_no_sep sep l : ~ In sep l -> split sep l = [l].
Proof.
  induction l as [| c l IH]; intros Hn; cbn; [reflexivity |].
  destruct (N.eqb_spec c sep) as [-> | Hne]; [exfalso; apply Hn; now left |].
  rewrite IH; [reflexivity | intros H; apply Hn; now right].
Qed.

Lemma split_app_sep sep l r :
  ~ In sep l -> split sep (l ++ sep :: r) = l :: split sep r.
Proof.
  induction l as [| c l IH]; intros Hn; cbn.
  - now rewrite N.eqb_refl.
  - destruct (N.eqb_spec c sep) as [-> | Hne]; [exfalso; apply Hn; now left |].
    rewrite IH; [reflexivity | intros H; apply Hn; now right].
Qed.

Lemma split_join sep ls :
  ls <> [] -> Forall (fun l => ~ In sep l) ls ->
  split sep (join [sep] ls) = ls.
Proof.
  induction ls as [| l ls IH]; intros Hne Hall; [congruence |].
  inversion Hall as [| ? ? Hl Hls]; subst.
  destruct ls as [| l' ls'].
  - cbn. now apply split_no_sep.
  - change (join [sep] (l :: l' :: ls'))
      with (l ++ sep :: join [sep] (l' :: ls')).
    rewrite split_app_sep by exact Hl.
    rewrite IH; [reflexivity | discriminate | exact Hls].
Qed.

Lemma join_split sep s : join [sep] (split sep s) = s.
Proof.
  induction s as [| c s IH]; cbn; [reflexivity |].
  destruct (N.eqb_spec c sep) as [-> | Hne].
  - pose proof (split_not_nil sep s) as Hn.
    destruct (split sep s) as [| l ls] eqn:E; [contradiction |].
    cbn [join app]. now rewrite <- IH.
  - pose proof (split_not_nil sep s) as Hn.
    destruct (split sep s) as [| l ls] eqn:E; [contradiction |].
    rewrite <- IH. destruct ls; reflexivity.
Qed.

Lemma in_split_chars sep s w c :
  In w (split sep s) -> In c w -> In c s.
Proof.
  revert w. induction s as [| a s IH]; intros w; cbn.
  - intros [<- | []] [].
  - destruct (a =? sep).
    + intros [<- | Hw] Hc; [destruct Hc |]. right. eauto.
    + pose proof (split_not_nil sep s) as Hn.
      destruct (split sep s) as [| l ls] eqn:E; [contradiction |].
      intros [<- | Hw] Hc.
      * destruct Hc as [<- | Hc]; [now left |]. right.
        apply (IH l); [now left | exact Hc].
      * right. apply (IH w); [now right | exact Hc].
Qed.

(** No finished line and no current line contains a character that no word
    contains, except the space. *)
Lemma fold_wrapStep_chars width (c : N) ws st :
  c <> SP ->
  Forall (fun w => ~ In c w) ws ->
  Forall (fun l => ~ In c l) (fst st) -> ~ In c (snd st) ->
  let st' := fold_left (wrapStep width) ws st in
  Forall (fun l => ~ In c l) (fst st') /\ ~ In c (snd st').
Proof.
  intros Hc. revert st. induction ws as [| w ws IH]; intros st Hws Hl Hcur.
  - cbn. auto.
  - inversion Hws as [| ? ? Hw Hws']; subst. cbn [fold_left].
    apply IH; [exact Hws' | |];
      destruct st as [lines cur]; unfold wrapStep; cbn [fst snd] in *;
      destruct (_ <=? _)%Z; cbn [fst snd]; auto.
    + destruct cur; cbn [truthy]; auto.
      apply Forall_app. split; auto.
    + intros Hin. apply in_app_or in Hin as [Hin | Hin]; [auto |].
      apply in_app_or in Hin as [Hin | Hin]; [| auto].
      destruct cur; cbn [truthy] in Hin; [destruct Hin |].
      destruct Hin as [Hin | []]. congruence.
Qed.

Lemma wrapLines_chars (c : N) (text : jsstring) (width : Z) :
  c <> SP -> ~ In c text -> Forall (fun l => ~ In c l) (wrapLines text width).
Proof.
  intros Hsp Hnl.
  assert (Hwords : Forall (fun w => ~ In c w) (split SP text)).
  { apply Forall_forall. intros w Hin Hc.
    apply Hnl. eapply in_split_chars; eauto. }
  pose proof (fold_wrapStep_chars width c (split SP text) ([], []) Hsp Hwords
                (Forall_nil _) (fun F => F)) as H.
  cbv zeta in H. unfold wrapLines.
  destruct (fold_left (wrapStep width) (split SP text) ([], []))
    as [lines cur] eqn:E.
  assert (Hl : Forall (fun l => ~ In c l) (fst (lines, cur)))
    by (rewrite <- E; exact (proj1 H)).
  assert (Hc : ~ In c (snd (lines, cur)))
    by (rewrite <- E; exact (proj2 H)).
  cbn [fst snd] in Hl, Hc.
  destruct cur; cbn [truthy]; [exact Hl |].
  apply Forall_app. split; [exact Hl | now constructor].
Qed.

(** C6. For a positive width, every line that [wrapText] produces is at most
    [width] long, unless it is a single word of the text that is itself
    longer than [width]; every word longer than [width] is a line of its own,
    unsplit.  This holds of the lines that are joined, and, when the text
    has no newline of its own, of the lines of the returned string. *)
Theorem wrapText_lines (text : jsstring) (width : Z) :
  (0 < width)%Z ->
  let words := split SP text in
  Forall (lineOK width words) (wrapLines text width)
  /\ (forall word, In word words ->
                   (width < Z.of_nat (List.length word))%Z ->
                   In word (wrapLines text width))
  /\ wrapText text width = join [NL] (wrapLines text width)
  /\ (~ In NL text ->
      Forall (lineOK width words) (split NL (wrapText text width))).
Proof.
  intros Hw words.
  assert (HA : Forall (lineOK width words) (wrapLines text width)).
  { unfold wrapLines.
    pose proof (fold_wrapStep_fits width words words ([], [])
                  (incl_refl _)) as H.
    destruct (fold_left (wrapStep width) (split SP text) ([], []))
      as [lines cur] eqn:E.
    fold words in E. rewrite E in H.
    destruct H as [Hl Hc]; [split; [constructor | left; cbn; lia] |].
    cbn [fst snd] in *.
    destruct cur; cbn [truthy]; [exact Hl |].
    apply Forall_app. split; [exact Hl | now constructor]. }
  split; [exact HA |]. split; [| split; [reflexivity |]].
  - intros word Hin Hlong. unfold wrapLines.
    pose proof (fold_wrapStep_keeps width Hw words (fun _ => False) ([], [])) as H.
    fold words.
    destruct (fold_left (wrapStep width) words ([], [])) as [lines cur] eqn:E.
    destruct (H (fun x F _ => match F with end) word (or_intror Hin) Hlong)
      as [Hl | ->]; cbn [fst snd] in *.
    + destruct cur; cbn [truthy]; [exact Hl |]. apply in_or_app. now left.
    + destruct cur; cbn [truthy List.length] in *; [lia |].
      apply in_or_app. right. now left.
  - intros Hnl. unfold wrapText.
    destruct (wrapLines text width) as [| l ls] eqn:E.
    + cbn. constructor; [left; cbn; lia | constructor].
    + rewrite <- E in HA |- *.
      rewrite split_join; [exact HA | rewrite E; discriminate |].
      apply wrapLines_chars; [discriminate | exact Hnl].
Qed.

Lemma wrapText_lines_witness :
  Forall (lineOK 5 (split SP (lit "aaa bb cccccccc d")))
    (split NL (wrapText (lit "aaa bb cccccccc d") 5)).
Proof.
  apply (wrapText_lines (lit "aaa bb cccccccc d") 5); [lia |].
  vm_compute. intuition discriminate.
Defined.

(** ** The matcher *)

Lemma takeWhile_dropWhile p (s : jsstring) :
  takeWhile p s ++ dropWhile p s = s.
Proof.
  induction s as [| c s IH]; cbn; [reflexivity |].
  destruct (p c); cbn; [now rewrite IH | reflexivity].
Qed.

Lemma firstn_takeWhile p (s : jsstring) :
  firstn (List.length (takeWhile p s)) s = takeWhile p s.
Proof.
  induction s as [| c s IH]; cbn; [reflexivity |].
  destruct (p c); cbn; [now rewrite IH | reflexivity].
Qed.

Lemma skipn_takeWhile p (s : jsstring) :
  skipn (List.length (takeWhile p s)) s = dropWhile p s.
Proof.
  induction s as [| c s IH]; cbn; [reflexivity |].
  destruct (p c); cbn; [now rewrite IH | reflexivity].
Qed.

Lemma takeWhile_all p (s : jsstring) : forallb p (takeWhile p s) = true.
Proof.
  induction s as [| c s IH]; cbn; [reflexivity |].
  destruct (p c) eqn:E; cbn; [now rewrite E, IH | reflexivity].
Qed.

Lemma dropWhile_head p (s : jsstring) c s' :
  dropWhile p s = c :: s' -> p c = false.
Proof.
  induction s as [| a s IH]; cbn; [discriminate |].
  destruct (p a) eqn:E; [exact IH | now intros [= <- _]].
Qed.

Lemma takeWhile_app p (a b : jsstring) :
  forallb p a = true -> stops p b -> takeWhile p (a ++ b) = a.
Proof.
  induction a as [| c a IH]; cbn; intros Ha Hb.
  - destruct b as [| c b]; cbn in *; [reflexivity | now rewrite Hb].
  - apply andb_prop in Ha as [Hc Ha]. now rewrite Hc, IH.
Qed.

Lemma dropWhile_app p (a b : jsstring) :
  forallb p a = true -> stops p b -> dropWhile p (a ++ b) = b.
Proof.
  induction a as [| c a IH]; cbn; intros Ha Hb.
  - destruct b as [| c b]; cbn in *; [reflexivity | now rewrite Hb].
  - apply andb_prop in Ha as [Hc Ha]. now rewrite Hc, IH.
Qed.

Lemma plusLoop_inv p k i cs s r :
  plusLoop p k i cs s = Some r ->
  exists n, (n <= List.length (takeWhile p s))%nat
            /\ k (MState (i + n) (skipn n s) cs) = Some r.
Proof.
  revert i. induction s as [| c s IH]; intros i; cbn.
  - intros H. exists 0%nat. now rewrite Nat.add_0_r.
  - destruct (p c) eqn:Ep.
    + destruct (plusLoop p k (S i) cs s) eqn:El.
      * intros [= ->]. destruct (IH _ El) as (n & Hn & Hk).
        exists (S n). cbn. split; [lia |].
        now rewrite Nat.add_succ_r.
      * intros H. exists 0%nat. cbn. split; [lia |].
        now rewrite Nat.add_0_r.
    + intros H. exists 0%nat. cbn. split; [lia |]. now rewrite Nat.add_0_r.
Qed.

(** The longest run is tried first. *)
Lemma plusLoop_max p k i cs s r :
  k (MState (i + List.length (takeWhile p s)) (dropWhile p s) cs) = Some r ->
  plusLoop p k i cs s = Some r.
Proof.
  revert i. induction s as [| c s IH]; intros i; cbn.
  - now rewrite Nat.add_0_r.
  - destruct (p c); cbn.
    + rewrite Nat.add_succ_r. intros H. now rewrite (IH (S i) H).
    + now rewrite Nat.add_0_r.
Qed.

(** When what follows cannot start inside the run, only the longest run is
    a candidate. *)
Lemma plusLoop_rejects p k i cs s :
  rejects p k ->
  plusLoop p k i cs s
  = k (MState (i + List.length (takeWhile p s)) (dropWhile p s) cs).
Proof.
  intros Hr. revert i. induction s as [| c s IH]; intros i; cbn.
  - now rewrite Nat.add_0_r.
  - destruct (p c) eqn:Ep; cbn.
    + rewrite IH, Nat.add_succ_r. cbn [Nat.add].
      destruct (k (MState (S (i + _)) _ cs)) eqn:Ek; [reflexivity |].
      exact (Hr (MState i (c :: s) cs) c s eq_refl Ep).
    + now rewrite Nat.add_0_r.
Qed.

(** Some shorter run is accepted when the longest is not: the loop succeeds
    as soon as the continuation accepts one of the runs. *)
Lemma plusLoop_some p k i cs s n r :
  (n <= List.length (takeWhile p s))%nat ->
  k (MState (i + n) (skipn n s) cs) = Some r ->
  exists r', plusLoop p k i cs s = Some r'.
Proof.
  revert i n. induction s as [| c s IH]; intros i n; cbn.
  - intros Hn. assert (n = 0%nat) as -> by lia. cbn.
    rewrite Nat.add_0_r. eauto.
  - destruct (p c) eqn:Ep; cbn.
    + intros Hn Hk. destruct n as [| n]; cbn in Hk.
      * rewrite Nat.add_0_r in Hk.
        destruct (plusLoop p k (S i) cs s); eauto.
      * rewrite Nat.add_succ_r in Hk.
        destruct (IH (S i) n ltac:(lia) Hk) as [r' ->]. eauto.
    + intros Hn. assert (n = 0%nat) as -> by lia. cbn.
      rewrite Nat.add_0_r. eauto.
Qed.

Lemma matcher_Plus_rejects ic p k st :
  rejects p k ->
  matcher ic (Plus p) k st
  = match takeWhile p (rest st) with
    | [] => None
    | run =>
        k (MState (pos st + List.length run) (dropWhile p (rest st)) (caps st))
    end.
Proof.
  intros Hr. cbn [matcher]. destruct (rest st) as [| a s]; cbn; [reflexivity |].
  destruct (p a); [| reflexivity].
  rewrite plusLoop_rejects by exact Hr. cbn [List.length].
  now rewrite Nat.add_succ_r.
Qed.

(** Every result of the matcher is a match of the declarative reading. *)
Lemma matcher_sound ic r :
  forall k st res,
    matcher ic r k st = Some res ->
    exists st', steps ic r st st' /\ k st' = Some res.
Proof.
  induction r as [| c | p | r1 IH1 r2 IH2 | r1 IH1 r2 IH2 | r1 IH1 | p
                  | i r1 IH1 | |]; intros k st res; cbn [matcher steps].
  - eauto.
  - destruct (rest st) as [| a s'] eqn:E; [discriminate |].
    destruct (charMatches ic c a) eqn:Ec; [| discriminate].
    intros H. eexists. split; [| exact H]. eauto 6.
  - destruct (rest st) as [| a s'] eqn:E; [discriminate |].
    destruct (p a) eqn:Ec; [| discriminate].
    intros H. eexists. split; [| exact H]. eauto 6.
  - intros H. apply IH1 in H as (st1 & H1 & H).
    apply IH2 in H as (st2 & H2 & H). eauto.
  - destruct (matcher ic r1 k st) eqn:E1.
    + intros [= ->]. apply IH1 in E1 as (st1 & H1 & H). eauto.
    + intros H. apply IH2 in H as (st2 & H2 & H). eauto.
  - destruct (matcher ic r1 k st) eqn:E1.
    + intros [= ->]. apply IH1 in E1 as (st1 & H1 & H). eauto.
    + intros H. eauto.
  - destruct (rest st) as [| a s'] eqn:E; [discriminate |].
    destruct (p a) eqn:Ep; [| discriminate].
    intros H. apply plusLoop_inv in H as (n & Hn & H).
    eexists. split; [| exact H].
    exists (S n). cbn. rewrite Ep. cbn. split; [lia |].
    now rewrite Nat.add_succ_r.
  - intros H. apply IH1 in H as (st1 & H1 & H). eauto.
  - destruct (Nat.eqb_spec (pos st) 0); [| discriminate]. eauto.
  - destruct (rest st) eqn:E; [| discriminate]. eauto.
Qed.

Lemma execFrom_inv re i s m :
  execFrom re i s = Some m ->
  exists pre s' st',
    s = pre ++ s'
    /\ steps (ignoreCase re) (Group 0 (source re))
         (MState (i + List.length pre) s' []) st'
    /\ m = {| index := i + List.length pre; lastIndex := pos st';
              groups := caps st' |}.
Proof.
  revert i. induction s as [| c s IH]; intros i; cbn [execFrom].
  - destruct (matcher _ _ _ _) eqn:E; [| discriminate].
    intros [= <-]. apply matcher_sound in E as (st' & Hs & [= <-]).
    exists [], [], st'. cbn [List.length]. rewrite Nat.add_0_r. auto.
  - destruct (matcher _ _ _ _) eqn:E.
    + intros [= <-]. apply matcher_sound in E as (st' & Hs & [= <-]).
      exists [], (c :: s), st'. cbn [List.length]. rewrite Nat.add_0_r. auto.
    + intros H. apply IH in H as (pre & s' & st' & -> & Hs & ->).
      exists (c :: pre), s', st'. cbn [List.length].
      rewrite Nat.add_succ_r. auto.
Qed.

(** A pattern that starts with [^] is only tried at index 0. *)
Lemma execFrom_anchored re r i s :
  source re = Seq Bol r -> execFrom re (S i) s = None.
Proof.
  intros Hr. revert i. induction s as [| c s IH]; intros i;
    cbn [execFrom]; rewrite Hr; cbn; [reflexivity | apply IH].
Qed.

Lemma regexMatch_anchored re r s :
  source re = Seq Bol r ->
  regexMatch s re
  = match matcher (ignoreCase re) r
            (fun st' => Some (setCap 0 (firstn (pos st' - 0) s) st'))
            (MState 0 s []) with
    | Some st => Some {| index := 0; lastIndex := pos st; groups := caps st |}
    | None => None
    end.
Proof.
  intros Hr. unfold regexMatch.
  destruct s as [| c s]; cbn [execFrom]; rewrite Hr;
    cbn [matcher pos rest Nat.eqb];
    destruct (matcher _ _ _ _); try reflexivity.
  now apply execFrom_anchored with (r := r).
Qed.

(** ** The two patterns of the codec *)

Lemma matcher_Seq ic r1 r2 k st :
  matcher ic (Seq r1 r2) k st = matcher ic r1 (matcher ic r2 k) st.
Proof. reflexivity. Qed.

Lemma matcher_Group ic i r k st :
  matcher ic (Group i r) k st
  = matcher ic r
      (fun st' => k (setCap i (firstn (pos st' - pos st) (rest st)) st')) st.
Proof. reflexivity. Qed.

Lemma matcher_Opt ic r k st :
  matcher ic (Opt r) k st
  = match matcher ic r k st with Some x => Some x | None => k st end.
Proof. reflexivity. Qed.

Lemma matcher_Lit ic c k st :
  matcher ic (Lit c) k st
  = match rest st with
    | a :: s' =>
        if charMatches ic c a then k (MState (S (pos st)) s' (caps st))
        else None
    | [] => None
    end.
Proof. reflexivity. Qed.

Lemma matcher_Eol ic k st :
  matcher ic Eol k st = match rest st with [] => k st | _ :: _ => None end.
Proof. reflexivity. Qed.

Lemma matcher_Plus ic p k st :
  matcher ic (Plus p) k st
  = match rest st with
    | a :: s' => if p a then plusLoop p k (S (pos st)) (caps st) s' else None
    | [] => None
    end.
Proof. reflexivity. Qed.

Lemma firstn_app_exact {A} (a b : list A) : firstn (List.length a) (a ++ b) = a.
Proof.
  induction a as [| x a IH]; cbn; [now destruct b | now rewrite IH].
Qed.

Lemma skipn_app_exact {A} (a b : list A) : skipn (List.length a) (a ++ b) = b.
Proof. induction a as [| x a IH]; cbn; auto. Qed.

Lemma notWhiteSpace_false c : notWhiteSpace c = false <-> isWhiteSpace c = true.
Proof. unfold notWhiteSpace. destruct (isWhiteSpace c); cbn; intuition congruence. Qed.

Lemma notWhiteSpace_true c : notWhiteSpace c = true <-> isWhiteSpace c = false.
Proof. unfold notWhiteSpace. destruct (isWhiteSpace c); cbn; intuition congruence. Qed.

(** The token before the first whitespace of a line and the whitespace run
    that follows it. *)
Lemma emojiRegex_match (line : jsstring) :
  regexMatch line emojiRegex
  = let e := takeWhile notWhiteSpace line in
    let w := takeWhile isWhiteSpace (dropWhile notWhiteSpace line) in
    if truthy e && truthy w
    then Some {| index := 0;
                 lastIndex := List.length e + List.length w;
                 groups := [(0%nat, e ++ w); (1%nat, e)] |}
    else None.
Proof.
  rewrite (regexMatch_anchored emojiRegex
             (Seq (Group 1 (Plus notWhiteSpace)) (Plus isWhiteSpace)))
    by reflexivity.
  cbn [ignoreCase emojiRegex].
  rewrite matcher_Seq, matcher_Group, matcher_Plus_rejects.
  2:{ intros st c s' Hrest Hp. rewrite matcher_Plus. cbn [setCap rest].
      rewrite Hrest. apply notWhiteSpace_true in Hp. now rewrite Hp. }
  cbn [pos rest caps Nat.add]. cbv zeta.
  pose proof (takeWhile_dropWhile notWhiteSpace line) as Hsplit.
  pose proof (firstn_takeWhile notWhiteSpace line) as Hfirst.
  destruct (takeWhile notWhiteSpace line) as [| e0 e'] eqn:Ee; [reflexivity |].
  assert (Ht : truthy (e0 :: e') = true) by reflexivity.
  remember (e0 :: e') as e eqn:He. rewrite Ht. cbn [andb].
  rewrite matcher_Plus. cbn [setCap rest pos caps].
  pose proof (takeWhile_dropWhile isWhiteSpace (dropWhile notWhiteSpace line))
    as Hsplit2.
  destruct (dropWhile notWhiteSpace line) as [| c r] eqn:Er; [reflexivity |].
  cbn [takeWhile] in *. destruct (isWhiteSpace c) eqn:Ec; [| reflexivity].
  erewrite plusLoop_max by reflexivity.
  cbn [setCap pos rest caps truthy].
  rewrite !Nat.sub_0_r, Hfirst. cbn [List.length].
  rewrite Nat.add_succ_r. cbn [Nat.add].
  rewrite <- Hsplit at 1. rewrite <- Hsplit2. rewrite app_assoc.
  replace (S (List.length e + List.length (takeWhile isWhiteSpace r)))
    with (List.length (e ++ c :: takeWhile isWhiteSpace r))
    by (rewrite length_app; cbn [List.length]; lia).
  now rewrite firstn_app_exact.
Qed.

Lemma firstn_nonempty {A} (n : nat) (l : list A) :
  (1 <= n <= List.length l)%nat -> firstn n l <> [].
Proof.
  destruct n, l; cbn; intros; try lia; discriminate.
Qed.

Lemma takeWhile_length_le p (s : jsstring) :
  (List.length (takeWhile p s) <= List.length s)%nat.
Proof.
  induction s as [| c s IH]; cbn; [lia |]. destruct (p c); cbn; lia.
Qed.

Lemma takeWhile_head p (s : jsstring) :
  (1 <= List.length (takeWhile p s))%nat ->
  exists c s', s = c :: s' /\ p c = true.
Proof.
  destruct s as [| c s]; cbn; [lia |].
  destruct (p c) eqn:E; cbn; [eauto | lia].
Qed.

(** What a match of the header pattern implies: the text starts with a
    lower-case letter, and the captures of the type and of the title are
    not empty. *)
Lemma typeRegex_inv (s : jsstring) (m : MatchResult) :
  regexMatch s typeRegex = Some m ->
  (exists c s', s = c :: s' /\ lowerLetter c = true)
  /\ (exists ty, capture 1 m = Some ty /\ ty <> [])
  /\ (exists title, capture 4 m = Some title /\ title <> []).
Proof.
  intros H. apply execFrom_inv in H as (pre & s' & st' & -> & Hs & ->).
  cbn [ignoreCase source typeRegex Seqs steps] in Hs.
  destruct Hs as (st1 & (st2 & (Hpos & ->) & Hs) & ->).
  cbn [pos] in Hpos. destruct pre; [| discriminate]. cbn [app Nat.add List.length] in *.
  destruct Hs as (st3 & (st4 & (n1 & Hn1 & ->) & ->) & Hs).
  cbn [pos rest caps setCap] in *.
  destruct Hs as (st2 & Hscope & st5 & Hbang & st6 & Hcolon & st7 & Hws
                  & st8 & (st9 & (n4 & Hn4 & ->) & ->) & _ & ->).
  split; [apply takeWhile_head; lia |].
  assert (Hcaps7 : lookupCap 1 (caps st7) = Some (firstn (0 + n1 - 0) s')).
  { destruct Hws as (n & _ & ->). cbn [caps].
    destruct Hcolon as (a & r & _ & _ & ->). cbn [caps].
    destruct Hbang as [(stb & (a' & r' & _ & _ & ->) & ->) | ->];
      destruct Hscope
        as [(sta & (stc & (a2 & r2 & _ & _ & ->)
                    & std & (n2 & _ & ->) & a3 & r3 & _ & _ & ->) & ->) | ->];
      reflexivity. }
  split.
  - exists (firstn (0 + n1 - 0) s'). split.
    + unfold capture. cbn [groups setCap caps lookupCap Nat.eqb].
      exact Hcaps7.
    + apply firstn_nonempty.
      pose proof (takeWhile_length_le lowerLetter s'). lia.
  - eexists. split; [reflexivity |].
    cbn [pos]. apply firstn_nonempty.
    pose proof (takeWhile_length_le dot (rest st7)). lia.
Qed.

Lemma emojiRegex_some (line : jsstring) (em : MatchResult) :
  regexMatch line emojiRegex = Some em ->
  let e := takeWhile notWhiteSpace line in
  let w := takeWhile isWhiteSpace (dropWhile notWhiteSpace line) in
  e <> [] /\ w <> [] /\ capture 1 em = Some e /\ capture 0 em = Some (e ++ w).
Proof.
  rewrite emojiRegex_match. cbv zeta.
  destruct (takeWhile notWhiteSpace line) as [| e0 e]; [discriminate |].
  destruct (takeWhile isWhiteSpace _) as [| w0 w]; [discriminate |].
  cbn [truthy andb]. intros [= <-]. repeat split; discriminate.
Qed.

Lemma emojiRegex_none (line : jsstring) :
  regexMatch line emojiRegex = None <->
  takeWhile notWhiteSpace line = []
  \/ takeWhile isWhiteSpace (dropWhile notWhiteSpace line) = [].
Proof.
  rewrite emojiRegex_match. cbv zeta.
  destruct (takeWhile notWhiteSpace line) as [| e0 e].
  - cbn. intuition.
  - destruct (takeWhile isWhiteSpace _) as [| w0 w]; cbn;
      intuition discriminate.
Qed.

(** ** Blank messages *)

Lemma dropWhile_nil_all p (s : jsstring) :
  dropWhile p s = [] -> forallb p s = true.
Proof.
  induction s as [| c s IH]; cbn; [reflexivity |].
  destruct (p c); [exact IH | discriminate].
Qed.

Lemma dropWhile_all p (s : jsstring) :
  forallb p s = true -> dropWhile p s = [].
Proof.
  induction s as [| c s IH]; cbn; [reflexivity |].
  destruct (p c); [exact IH | discriminate].
Qed.

Lemma rev_nil {A} (l : list A) : rev l = [] -> l = [].
Proof.
  intros H. apply (f_equal (@List.length A)) in H.
  rewrite length_rev in H. now destruct l.
Qed.

Lemma trim_nil (s : jsstring) : trim s = [] <-> forallb isWhiteSpace s = true.
Proof.
  unfold trim. split.
  - intros H. apply rev_nil in H. apply dropWhile_nil_all in H.
    rewrite forallb_forall in H.
    destruct (dropWhile isWhiteSpace s) as [| c r] eqn:E.
    + now apply dropWhile_nil_all.
    + apply dropWhile_head in E.
      rewrite (H c) in E; [discriminate |].
      apply in_rev. rewrite rev_involutive. now left.
  - intros H. now rewrite (dropWhile_all _ _ H).
Qed.

Lemma blank_condition (message : jsstring) :
  negb (truthy message) || (len (trim message) =? 0) = true
  <-> forallb isWhiteSpace message = true.
Proof.
  rewrite orb_true_iff, negb_true_iff, truthy_false, N.eqb_eq.
  unfold len. split.
  - intros [-> | H]; [reflexivity |].
    apply trim_nil. destruct (trim message); [reflexivity | discriminate].
  - intros H. right. apply trim_nil in H. now rewrite H.
Qed.

Lemma nth0_split_in sep s : In (nth 0 (split sep s) []) (split sep s).
Proof.
  pose proof (split_not_nil sep s).
  destruct (split sep s); [contradiction | now left].
Qed.

Lemma blank_no_token (message : jsstring) :
  forallb isWhiteSpace message = true ->
  takeWhile notWhiteSpace (firstLineOf message) = [].
Proof.
  intros H. unfold firstLineOf.
  pose proof (nth0_split_in NL message) as Hin.
  destruct (nth 0 (split NL message) []) as [| c l] eqn:E; [reflexivity |].
  cbn. rewrite forallb_forall in H.
  assert (Hc : isWhiteSpace c = true).
  { apply H. eapply in_split_chars; [exact Hin | now left]. }
  apply notWhiteSpace_false in Hc. now rewrite Hc.
Qed.

Lemma token_not_blank (message : jsstring) :
  takeWhile notWhiteSpace (firstLineOf message) <> [] ->
  negb (truthy message) || (len (trim message) =? 0) = false.
Proof.
  intros H. destruct (negb (truthy message) || _) eqn:E; [| reflexivity].
  apply blank_condition, blank_no_token in E. contradiction.
Qed.

(** ** [validateCommitMessage] and [parseCommitMessage] on the same message *)

(** [validateCommitMessage] skips one character after the token,
    [parseCommitMessage] the whole whitespace run: they look at the same text
    when the run has one character, and only then can the header pattern
    match what [validateCommitMessage] looks at. *)
Lemma rests_agree (line : jsstring) :
  let e := takeWhile notWhiteSpace line in
  let w := takeWhile isWhiteSpace (dropWhile notWhiteSpace line) in
  List.length w = 1%nat ->
  substring line (List.length e + 1) = substring line (List.length (e ++ w)).
Proof.
  cbv zeta. intros H. now rewrite length_app, H.
Qed.

Lemma header_after_one_space (line : jsstring) (c : N) (s' : jsstring) :
  let e := takeWhile notWhiteSpace line in
  let w := takeWhile isWhiteSpace (dropWhile notWhiteSpace line) in
  substring line (List.length e + 1) = c :: s' ->
  isWhiteSpace c = false ->
  w <> [] ->
  List.length w = 1%nat.
Proof.
  cbv zeta. intros Hsub Hc Hw.
  pose proof (takeWhile_dropWhile notWhiteSpace line) as H1.
  pose proof (takeWhile_dropWhile isWhiteSpace (dropWhile notWhiteSpace line))
    as H2.
  pose proof (takeWhile_all isWhiteSpace (dropWhile notWhiteSpace line)) as Ha.
  destruct (takeWhile isWhiteSpace (dropWhile notWhiteSpace line))
    as [| w0 [| w1 w]]; [contradiction | reflexivity |].
  exfalso. unfold substring in Hsub.
  rewrite Nat.add_comm, <- skipn_skipn, skipn_takeWhile in Hsub.
  rewrite <- H2 in Hsub. cbn in Hsub. injection Hsub as -> _.
  cbn in Ha. rewrite Hc in Ha. now rewrite andb_false_r in Ha.
Qed.

Lemma lowerLetter_bounds c : lowerLetter c = true <-> 97 <= c <= 122.
Proof.
  unfold lowerLetter. change (ch "a") with 97. change (ch "z") with 122.
  rewrite andb_true_iff, !N.leb_le. reflexivity.
Qed.

Lemma lowerLetter_not_space c : lowerLetter c = true -> isWhiteSpace c = false.
Proof.
  rewrite lowerLetter_bounds. intros H.
  unfold isWhiteSpace, isLineTerminator.
  repeat match goal with
         | |- context [?x =? ?y] => destruct (N.eqb_spec x y); [lia |]
         end.
  destruct (N.leb_spec 0x2000 c); [lia | reflexivity].
Qed.

Lemma len_zero (s : jsstring) : (len s =? 0) = true <-> s = [].
Proof.
  unfold len. rewrite N.eqb_eq. destruct s; cbn; split; try reflexivity;
    try discriminate; lia.
Qed.

Lemma len_nonzero (s : jsstring) : s <> [] -> (len s =? 0) = false.
Proof.
  intros H. destruct (len s =? 0) eqn:E; [| reflexivity].
  apply len_zero in E. contradiction.
Qed.

Lemma parse_none_iff (message : jsstring) :
  parseCommitMessage message = None <-> parsePatternsFail message.
Proof.
  unfold parseCommitMessage, parsePatternsFail. cbv zeta.
  change (nth 0 (split NL message) []) with (firstLineOf message).
  destruct (regexMatch (firstLineOf message) emojiRegex) as [em |] eqn:Ee.
  - destruct (regexMatch _ typeRegex) as [tm |] eqn:Et.
    + split; [discriminate |].
      intros [H | (em' & [= <-] & H)]; congruence.
    + split; [| reflexivity]. intros _. right. eauto.
  - split; auto.
Qed.

Section Validation.

Variables toUpperCase toLowerCase : jsstring -> jsstring.

Local Abbreviation validate := (validateCommitMessage toUpperCase toLowerCase).

(** The four ways through [validateCommitMessage].  A message that passes
    the three early checks has at most one issue, about the type or about
    the emoji, and none about the title. *)
Lemma validate_cases (message : jsstring) :
  let line := firstLineOf message in
  (forallb isWhiteSpace message = true /\ issues (validate message) = [MSG_EMPTY])
  \/ (regexMatch line emojiRegex = None
      /\ issues (validate message) = [MSG_NO_EMOJI])
  \/ (exists em,
        regexMatch line emojiRegex = Some em
        /\ regexMatch
             (substring line (List.length (str (capture 1 em)) + 1)) typeRegex
           = None
        /\ issues (validate message) = [MSG_BAD_FORMAT])
  \/ (exists em tm,
        regexMatch line emojiRegex = Some em
        /\ regexMatch
             (substring line (List.length (str (capture 1 em)) + 1)) typeRegex
           = Some tm
        /\ (issues (validate message) = []
            \/ (exists ty,
                  issues (validate message)
                  = [lit "Invalid commit type: " ++ ty])
            \/ (exists e ty x,
                  issues (validate message)
                  = [lit "Emoji " ++ e ++ lit " doesn't match type " ++ ty
                       ++ lit ". Expected " ++ x]))).
Proof.
  unfold validateCommitMessage. cbv zeta.
  change (nth 0 (split NL message) []) with (firstLineOf message).
  destruct (negb (truthy message) || _) eqn:Eb;
    [left; split; [now apply blank_condition | reflexivity] |].
  destruct (regexMatch (firstLineOf message) emojiRegex) as [em |] eqn:Ee;
    [| right; left; now split].
  destruct (regexMatch _ typeRegex) as [tm |] eqn:Et;
    [| right; right; left; exists em; repeat split; exact Et].
  right; right; right. exists em, tm.
  split; [reflexivity |]. split; [exact Et |].
  apply typeRegex_inv in Et as (_ & _ & title & Ht & Hne).
  cbn [issues]. rewrite Ht. cbn [str]. rewrite (len_nonzero _ Hne).
  rewrite app_nil_r.
  destruct (getProperty _) as [info | |]; cbn [emojiOf].
  - destruct (negb (streq _ _));
      [right; right; eexists _, _, _; reflexivity | now left].
  - right; right; eexists _, _, _; reflexivity.
  - right; left; eexists; reflexivity.
Qed.

(** C10. No message makes [validateCommitMessage] report 'Title cannot be
    empty': where the header pattern matches, its title capture has at least
    one character. *)
Theorem validate_never_reports_empty_title (message : jsstring) :
  ~ In MSG_EMPTY_TITLE (issues (validate message)).
Proof.
  intros Hin.
  destruct (validate_cases message)
    as [[_ H] | [[_ H] | [(em & _ & _ & H)
        | (em & tm & _ & _ & [H | [(ty & H) | (e & ty & x & H)]])]]];
    rewrite H in Hin; cbn in Hin; intuition discriminate.
Qed.

(** C4, amended.  [parseCommitMessage] returns none exactly when the emoji
    pattern fails on the first line or the header pattern fails on what
    follows the emoji and the whole whitespace run after it.  Whenever it
    returns none, [validateCommitMessage] reports 'Commit message cannot be
    empty' or one of the two structural issues.  Conversely, when
    [validateCommitMessage] reports one of these three and at most one
    whitespace character follows the emoji, [parseCommitMessage] returns
    none. *)
Theorem parse_none_and_validate (message : jsstring) :
  (parseCommitMessage message = None <-> parsePatternsFail message)
  /\ (parseCommitMessage message = None -> earlyIssue (validate message))
  /\ (earlyIssue (validate message) -> (separators message <= 1)%nat ->
      parseCommitMessage message = None).
Proof.
  split; [apply parse_none_iff |]. split.
  - intros Hp.
    destruct (validate_cases message)
      as [[_ H] | [[_ H] | [(em & _ & _ & H) | (em & tm & Ee & Et & _)]]];
      unfold earlyIssue, structuralIssue; auto.
    exfalso. apply parse_none_iff in Hp.
    destruct Hp as [Hp | (em' & Ee' & Hp)]; [congruence |].
    assert (em' = em) as -> by congruence.
    destruct (emojiRegex_some _ _ Ee) as (He & Hw & Hc1 & Hc0).
    rewrite Hc1 in Et. rewrite Hc0 in Hp. cbn [str] in Et, Hp.
    destruct (typeRegex_inv _ _ Et) as ((c & s' & Hs & Hc) & _).
    apply lowerLetter_not_space in Hc.
    pose proof (header_after_one_space _ c s' Hs Hc Hw) as H1.
    rewrite (rests_agree _ H1) in Et. congruence.
  - intros He Hsep. apply parse_none_iff.
    destruct (validate_cases message)
      as [[Hb _] | [[Hn _] | [(em & Ee & Et & _) | (em & tm & _ & _ & Hi)]]].
    + left. apply emojiRegex_none. left. now apply blank_no_token.
    + now left.
    + right. exists em. split; [exact Ee |].
      destruct (emojiRegex_some _ _ Ee) as (_ & Hw & Hc1 & Hc0).
      rewrite Hc1 in Et. rewrite Hc0. cbn [str] in *.
      rewrite <- rests_agree; [exact Et |].
      unfold separators in Hsep.
      destruct (takeWhile isWhiteSpace _) as [| w0 [| w1 w]];
        [contradiction | reflexivity | cbn in Hsep; lia].
    + exfalso. unfold earlyIssue, structuralIssue in He.
      destruct Hi as [H | [(ty & H) | (e & ty & x & H)]];
        rewrite H in He; cbn in He; intuition discriminate.
Qed.

End Validation.

Lemma parse_none_and_validate_witness :
  parseCommitMessage (lit "feat: no emoji here") = None.
Proof.
  apply (parse_none_and_validate asciiUpper asciiLower
           (lit "feat: no emoji here")).
  - right. right. now vm_compute.
  - vm_compute. lia.
Defined.

(** C4, as stated, fails in both directions.  On a blank message
    [parseCommitMessage] returns none while [validateCommitMessage] reports
    the empty-message issue, which is neither of the two structural ones.
    With two spaces after the emoji [validateCommitMessage] reports the
    format issue, yet [parseCommitMessage] returns the fields. *)
Lemma parse_none_iff_structural_counterexample :
  (parseCommitMessage blankMessage = None
   /\ issues (validateCommitMessage asciiUpper asciiLower blankMessage)
      = [MSG_EMPTY]
   /\ ~ structuralIssue
         (validateCommitMessage asciiUpper asciiLower blankMessage))
  /\ (issues (validateCommitMessage asciiUpper asciiLower twoSpaces)
      = [MSG_BAD_FORMAT]
      /\ parseCommitMessage twoSpaces
         = Some {| CommitParams.type := lit "feat";
                   CommitParams.scope := None;
                   CommitParams.title := lit "x";
                   CommitParams.description := None;
                   CommitParams.breaking := false |})
  /\ ~ (forall message,
          parseCommitMessage message = None
          <-> structuralIssue
                (validateCommitMessage asciiUpper asciiLower message)).
Proof.
  assert (Hb : ~ structuralIssue
                 (validateCommitMessage asciiUpper asciiLower blankMessage)).
  { intros [H | H]; vm_compute in H; discriminate. }
  split; [split; [now vm_compute | split; [now vm_compute | exact Hb]] |].
  split; [split; now vm_compute |].
  intros H. apply Hb, H. now vm_compute.
Qed.

(** ** The header pattern on a formatted first line *)

Lemma option_retry {A} (x : option A) :
  match x with Some r => Some r | None => None end = x.
Proof. now destruct x. Qed.

Lemma forallb_skipn {A} (p : A -> bool) n (l : list A) :
  forallb p l = true -> forallb p (skipn n l) = true.
Proof.
  revert l. induction n as [| n IH]; intros [| x l]; cbn; auto.
  intros H. apply andb_prop in H as [_ H]. auto.
Qed.

Lemma takeWhile_forallb p (s : jsstring) :
  forallb p s = true -> takeWhile p s = s.
Proof.
  intros H. rewrite <- (app_nil_r s) at 1.
  rewrite takeWhile_app; auto. exact I.
Qed.

(** The title group on a text without line terminators takes all of it. *)
Lemma title_group k i cs (t : jsstring) :
  forallb dot t = true ->
  matcher false (Seq (Group 4 (Plus dot)) Eol) k (MState i t cs)
  = match t with
    | [] => None
    | _ :: _ => k (MState (i + List.length t) [] ((4%nat, t) :: cs))
    end.
Proof.
  intros Ht. rewrite matcher_Seq, matcher_Group.
  rewrite matcher_Plus_rejects.
  2:{ intros st c s' Hr Hc. rewrite matcher_Eol. cbn [setCap rest].
      now rewrite Hr. }
  cbn [pos rest caps].
  rewrite (takeWhile_forallb _ _ Ht), (dropWhile_all _ _ Ht).
  destruct t as [| c t']; [reflexivity |].
  rewrite matcher_Eol. cbn [setCap rest pos caps].
  replace (i + List.length (c :: t') - i)%nat with (List.length (c :: t'))
    by lia.
  now rewrite firstn_all.
Qed.

Lemma titleTail_match k i cs (title : jsstring) :
  total k ->
  title <> [] ->
  forallb dot title = true ->
  exists t',
    t' <> []
    /\ (stops isWhiteSpace title -> t' = title)
    /\ matcher false titleTail k (MState i (lit ": " ++ title) cs)
       = k (MState (i + 2 + List.length title) [] ((4%nat, t') :: cs)).
Proof.
  intros Hk Hne Hdot. unfold titleTail. cbn [Seqs].
  rewrite matcher_Seq, matcher_Lit. cbn [rest lit app map list_ascii_of_string].
  change (charMatches false (ch ":") (N_of_ascii ":")) with true.
  cbn [pos caps]. rewrite matcher_Seq, matcher_Plus. cbn [rest pos caps].
  change (isWhiteSpace (N_of_ascii " ")) with true. cbv iota.
  set (K := matcher false (Seq (Group 4 (Plus dot)) Eol) k).
  destruct title as [| c t] eqn:Et; [contradiction |]. rewrite <- Et in *.
  destruct (isWhiteSpace c) eqn:Ec.
  - (* the title starts with whitespace: the run may give characters back *)
    assert (Hex : exists r, plusLoop isWhiteSpace K (S (S i)) cs title = Some r).
    { destruct (dropWhile isWhiteSpace title) as [| d t2] eqn:Ed.
      - (* all whitespace: the last character becomes the title *)
        destruct (k (MState (S (S i) + (List.length title - 1) + 1) []
                       ((4%nat, skipn (List.length title - 1) title) :: cs)))
          as [r |] eqn:Ek; [| now apply Hk in Ek].
        apply (plusLoop_some _ _ _ _ _ (List.length title - 1) r).
        + rewrite takeWhile_forallb by now apply dropWhile_nil_all.
          apply Nat.le_sub_l.
        + unfold K. rewrite title_group by now apply forallb_skipn.
          assert (Hl : List.length (skipn (List.length title - 1) title)
                       = 1%nat).
          { rewrite length_skipn, Et. cbn [List.length]. lia. }
          destruct (skipn (List.length title - 1) title) eqn:Es;
            [discriminate |].
          rewrite Hl. exact Ek.
      - destruct (k (MState (S (S i) + List.length (takeWhile isWhiteSpace title)
                             + List.length (d :: t2)) []
                       ((4%nat, d :: t2) :: cs)))
          as [r |] eqn:Ek; [| now apply Hk in Ek].
        exists r. apply plusLoop_max. rewrite Ed. unfold K.
        rewrite title_group; [exact Ek |].
        rewrite <- Ed, <- skipn_takeWhile. now apply forallb_skipn. }
    destruct Hex as [r Hr]. rewrite Hr.
    apply plusLoop_inv in Hr as (n & Hn & Hr).
    unfold K in Hr. rewrite title_group in Hr by now apply forallb_skipn.
    destruct (skipn n title) as [| d t2] eqn:Es; [discriminate |].
    exists (d :: t2). split; [discriminate |]. split.
    + rewrite Et. cbn. intros Hc. congruence.
    + rewrite <- Hr. do 2 f_equal.
      assert (List.length (d :: t2) = List.length title - n)%nat
        by (rewrite <- Es; apply length_skipn).
      pose proof (takeWhile_length_le isWhiteSpace title). lia.
  - exists title. split; [now rewrite Et |]. split; [reflexivity |].
    rewrite Et at 1. cbn [plusLoop]. rewrite Ec. rewrite <- Et.
    unfold K. rewrite title_group by exact Hdot. rewrite Et at 1.
    do 2 f_equal. lia.
Qed.

Lemma matcher_Lit_mismatch c k st a s' :
  rest st = a :: s' -> a <> c -> matcher false (Lit c) k st = None.
Proof.
  intros Hr Hne. rewrite matcher_Lit, Hr. unfold charMatches.
  now apply N.eqb_neq in Hne as ->.
Qed.

Lemma matcher_Lit_match c k st s' :
  rest st = c :: s' ->
  matcher false (Lit c) k st = k (MState (S (pos st)) s' (caps st)).
Proof.
  intros Hr. rewrite matcher_Lit, Hr. unfold charMatches.
  now rewrite N.eqb_refl.
Qed.

Lemma titleTail_needs_colon k st a s' :
  rest st = a :: s' -> a <> ch ":" -> matcher false titleTail k st = None.
Proof.
  intros Hr Hne. unfold titleTail. cbn [Seqs]. rewrite matcher_Seq.
  now apply matcher_Lit_mismatch with (a := a) (s' := s').
Qed.

Lemma bang_match k i cs (b : bool) (r : jsstring) :
  matcher false (Seq (Opt bangGroup) titleTail) k
    (MState i (bangOf b ++ lit ":" ++ r) cs)
  = matcher false titleTail k
      (MState (i + List.length (bangOf b)) (lit ":" ++ r)
         ((if b then [(3%nat, lit "!")] else []) ++ cs)).
Proof.
  rewrite matcher_Seq, matcher_Opt. unfold bangGroup.
  rewrite matcher_Group. destruct b; cbn [bangOf app].
  - change (lit "!" ++ lit ":" ++ r) with (ch "!" :: lit ":" ++ r).
    rewrite (matcher_Lit_match (ch "!") _
               (MState i (ch "!" :: lit ":" ++ r) cs) (lit ":" ++ r) eq_refl).
    cbn [pos rest caps setCap].
    replace (S i - i)%nat with 1%nat by lia.
    replace (i + List.length (lit "!"))%nat with (S i) by (cbn; lia).
    rewrite (titleTail_needs_colon k (MState i _ cs) (ch "!")
               (lit ":" ++ r) eq_refl) by discriminate.
    apply option_retry.
  - rewrite (matcher_Lit_mismatch (ch "!") _ (MState i (lit ":" ++ r) cs)
               (ch ":") r eq_refl) by discriminate.
    cbn [List.length]. now rewrite Nat.add_0_r.
Qed.

Lemma after_scope_rejects_paren k st s' :
  rest st = ch "(" :: s' ->
  matcher false (Seq (Opt bangGroup) titleTail) k st = None.
Proof.
  intros Hr. rewrite matcher_Seq, matcher_Opt. unfold bangGroup.
  rewrite matcher_Group.
  rewrite (matcher_Lit_mismatch _ _ _ _ _ Hr) by discriminate.
  now apply titleTail_needs_colon with (a := ch "(") (s' := s').
Qed.

Lemma notCloseParen_true c : notCloseParen c = true <-> c <> ch ")".
Proof.
  unfold notCloseParen. rewrite negb_true_iff. apply N.eqb_neq.
Qed.

Lemma scope_match k i cs (scope : option jsstring) (r : jsstring) :
  (forall sc, scope = Some sc -> forallb notCloseParen sc = true) ->
  (exists c r', r = c :: r' /\ c <> ch "(") ->
  let K := matcher false (Seq (Opt bangGroup) titleTail) k in
  matcher false (Seq (Opt scopeGroup) (Seq (Opt bangGroup) titleTail)) k
    (MState i (scopeStrOf scope ++ r) cs)
  = K (MState (i + List.length (scopeStrOf scope)) r
         ((if present scope then [(2%nat, scopeStrOf scope)] else []) ++ cs)).
Proof.
  intros Hsc (c & r' & -> & Hc) K. rewrite matcher_Seq, matcher_Opt.
  fold K. unfold scopeStrOf, present.
  assert (Hnone : matcher false scopeGroup K (MState i (c :: r') cs) = None).
  { unfold scopeGroup. cbn [Seqs]. rewrite matcher_Group, matcher_Seq.
    now apply matcher_Lit_mismatch with (a := c) (s' := r'). }
  destruct scope as [sc |]; [destruct (truthy sc) eqn:Esc |];
    cbn [truthy app List.length]; rewrite ?Nat.add_0_r; try now rewrite Hnone.
  specialize (Hsc sc eq_refl).
  unfold scopeGroup. cbn [Seqs].
  rewrite matcher_Group, matcher_Seq.
  rewrite (matcher_Lit_match (ch "(") _
             (MState i ((lit "(" ++ sc ++ lit ")") ++ c :: r') cs)
             ((sc ++ lit ")") ++ c :: r') eq_refl).
  cbn [pos rest caps]. rewrite matcher_Seq, matcher_Plus_rejects.
  2:{ intros st a s' Hr Ha. apply notCloseParen_true in Ha.
      now apply matcher_Lit_mismatch with (a := a) (s' := s'). }
  cbn [pos rest caps]. rewrite <- app_assoc.
  rewrite takeWhile_app, dropWhile_app; try exact Hsc; try reflexivity.
  destruct sc as [| s0 sc'] eqn:E; [discriminate |]. rewrite <- E in *.
  rewrite E at 1. rewrite <- E.
  rewrite (matcher_Lit_match (ch ")") _
             (MState (S i + List.length sc) (lit ")" ++ c :: r') cs)
             (c :: r') eq_refl).
  cbn [pos rest caps setCap].
  unfold K at 2.
  rewrite (after_scope_rejects_paren k
             (MState i ((lit "(" ++ sc ++ lit ")") ++ c :: r') cs)
             ((sc ++ lit ")") ++ c :: r') eq_refl).
  rewrite option_retry. unfold K. f_equal.
  assert (Hlen : List.length (lit "(" ++ sc ++ lit ")")
                 = S (S (List.length sc))).
  { cbn [lit map list_ascii_of_string app List.length].
    rewrite length_app. cbn [List.length]. lia. }
  replace (S (S i + List.length sc) - i)%nat
    with (List.length (lit "(" ++ sc ++ lit ")")) by (rewrite Hlen; lia).
  rewrite firstn_app_exact, Hlen. unfold setCap. cbn [pos rest caps].
  do 2 f_equal. lia.
Qed.

Lemma matcher_Plus_run ic p k st :
  rejects p k ->
  takeWhile p (rest st) <> [] ->
  matcher ic (Plus p) k st
  = k (MState (pos st + List.length (takeWhile p (rest st)))
         (dropWhile p (rest st)) (caps st)).
Proof.
  intros Hr Hne. rewrite matcher_Plus_rejects by exact Hr.
  destruct (takeWhile p (rest st)); [contradiction | reflexivity].
Qed.

Lemma lowerLetter_neq c x :
  lowerLetter c = true -> x < 97 -> c <> x.
Proof. rewrite lowerLetter_bounds. lia. Qed.

Lemma after_type_rejects_letters k :
  rejects lowerLetter
    (matcher false (Seq (Opt scopeGroup) (Seq (Opt bangGroup) titleTail)) k).
Proof.
  intros st c s' Hr Hc.
  rewrite matcher_Seq, matcher_Opt. unfold scopeGroup. cbn [Seqs].
  rewrite matcher_Group, matcher_Seq.
  rewrite (matcher_Lit_mismatch _ _ _ _ _ Hr)
    by (apply lowerLetter_neq; [exact Hc | reflexivity]).
  rewrite matcher_Seq, matcher_Opt. unfold bangGroup.
  rewrite matcher_Group.
  rewrite (matcher_Lit_mismatch _ _ _ _ _ Hr)
    by (apply lowerLetter_neq; [exact Hc | reflexivity]).
  apply titleTail_needs_colon with (a := c) (s' := s'); [exact Hr |].
  apply lowerLetter_neq; [exact Hc | reflexivity].
Qed.

Lemma typeRegex_header (ty : jsstring) (scope : option jsstring) (b : bool)
    (title : jsstring) :
  ty <> [] -> forallb lowerLetter ty = true ->
  (forall sc, scope = Some sc -> forallb notCloseParen sc = true) ->
  title <> [] -> forallb dot title = true ->
  let s := ty ++ scopeStrOf scope ++ bangOf b ++ lit ": " ++ title in
  exists t',
    t' <> []
    /\ (stops isWhiteSpace title -> t' = title)
    /\ regexMatch s typeRegex
       = Some {| index := 0; lastIndex := List.length s;
                 groups := headerGroups ty scope b t' s |}.
Proof.
  intros Hty Hlow Hsc Htitle Hdot s.
  set (k0 := fun st' : mstate => Some (setCap 0 (firstn (pos st' - 0) s) st')).
  assert (Hk0 : total k0) by (intros st; discriminate).
  set (r2 := bangOf b ++ lit ": " ++ title).
  assert (Hr2 : exists c r', r2 = c :: r' /\ c <> ch "(").
  { unfold r2. destruct b; cbn; eexists _, _; split; try reflexivity;
      discriminate. }
  assert (Hstop : stops lowerLetter (scopeStrOf scope ++ r2)).
  { unfold scopeStrOf. destruct scope as [sc |]; [destruct (truthy sc) |];
      try reflexivity; unfold r2; destruct b; reflexivity. }
  destruct (titleTail_match k0
              (List.length ty + List.length (scopeStrOf scope)
               + List.length (bangOf b))
              ((if b then [(3%nat, lit "!")] else [])
               ++ (if present scope then [(2%nat, scopeStrOf scope)] else [])
               ++ [(1%nat, ty)])
              title Hk0 Htitle Hdot) as (t' & Ht' & Hsame & Htail).
  exists t'. split; [exact Ht' |]. split; [exact Hsame |].
  rewrite (regexMatch_anchored typeRegex
             (Seq (Group 1 (Plus lowerLetter))
                (Seq (Opt scopeGroup) (Seq (Opt bangGroup) titleTail))))
    by reflexivity.
  cbn [ignoreCase typeRegex]. fold k0.
  rewrite matcher_Seq, matcher_Group, matcher_Plus_run.
  2:{ intros st c s' Hr Hc.
      apply (after_type_rejects_letters k0 (setCap 1 _ st) c s');
        [exact Hr | exact Hc]. }
  2:{ cbn [rest]. unfold s. fold r2. now rewrite takeWhile_app. }
  cbn [pos rest caps]. unfold s.
  fold r2. rewrite takeWhile_app, dropWhile_app by assumption.
  cbn [setCap pos rest caps Nat.add].
  rewrite Nat.sub_0_r. rewrite firstn_app_exact.
  unfold setCap at 1. cbn [pos rest caps].
  rewrite (scope_match k0 _ _ scope r2 Hsc Hr2). cbv zeta.
  unfold r2 at 1.
  rewrite (bang_match k0 _ _ b (lit " " ++ title)).
  rewrite ?app_nil_r.
  change (lit ":" ++ lit " " ++ title) with (lit ": " ++ title).
  rewrite Htail. unfold k0 at 1. cbn [setCap pos rest caps].
  assert (Hlen : (List.length ty + List.length (scopeStrOf scope)
                  + List.length (bangOf b) + 2 + List.length title
                  = List.length s)%nat).
  { unfold s. rewrite !length_app. cbn [lit map list_ascii_of_string List.length].
    lia. }
  rewrite Hlen, Nat.sub_0_r, firstn_all. reflexivity.
Qed.

(** ** Formatted messages read back *)

Lemma headerLine_parts (e : jsstring) (f : CommitParams.t) :
  headerLine e f
  = e ++ lit " " ++ CommitParams.type f ++ scopeStrOf (CommitParams.scope f)
      ++ bangOf (CommitParams.breaking f) ++ lit ": " ++ CommitParams.title f.
Proof. reflexivity. Qed.

Lemma forallb_In {A} (p : A -> bool) (l : list A) (x : A) :
  forallb p l = true -> In x l -> p x = true.
Proof. intros H. now apply forallb_forall. Qed.

Lemma assoc_getProperty (type : jsstring) (info : CommitTypeInfo.t) :
  assoc type COMMIT_TYPES = Some info -> getProperty type = Own info.
Proof. unfold getProperty. now intros ->. Qed.

Lemma validatable_parts (f : CommitParams.t) :
  validatable f = true ->
  exists info,
    assoc (CommitParams.type f) COMMIT_TYPES = Some info
    /\ forallb lowerLetter (CommitParams.type f) = true
    /\ CommitTypeInfo.emoji info <> []
    /\ forallb notWhiteSpace (CommitTypeInfo.emoji info) = true
    /\ (forall sc, CommitParams.scope f = Some sc ->
                   forallb notCloseParen sc = true
                   /\ forallb notNewline sc = true)
    /\ CommitParams.title f <> []
    /\ forallb dot (CommitParams.title f) = true.
Proof.
  unfold validatable, plainType, scopeOK, titleOK. intros Hf.
  destruct (assoc (CommitParams.type f) COMMIT_TYPES) as [info |];
    [| discriminate].
  rewrite !andb_true_iff in Hf.
  destruct Hf as [[[[Hl He] Hw] Hs] [Ht Hd]].
  exists info. split; [reflexivity |]. split; [exact Hl |].
  split; [now apply truthy_true |]. split; [exact Hw |].
  split; [| split; [now apply truthy_true | exact Hd]].
  intros sc Hsc. rewrite Hsc in Hs. now apply andb_true_iff in Hs.
Qed.

Lemma not_in_forallb (p : N -> bool) (c : N) (l : jsstring) :
  p c = false -> forallb p l = true -> ~ In c l.
Proof.
  intros Hc Hl Hin. rewrite (forallb_In _ _ _ Hl Hin) in Hc. discriminate.
Qed.

Lemma scopeStrOf_no_newline (scope : option jsstring) :
  (forall sc, scope = Some sc -> forallb notNewline sc = true) ->
  ~ In NL (scopeStrOf scope).
Proof.
  intros H. unfold scopeStrOf. destruct scope as [sc |]; [| now intros []].
  destruct (truthy sc); [| now intros []].
  intros Hin. apply in_app_or in Hin as [Hin | Hin].
  - cbn in Hin. intuition discriminate.
  - apply in_app_or in Hin as [Hin | Hin].
    + revert Hin. apply (not_in_forallb notNewline); [reflexivity | auto].
    + cbn in Hin. intuition discriminate.
Qed.

Lemma header_no_newline (f : CommitParams.t) (info : CommitTypeInfo.t) :
  validatable f = true ->
  assoc (CommitParams.type f) COMMIT_TYPES = Some info ->
  ~ In NL (headerLine (CommitTypeInfo.emoji info) f).
Proof.
  intros Hf Hinfo.
  destruct (validatable_parts f Hf)
    as (info' & Hi & Hl & He & Hw & Hs & Ht & Hd).
  assert (info' = info) as -> by congruence.
  rewrite headerLine_parts. intros Hin.
  repeat (apply in_app_or in Hin as [Hin | Hin]).
  - revert Hin. now apply (not_in_forallb notWhiteSpace).
  - cbn in Hin. intuition discriminate.
  - revert Hin. now apply (not_in_forallb lowerLetter).
  - revert Hin. apply scopeStrOf_no_newline. intros sc Hsc.
    now apply Hs.
  - destruct (CommitParams.breaking f); cbn in Hin; intuition discriminate.
  - cbn in Hin. intuition discriminate.
  - revert Hin. now apply (not_in_forallb dot).
Qed.

Lemma firstLineOf_header (h tail : jsstring) :
  ~ In NL h -> tail = [] \/ (exists r, tail = NL :: r) ->
  firstLineOf (h ++ tail) = h.
Proof.
  intros Hn [-> | (r & ->)]; unfold firstLineOf.
  - now rewrite app_nil_r, split_no_sep.
  - now rewrite split_app_sep.
Qed.

(** The emoji pattern on a first line built by [formatCommitMessage]. *)
Lemma emojiRegex_header (e ty r : jsstring) :
  e <> [] -> forallb notWhiteSpace e = true ->
  ty <> [] -> forallb lowerLetter ty = true ->
  regexMatch (e ++ lit " " ++ ty ++ r) emojiRegex
  = Some {| index := 0; lastIndex := List.length e + 1;
            groups := [(0%nat, e ++ lit " "); (1%nat, e)] |}.
Proof.
  intros He Hw Hty Hl. rewrite emojiRegex_match. cbv zeta.
  rewrite takeWhile_app, dropWhile_app by (auto; reflexivity).
  assert (Hrun : takeWhile isWhiteSpace (lit " " ++ ty ++ r) = lit " ").
  { apply takeWhile_app; [reflexivity |].
    destruct ty as [| t0 ty']; [contradiction |]. cbn in Hl |- *.
    apply andb_prop in Hl as [Hl _]. now apply lowerLetter_not_space. }
  rewrite Hrun. apply truthy_true in He. rewrite He. reflexivity.
Qed.

Lemma headerGroups_lookup ty scope b t' s :
  lookupCap 1 (headerGroups ty scope b t' s) = Some ty
  /\ lookupCap 2 (headerGroups ty scope b t' s)
     = (if present scope then Some (scopeStrOf scope) else None)
  /\ lookupCap 3 (headerGroups ty scope b t' s)
     = (if b then Some (lit "!") else None)
  /\ lookupCap 4 (headerGroups ty scope b t' s) = Some t'.
Proof.
  unfold headerGroups. destruct b, (present scope); repeat split.
Qed.

Lemma formatted_message (f : CommitParams.t) (info : CommitTypeInfo.t) :
  assoc (CommitParams.type f) COMMIT_TYPES = Some info ->
  formatCommitMessage f
  = Ok (headerLine (CommitTypeInfo.emoji info) f ++ messageTail f).
Proof.
  intros Hi. rewrite formatCommitMessage_unfold.
  unfold messageBody, messageTail.
  rewrite (assoc_getProperty _ _ Hi). cbn [emojiOf render].
  now rewrite <- app_assoc.
Qed.

Lemma messageTail_shape (f : CommitParams.t) :
  messageTail f = [] \/ exists r, messageTail f = NL :: r.
Proof.
  unfold messageTail, footerCondition.
  destruct (present (CommitParams.description f)).
  - right. eexists. reflexivity.
  - left. now rewrite andb_false_r.
Qed.

(** How the two patterns read the message formatted from validatable
    fields. *)
Lemma formatted_read (f : CommitParams.t) (info : CommitTypeInfo.t) :
  validatable f = true ->
  assoc (CommitParams.type f) COMMIT_TYPES = Some info ->
  let e := CommitTypeInfo.emoji info in
  let m := headerLine e f ++ messageTail f in
  firstLineOf m = headerLine e f
  /\ regexMatch (headerLine e f) emojiRegex
     = Some {| index := 0; lastIndex := List.length e + 1;
               groups := [(0%nat, e ++ lit " "); (1%nat, e)] |}
  /\ substring (headerLine e f) (List.length e + 1) = headerRest f
  /\ exists t',
       t' <> []
       /\ (startsWithWhiteSpace (CommitParams.title f) = false ->
           t' = CommitParams.title f)
       /\ regexMatch (headerRest f) typeRegex
          = Some {| index := 0; lastIndex := List.length (headerRest f);
                    groups :=
                      headerGroups (CommitParams.type f)
                        (CommitParams.scope f) (CommitParams.breaking f) t'
                        (headerRest f) |}.
Proof.
  intros Hf Hi e m.
  destruct (validatable_parts f Hf)
    as (info' & Hi' & Hl & He & Hw & Hs & Ht & Hd).
  assert (info' = info) as -> by congruence. fold e in He, Hw.
  assert (Hty : CommitParams.type f <> []).
  { intros H. rewrite H in Hi. discriminate. }
  split; [| split; [| split]].
  - apply firstLineOf_header; [now apply header_no_newline |].
    apply messageTail_shape.
  - rewrite headerLine_parts. now apply emojiRegex_header.
  - rewrite headerLine_parts. unfold substring, headerRest.
    rewrite Nat.add_comm, <- skipn_skipn, skipn_app_exact. reflexivity.
  - destruct (typeRegex_header (CommitParams.type f) (CommitParams.scope f)
                (CommitParams.breaking f) (CommitParams.title f)
                Hty Hl (fun sc H => proj1 (Hs sc H)) Ht Hd)
      as (t' & Hne & Hsame & Hm).
    exists t'. split; [exact Hne |]. split; [| exact Hm].
    intros Hstart. apply Hsame.
    destruct (CommitParams.title f); [exact I | exact Hstart].
Qed.

Section ValidFormatted.

Variables toUpperCase toLowerCase : jsstring -> jsstring.

Local Abbreviation validate := (validateCommitMessage toUpperCase toLowerCase).

Lemma validate_formatted (f : CommitParams.t) (info : CommitTypeInfo.t) :
  validatable f = true ->
  assoc (CommitParams.type f) COMMIT_TYPES = Some info ->
  exists w,
    validate (headerLine (CommitTypeInfo.emoji info) f ++ messageTail f)
    = {| valid := true; issues := []; warnings := w |}.
Proof.
  intros Hf Hi.
  destruct (formatted_read f info Hf Hi)
    as (Hline & Hem & Hsub & t' & Ht' & _ & Htm).
  unfold validateCommitMessage. cbv zeta.
  change (nth 0 (split NL ?m) []) with (firstLineOf m).
  rewrite token_not_blank.
  2:{ rewrite Hline. rewrite emojiRegex_match in Hem. cbv zeta in Hem.
      intros H. rewrite H in Hem. discriminate. }
  rewrite Hline, Hem. unfold capture at 1. cbn [groups lookupCap Nat.eqb str].
  rewrite Hsub, Htm. unfold capture. cbn [groups].
  destruct (headerGroups_lookup (CommitParams.type f) (CommitParams.scope f)
              (CommitParams.breaking f) t' (headerRest f))
    as (H1 & _ & _ & H4).
  rewrite H1, H4. cbn [str]. rewrite (assoc_getProperty _ _ Hi).
  cbn [emojiOf]. rewrite streq_refl. cbn [negb app].
  rewrite (len_nonzero _ Ht'). cbn [List.length Nat.eqb].
  eexists. reflexivity.
Qed.

(** The message formatted from validatable fields has no issue. *)
Theorem validate_format_valid (f : CommitParams.t) :
  validatable f = true ->
  exists m, formatCommitMessage f = Ok m
            /\ valid (validate m) = true
            /\ issues (validate m) = [].
Proof.
  intros Hf.
  destruct (validatable_parts f Hf) as (info & Hi & _).
  destruct (validate_formatted f info Hf Hi) as (w & Hv).
  eexists. split; [exact (formatted_message f info Hi) |].
  now rewrite Hv.
Qed.

End ValidFormatted.

Lemma slice_paren (sc : jsstring) :
  slice_1_m1 (lit "(" ++ sc ++ lit ")") = sc.
Proof.
  unfold slice_1_m1.
  change (tl (lit "(" ++ sc ++ lit ")")) with (sc ++ [ch ")"]).
  apply removelast_last.
Qed.

Lemma parsed_scope (scope : option jsstring) :
  presentOrAbsent scope = true ->
  match (if present scope then Some (scopeStrOf scope) else None) with
  | Some s => if truthy s then Some (slice_1_m1 s) else None
  | None => None
  end = scope.
Proof.
  destruct scope as [sc |]; cbn [presentOrAbsent present scopeStrOf];
    [| reflexivity].
  intros H. rewrite H.
  change (truthy (lit "(" ++ sc ++ lit ")")) with true. cbv iota.
  now rewrite slice_paren.
Qed.

Lemma parsed_description (f : CommitParams.t) (h : jsstring) :
  ~ In NL h ->
  presentOrAbsent (CommitParams.description f) = true ->
  (if (2 <? List.length (split NL (h ++ messageTail f)))%nat
   then Some (trim (join [NL] (skipn 2 (split NL (h ++ messageTail f)))))
   else None)
  = option_map trim (writtenDescription f).
Proof.
  intros Hh Hd. unfold messageTail, writtenDescription, footerCondition.
  destruct (CommitParams.description f) as [d |];
    cbn [presentOrAbsent present render] in *.
  - rewrite Hd. rewrite <- app_assoc.
    change ([NL; NL] ++ ?x) with (NL :: NL :: x).
    rewrite split_app_sep by exact Hh.
    set (X := d ++ _). cbn [split]. rewrite N.eqb_refl.
    pose proof (split_not_nil NL X) as Hn.
    destruct (split NL X) as [| l ls] eqn:E; [contradiction |].
    cbn [List.length Nat.ltb Nat.leb skipn option_map].
    now rewrite <- E, join_split.
  - rewrite andb_false_r. cbn [app]. rewrite app_nil_r.
    now rewrite split_no_sep.
Qed.

(** C2, amended.  For well-formed fields whose type is a key of the table
    made of lower-case letters, [parseCommitMessage] applied to the
    formatted message returns the type, scope, title and breaking flag that
    were given, and as description the trimmed text that
    [formatCommitMessage] wrote after the blank line: the given description
    when no breaking-change block was appended, the description followed by
    that block when one was. *)
Theorem parse_format (f : CommitParams.t) :
  wellFormed f = true ->
  exists m, formatCommitMessage f = Ok m
            /\ parseCommitMessage m = Some (parsedBack f)
            /\ (footerCondition f = false ->
                CommitParams.description (parsedBack f)
                = option_map trim (CommitParams.description f))
            /\ (footerCondition f = true ->
                exists d, CommitParams.description f = Some d
                          /\ CommitParams.description (parsedBack f)
                             = Some (trim (d ++ BREAKING_FOOTER))).
Proof.
  unfold wellFormed. rewrite !andb_true_iff.
  intros [[[Hf Hscope] Htitle] Hdesc]. apply negb_true_iff in Htitle.
  destruct (validatable_parts f Hf) as (info & Hi & _).
  destruct (formatted_read f info Hf Hi)
    as (Hline & Hem & Hsub & t' & _ & Hsame & Htm).
  rewrite (Hsame Htitle) in Htm. clear Hsame t'.
  eexists. split; [exact (formatted_message f info Hi) |].
  split; [| split].
  - unfold parseCommitMessage. cbv zeta.
    change (nth 0 (split NL ?m) []) with (firstLineOf m).
    rewrite Hline, Hem. unfold capture at 1.
    cbn [groups lookupCap Nat.eqb str].
    rewrite length_app. change (List.length (lit " ")) with 1%nat.
    rewrite Hsub, Htm. unfold capture. cbn [groups].
    destruct (headerGroups_lookup (CommitParams.type f) (CommitParams.scope f)
                (CommitParams.breaking f) (CommitParams.title f)
                (headerRest f))
      as (H1 & H2 & H3 & H4).
    rewrite H1, H2, H3, H4. cbn [str].
    rewrite (parsed_scope _ Hscope).
    rewrite (parsed_description f _ (header_no_newline f info Hf Hi) Hdesc).
    unfold parsedBack. do 2 f_equal.
    now destruct (CommitParams.breaking f).
  - intros Hc. unfold parsedBack, writtenDescription.
    cbn [CommitParams.description]. rewrite Hc.
    destruct (CommitParams.description f); cbn [option_map];
      now rewrite ?app_nil_r.
  - intros Hc. unfold parsedBack, writtenDescription.
    cbn [CommitParams.description]. rewrite Hc.
    unfold footerCondition, present in Hc.
    destruct (CommitParams.description f) as [d |].
    + exists d. split; reflexivity.
    + now rewrite andb_false_r in Hc.
Qed.

Lemma parse_format_witness :
  exists m, formatCommitMessage oauthFields = Ok m
            /\ parseCommitMessage m = Some (parsedBack oauthFields).
Proof.
  destruct (parse_format oauthFields) as (m & Hm & Hp & _);
    [now vm_compute |].
  exists m. split; [exact Hm | exact Hp].
Defined.

(** C2, as stated, fails: with [breaking] true and a description, the
    description that [parseCommitMessage] returns carries the appended
    'BREAKING CHANGE:' block, and differs from the given one even after
    every whitespace character is removed from both. *)
Lemma parse_format_breaking_counterexample :
  wellFormed breakingWithBody = true
  /\ (exists m g,
        formatCommitMessage breakingWithBody = Ok m
        /\ parseCommitMessage m = Some g
        /\ CommitParams.description g
           = Some (lit "Clients must move to v2." ++ [NL; NL]
                     ++ lit "BREAKING CHANGE:"))
  /\ ~ (exists m g,
          formatCommitMessage breakingWithBody = Ok m
          /\ parseCommitMessage m = Some g
          /\ sameUpToDescriptionWhiteSpace breakingWithBody g).
Proof.
  split; [now vm_compute |]. split.
  - eexists _, _. split; [now vm_compute |]. split; now vm_compute.
  - intros (m & g & Hm & Hg & _ & _ & _ & _ & Hd).
    vm_compute in Hm. injection Hm as <-.
    vm_compute in Hg. injection Hg as <-.
    vm_compute in Hd. discriminate.
Qed.

(** ** The types of the table and the header pattern *)

Lemma COMMIT_TYPES_size : List.length COMMIT_TYPES = 17%nat.
Proof. reflexivity. Qed.

(** The keys of the table that the patterns cannot read back: two contain
    digits, and the emoji stored for the third contains a no-break space. *)
Lemma unreadable_types :
  filter (fun k => negb (plainType k)) (map fst COMMIT_TYPES)
  = [lit "deprecate"; lit "i18n"; lit "a11y"].
Proof. now vm_compute. Qed.

(** C1 at the types 'i18n' and 'a11y'.  Both are keys of the table and the
    titles meet every hypothesis of the property, yet the formatted message
    is rejected with the format issue: the header pattern reads the type
    with [[a-z]+], which stops at the first digit. *)
Theorem validate_format_rejects_i18n_a11y
    (toUpperCase toLowerCase : jsstring -> jsstring) :
  (registered (CommitParams.type i18nFields) = true
   /\ tidyTitle asciiUpper asciiLower (CommitParams.title i18nFields) = true
   /\ exists m, formatCommitMessage i18nFields = Ok m
                /\ validateCommitMessage toUpperCase toLowerCase m
                   = {| valid := false; issues := [MSG_BAD_FORMAT];
                        warnings := Some [] |})
  /\ (registered (CommitParams.type a11yFields) = true
      /\ tidyTitle asciiUpper asciiLower (CommitParams.title a11yFields) = true
      /\ exists m, formatCommitMessage a11yFields = Ok m
                   /\ validateCommitMessage toUpperCase toLowerCase m
                      = {| valid := false; issues := [MSG_BAD_FORMAT];
                           warnings := Some [] |}).
Proof.
  split; (split; [now vm_compute |]; split; [now vm_compute |]);
    (eexists; split; [now vm_compute |]); now vm_compute.
Qed.

(** ** The commit handler *)

Lemma occursIn_app_r (s a b : jsstring) : occursIn s b -> occursIn s (a ++ b).
Proof.
  intros (pre & post & ->). exists (a ++ pre), post. now rewrite app_assoc.
Qed.

Lemma occursIn_app_l (s a b : jsstring) : occursIn s a -> occursIn s (a ++ b).
Proof.
  intros (pre & post & ->). exists pre, (post ++ b).
  now rewrite <- !app_assoc.
Qed.

Lemma occursIn_here (s post : jsstring) : occursIn s (s ++ post).
Proof. now exists [], post. Qed.

Lemma numbered_occurs (i : N) (ws : list jsstring) (w : jsstring) :
  In w ws -> occursIn w (numbered i ws).
Proof.
  revert i. induction ws as [| w0 ws IH]; intros i; [intros [] |].
  intros [-> | Hin]; cbn [numbered].
  - do 2 apply occursIn_app_r. apply occursIn_here.
  - do 4 apply occursIn_app_r. now apply IH.
Qed.

Lemma warningsBlock_occurs (ws : list jsstring) (w : jsstring) :
  In w ws -> occursIn w (warningsBlock (Some ws)).
Proof.
  intros Hin. destruct ws as [| w0 ws']; [destruct Hin |].
  change (warningsBlock (Some (w0 :: ws')))
    with ([NL; NL] ++ WARNING_SIGN ++ lit "  Warnings:" ++ [NL]
            ++ numbered 0 (w0 :: ws')).
  apply (occursIn_app_r _ [NL; NL]), (occursIn_app_r _ WARNING_SIGN),
    (occursIn_app_r _ (lit "  Warnings:")), (occursIn_app_r _ [NL]).
  now apply numbered_occurs.
Qed.

Section HandleCommit.

Variables toUpperCase toLowerCase : jsstring -> jsstring.
Variable World : Type.
Variable hasStagedChanges : World -> result bool * World.
Variable createCommit : jsstring -> World -> result jsstring * World.

Local Abbreviation validate := (validateCommitMessage toUpperCase toLowerCase).
Local Abbreviation handle :=
  (handleCommit toUpperCase toLowerCase World hasStagedChanges createCommit).

(** What [handleCommit] does, by the answers it gets. *)
Lemma handleCommit_unfold (args : CommitArgs) (w : World) :
  handle args w []
  = match hasStagedChanges w with
    | (Throw e, w1) => (Throw e, w1, [HasStagedChanges])
    | (Ok false, w1) =>
        (Throw (Error MSG_NOTHING_STAGED), w1, [HasStagedChanges])
    | (Ok true, w1) =>
        match formatCommitMessage (paramsOf args) with
        | Throw e => (Throw e, w1, [HasStagedChanges])
        | Ok message =>
            if valid (validate message) then
              match createCommit message w1 with
              | (Throw e, w2) =>
                  (Throw e, w2, [HasStagedChanges; CreateCommit message])
              | (Ok commitHash, w2) =>
                  (Ok {| content :=
                           [ {| text :=
                                  successText commitHash message
                                  ++ warningsBlock
                                       (warnings (validate message)) |} ] |},
                   w2, [HasStagedChanges; CreateCommit message])
              end
            else
              (Throw (Error (MSG_INVALID (issues (validate message)))), w1,
               [HasStagedChanges])
        end
    end.
Proof.
  unfold handleCommit, bind, callHasStagedChanges, callCreateCommit, lift,
    throw, ret.
  destruct (hasStagedChanges w) as [[hasChanges | e] w1]; cbn [app];
    [| reflexivity].
  destruct hasChanges; cbn [negb]; [| reflexivity].
  destruct (formatCommitMessage (paramsOf args)) as [message | e];
    [| reflexivity].
  destruct (valid (validate message)); cbn [negb]; [| reflexivity].
  destruct (createCommit message w1) as [[commitHash | e] w2]; reflexivity.
Qed.

(** A result is valid exactly when it has no issue. *)
Lemma valid_iff_no_issue (message : jsstring) :
  valid (validate message) = true <-> issues (validate message) = [].
Proof.
  unfold validateCommitMessage. cbv zeta.
  destruct (negb (truthy message) || _); [split; discriminate |].
  destruct (regexMatch _ emojiRegex); [| split; discriminate].
  destruct (regexMatch _ typeRegex); [| split; discriminate].
  cbn [valid issues].
  match goal with |- context [List.length ?l] => destruct l end;
    split; (reflexivity || discriminate).
Qed.

(** C9. [handleCommit] first asks whether changes are staged and throws 'No
    staged changes found...' when there are none; it then formats the
    message and validates it, and throws 'Invalid commit message:' followed
    by all the issues when the message is not valid; only for a valid
    message does it call the commit operation of the collaborator, after
    the other steps.  On either failure the log of collaborator calls holds
    the staged-changes query alone.  On success the text returned contains
    the commit identifier and every validation warning. *)
Theorem handleCommit_order (args : CommitArgs) (w : World) :
  (forall w1,
     hasStagedChanges w = (Ok false, w1) ->
     handle args w []
     = (Throw (Error MSG_NOTHING_STAGED), w1, [HasStagedChanges]))
  /\ (forall w1 message,
        hasStagedChanges w = (Ok true, w1) ->
        formatCommitMessage (paramsOf args) = Ok message ->
        issues (validate message) <> [] ->
        handle args w []
        = (Throw (Error (lit "Invalid commit message:" ++ [NL]
                           ++ join [NL] (issues (validate message)))),
           w1, [HasStagedChanges]))
  /\ (forall w1 message commitHash w2,
        hasStagedChanges w = (Ok true, w1) ->
        formatCommitMessage (paramsOf args) = Ok message ->
        valid (validate message) = true ->
        createCommit message w1 = (Ok commitHash, w2) ->
        exists responseText,
          handle args w []
          = (Ok {| content := [ {| text := responseText |} ] |}, w2,
             [HasStagedChanges; CreateCommit message])
          /\ occursIn commitHash responseText
          /\ occursIn message responseText
          /\ (forall ws warning,
                warnings (validate message) = Some ws -> In warning ws ->
                occursIn warning responseText))
  /\ (forall r w' log message,
        handle args w [] = (r, w', log) ->
        In (CreateCommit message) log ->
        log = [HasStagedChanges; CreateCommit message]
        /\ (exists w1, hasStagedChanges w = (Ok true, w1))
        /\ formatCommitMessage (paramsOf args) = Ok message
        /\ valid (validate message) = true
        /\ issues (validate message) = []).
Proof.
  split; [| split; [| split]].
  - intros w1 H. now rewrite handleCommit_unfold, H.
  - intros w1 message Hs Hf Hv. rewrite handleCommit_unfold, Hs, Hf.
    destruct (valid (validate message)) eqn:E; [| reflexivity].
    apply valid_iff_no_issue in E. contradiction.
  - intros w1 message commitHash w2 Hs Hf Hv Hc. eexists.
    split; [now rewrite handleCommit_unfold, Hs, Hf, Hv, Hc |].
    split; [| split].
    + apply occursIn_app_l. unfold successText.
      do 4 apply occursIn_app_r. apply occursIn_here.
    + apply occursIn_app_l. unfold successText.
      do 8 apply occursIn_app_r. exists [], []. now rewrite app_nil_r.
    + intros ws warning Hw Hin. apply occursIn_app_r. rewrite Hw.
      now apply warningsBlock_occurs.
  - intros r w' log message. rewrite handleCommit_unfold.
    destruct (hasStagedChanges w) as [[[|] | e] w1];
      try (intros [= <- <- <-] [[=] | []]).
    destruct (formatCommitMessage (paramsOf args)) as [m | e];
      try (intros [= <- <- <-] [[=] | []]).
    destruct (valid (validate m)) eqn:Hv;
      try (intros [= <- <- <-] [[=] | []]).
    apply valid_iff_no_issue in Hv as Hi.
    destruct (createCommit m w1) as [[commitHash | e] w2];
      intros [= <- <- <-] [[=] | [[= <-] | []]]; eauto 6.
Qed.

End HandleCommit.

Lemma handleCommit_order_witness :
  exists responseText,
    handleCommit asciiUpper asciiLower unit alwaysStaged
      (commitAs (lit "3f2a91c")) oauthArgs tt []
    = (Ok {| content := [ {| text := responseText |} ] |}, tt,
       [HasStagedChanges;
        CreateCommit
          (emojiOfType (lit "feat")
             ++ lit " feat(auth): add OAuth2 authentication"
             ++ [NL; NL] ++ lit "Implemented OAuth2 flow.")])
    /\ occursIn (lit "3f2a91c") responseText.
Proof.
  destruct (handleCommit_order asciiUpper asciiLower unit alwaysStaged
              (commitAs (lit "3f2a91c")) oauthArgs tt)
    as (_ & _ & H & _).
  destruct (H tt
              (emojiOfType (lit "feat")
                 ++ lit " feat(auth): add OAuth2 authentication"
                 ++ [NL; NL] ++ lit "Implemented OAuth2 flow.")
              (lit "3f2a91c") tt)
    as (responseText & Hr & Hh & _); try reflexivity.
  exists responseText. split; [exact Hr | exact Hh].
Defined.

(** ** The change classifier *)

Lemma allOf_perm (p : jsstring -> bool) (l l' : list jsstring) :
  Permutation l l' -> allOf (filter p l) l = allOf (filter p l') l'.
Proof.
  intros H. unfold allOf.
  now rewrite (filter_length_perm _ p l l' H), (Permutation_length H).
Qed.

Lemma suggestion_is_Ok type reason c :
  exists s, suggestion type reason c = Ok s.
Proof. eexists. reflexivity. Qed.

(** C8. [suggestCommitType] throws exactly when [stats.files] is empty, the
    error is then 'No staged changes found'; on every other input it returns
    a suggestion. *)
Theorem suggestCommitType_throws_iff_no_files (stats : DiffStats) :
  (suggestCommitType stats = Throw (Error MSG_NO_STAGED) <-> files stats = [])
  /\ ((exists e, suggestCommitType stats = Throw e) <-> files stats = [])
  /\ (files stats <> [] -> exists s, suggestCommitType stats = Ok s).
Proof.
  assert (Hne : files stats <> [] -> exists s, suggestCommitType stats = Ok s).
  { intros Hf. unfold suggestCommitType.
    destruct (files stats) as [| f fs] eqn:E; [congruence |].
    cbn [List.length Nat.eqb].
    repeat match goal with
           | |- context [if ?b then _ else _] => destruct b
           end; apply suggestion_is_Ok. }
  assert (He : files stats = [] ->
               suggestCommitType stats = Throw (Error MSG_NO_STAGED)).
  { intros Hf. unfold suggestCommitType. now rewrite Hf. }
  repeat split; auto.
  - intros Ht. destruct (files stats) eqn:E; [reflexivity |].
    destruct Hne as [s Hs]; congruence.
  - intros [e Ht]. destruct (files stats) eqn:E; [reflexivity |].
    destruct Hne as [s Hs]; congruence.
  - intros Hf. eexists. now apply He.
Qed.

Lemma suggestCommitType_throws_iff_no_files_witness :
  suggestCommitType noChanges = Throw (Error MSG_NO_STAGED)
  /\ exists s, suggestCommitType loginChange = Ok s.
Proof.
  split.
  - apply (proj1 (suggestCommitType_throws_iff_no_files noChanges)).
    reflexivity.
  - apply (proj2 (proj2 (suggestCommitType_throws_iff_no_files loginChange))).
    simpl. discriminate.
Defined.

(** C7. The suggestion does not depend on the order of [stats.files]: it is
    the same record (type, emoji, reason, confidence) for every permutation
    of the list. *)
Theorem suggestCommitType_permutation (a d : N) (fs fs' : list jsstring) :
  Permutation fs fs' ->
  suggestCommitType {| additions := a; deletions := d; files := fs |}
  = suggestCommitType {| additions := a; deletions := d; files := fs' |}.
Proof.
  intros H. unfold suggestCommitType. cbn [files additions deletions].
  rewrite (Permutation_length H).
  rewrite !(allOf_perm _ fs fs' H).
  rewrite (filter_length_perm _ isBuildFile fs fs' H).
  rewrite (existsb_perm _ isLockFile _ _ (filter_perm _ isBuildFile fs fs' H)).
  reflexivity.
Qed.

Lemma suggestCommitType_permutation_witness :
  suggestCommitType
    {| additions := 3; deletions := 1;
       files := [lit "go.mod"; lit "src/main.go"] |}
  = suggestCommitType
    {| additions := 3; deletions := 1;
       files := [lit "src/main.go"; lit "go.mod"] |}.
Proof.
  apply suggestCommitType_permutation. apply perm_swap.
Defined.

(** C5, as stated, fails: [requirements.txt] is a manifest name, and a
    change of that file alone is classified as documentation, because the
    documentation rule is tried first and [.txt] is a documentation
    extension. *)
Lemma manifest_rule_counterexample :
  (exists f, In f (files requirementsOnly) /\ isBuildFile f = true)
  /\ suggestCommitType requirementsOnly
     = suggestion (lit "docs") (lit "All changes are to documentation files")
         high
  /\ ~ (forall stats,
          (exists f, In f (files stats) /\ isBuildFile f = true) ->
          exists s, suggestCommitType stats = Ok s
                    /\ SuggestionResult.confidence s = high
                    /\ SuggestionResult.type s
                       = if existsb isLockFile (buildFilesOf stats)
                         then lit "deps" else lit "build").
Proof.
  assert (H1 : exists f, In f (files requirementsOnly) /\ isBuildFile f = true).
  { exists (lit "requirements.txt"). split; [now left | now vm_compute]. }
  split; [exact H1 |]. split; [now vm_compute |].
  intros H. destruct (H requirementsOnly H1) as (s & Hs & _ & Ht).
  vm_compute in Hs. injection Hs as <-. vm_compute in Ht. discriminate.
Qed.


(** ** Manifest names are neither test files nor CI files *)

Lemma Canonicalize_fixed (a c : N) :
  c < 65 \/ 90 < c -> Canonicalize a = c -> a = c.
Proof.
  unfold Canonicalize. intros Hc.
  destruct (N.leb_spec 0x61 a); destruct (N.leb_spec a 0x7A); cbn [andb];
    lia.
Qed.

Lemma steps_Str ic (s : jsstring) st st' :
  steps ic (Str s) st st' ->
  exists pre,
    rest st = pre ++ rest st'
    /\ List.length pre = List.length s
    /\ (ic = true -> canonical pre = canonical s).
Proof.
  revert st. induction s as [| c s IH]; intros st.
  - cbn. intros ->. exists []. auto.
  - destruct s as [| c' s'].
    + cbn [Str steps]. intros (a & r & Hr & Hc & ->). exists [a]. cbn [rest].
      rewrite Hr. repeat split. intros ->. cbn in Hc |- *.
      apply N.eqb_eq in Hc. now rewrite Hc.
    + change (Str (c :: c' :: s')) with (Seq (Lit c) (Str (c' :: s'))).
      cbn [steps]. intros (st1 & (a & r & Hr & Hc & ->) & H).
      apply IH in H as (pre & Hp & Hl & Heq). cbn [rest] in Hp.
      exists (a :: pre). rewrite Hr, Hp. repeat split.
      * cbn [List.length]. now rewrite Hl.
      * intros ->. cbn in Hc. apply N.eqb_eq in Hc.
        unfold canonical in *. cbn [map]. now rewrite Hc, Heq.
Qed.

Lemma steps_Alts ic (rs : list regex) st st' :
  rs <> [] -> steps ic (Alts rs) st st' ->
  exists r, In r rs /\ steps ic r st st'.
Proof.
  induction rs as [| r rs IH]; [congruence |]. intros _.
  destruct rs as [| r' rs'].
  - cbn [Alts]. intros H. exists r. split; [now left | exact H].
  - change (Alts (r :: r' :: rs')) with (Alt r (Alts (r' :: rs'))).
    cbn [steps]. intros [H | H].
    + exists r. split; [now left | exact H].
    + destruct (IH ltac:(discriminate) H) as (r0 & Hin & Hs).
      exists r0. split; [now right | exact Hs].
Qed.

Lemma isBuildFile_canonical (f : jsstring) :
  isBuildFile f = true -> In (canonical f) manifestCanonical.
Proof.
  unfold isBuildFile, matches. destruct (regexMatch f manifestRegex) as [m |] eqn:E;
    [intros _ | discriminate].
  apply execFrom_inv in E as (pre & s' & st' & -> & Hs & _).
  cbn [ignoreCase source manifestRegex Seqs steps] in Hs.
  destruct Hs as (st1 & (st2 & (Hpos & ->) & st3 & (st4 & Ha & ->) & He & _) & _).
  cbn [pos] in Hpos. destruct pre; [| discriminate]. cbn [app].
  change (Alts _) with (Alts (map Text manifestNames)) in Ha.
  apply steps_Alts in Ha as (r & Hin & Hr); [| discriminate].
  apply in_map_iff in Hin as (name & <- & Hname).
  apply steps_Str in Hr as (p & Hp & _ & Heq). cbn [rest setCap] in Hp, He.
  rewrite He, app_nil_r in Hp. subst p.
  unfold manifestCanonical. apply in_map_iff. exists name.
  split; [symmetry; now apply Heq | exact Hname].
Qed.

Lemma dots_app (a b : jsstring) : dots (a ++ b) = (dots a + dots b)%nat.
Proof. unfold dots. now rewrite filter_app, length_app. Qed.

Lemma dots_canonical (s : jsstring) : dots (canonical s) = dots s.
Proof.
  unfold dots, canonical. induction s as [| c s IH]; [reflexivity |].
  cbn [map filter].
  destruct (N.eqb_spec (ch ".") (Canonicalize c)) as [H | H];
    destruct (N.eqb_spec (ch ".") c) as [H' | H']; cbn [List.length];
    try congruence.
  - exfalso. apply H'. symmetry. apply Canonicalize_fixed; [now left | auto].
  - exfalso. apply H. now rewrite <- H'.
Qed.

Lemma in_canonical (c : N) (s : jsstring) :
  In c s -> In (Canonicalize c) (canonical s).
Proof. apply in_map. Qed.

Lemma steps_Lit_dot st st' :
  steps true (Lit (ch ".")) st st' ->
  exists r, rest st = ch "." :: r /\ rest st' = r.
Proof.
  cbn [steps]. intros (a & r & Hr & Hc & ->). cbn in Hc.
  apply N.eqb_eq in Hc. apply Canonicalize_fixed in Hc; [| now left].
  subst a. eauto.
Qed.

(** A path that the test pattern matches has two full stops at least. *)
Lemma testRegex_dots (f : jsstring) :
  matches f testRegex = true -> (2 <= dots f)%nat.
Proof.
  unfold matches. destruct (regexMatch f testRegex) as [m |] eqn:E;
    [intros _ | discriminate].
  apply execFrom_inv in E as (pre & s' & st' & -> & Hs & _).
  cbn [ignoreCase source testRegex Seqs] in Hs.
  cbn [steps] in Hs.
  destruct Hs as (st1 & (st2 & Hd1 & st3 & (st4 & Ha & ->) & st5 & Hd2 & _) & _).
  apply steps_Lit_dot in Hd1 as (r1 & Hr1 & Hr1').
  apply steps_Lit_dot in Hd2 as (r2 & Hr2 & _).
  apply steps_Alts in Ha as (r & Hin & Hr); [| discriminate].
  assert (Hp : exists p, rest st2 = p ++ rest st4).
  { destruct Hin as [<- | [<- | []]];
      apply steps_Str in Hr as (p & Hp & _); eauto. }
  destruct Hp as (p & Hp). cbn [rest setCap] in *.
  rewrite Hr2 in Hp. rewrite Hp in Hr1'. subst r1 s'.
  rewrite dots_app.
  change (dots (ch "." :: ?x)) with (S (dots x)).
  rewrite dots_app. change (dots (ch "." :: ?x)) with (S (dots x)). lia.
Qed.

Lemma startsWith_In (s n : jsstring) (c : N) :
  startsWith s n = true -> In c n -> In c s.
Proof.
  revert s. induction n as [| a n IH]; intros s H Hin; [destruct Hin |].
  destruct s as [| b s]; [discriminate |]. cbn in H.
  apply andb_prop in H as [Hb H]. apply N.eqb_eq in Hb. subst b.
  destruct Hin as [-> | Hin]; [now left | right; eauto].
Qed.

Lemma includes_In (s n : jsstring) (c : N) :
  includes s n = true -> In c n -> In c s.
Proof.
  induction s as [| b s IH]; cbn [includes]; intros H Hin.
  - rewrite orb_false_r in H. eapply startsWith_In; eauto.
  - apply orb_prop in H as [H | H]; [eapply startsWith_In; eauto |].
    right. auto.
Qed.

Lemma includes_hasChars (s n : jsstring) :
  includes s n = true -> hasChars (canonical n) (canonical s) = true.
Proof.
  intros H. unfold hasChars. apply forallb_forall. intros c Hc.
  apply in_map_iff in Hc as (c0 & <- & Hc0).
  apply existsb_exists. exists (Canonicalize c0).
  split; [| apply N.eqb_refl].
  apply in_canonical. eapply includes_In; eauto.
Qed.

Lemma manifest_not_test_not_ci (f : jsstring) :
  isBuildFile f = true -> isTestFile f = false /\ isCiFile f = false.
Proof.
  intros Hb. apply isBuildFile_canonical in Hb.
  assert (Hno : forall n,
             forallb (fun name => negb (hasChars (canonical n) name))
               manifestCanonical = true ->
             includes f n = false).
  { intros n Hall. destruct (includes f n) eqn:E; [| reflexivity].
    apply includes_hasChars in E.
    rewrite forallb_forall in Hall. specialize (Hall _ Hb).
    now rewrite E in Hall. }
  assert (Hdots : dots f = 1%nat).
  { rewrite <- dots_canonical.
    assert (Hall : forallb (fun name => Nat.eqb (dots name) 1)
                     manifestCanonical = true) by now vm_compute.
    rewrite forallb_forall in Hall. now apply Nat.eqb_eq, Hall. }
  split.
  - unfold isTestFile.
    destruct (matches f testRegex) eqn:Et;
      [apply testRegex_dots in Et; lia |].
    rewrite !Hno by now vm_compute. reflexivity.
  - unfold isCiFile. rewrite !Hno by now vm_compute.
    apply andb_false_r.
Qed.

Lemma filter_length_lt {A} (p : A -> bool) (l : list A) (x : A) :
  In x l -> p x = false -> (List.length (filter p l) < List.length l)%nat.
Proof.
  induction l as [| y l IH]; [intros [] |].
  intros [-> | Hin] Hp; cbn [filter List.length].
  - rewrite Hp. pose proof (filter_length_le p l). lia.
  - specialize (IH Hin Hp). destruct (p y); cbn [List.length]; lia.
Qed.

Lemma allOf_false (p : jsstring -> bool) (l : list jsstring) (x : jsstring) :
  In x l -> p x = false -> allOf (filter p l) l = false.
Proof.
  intros Hin Hp. unfold allOf.
  pose proof (filter_length_lt p l x Hin Hp) as Hlt.
  apply andb_false_iff. right. apply Nat.eqb_neq. lia.
Qed.

Lemma filter_nonempty {A} (p : A -> bool) (l : list A) :
  (exists x, In x l /\ p x = true) ->
  (0 <? List.length (filter p l))%nat = true.
Proof.
  intros (x & Hin & Hp).
  assert (Hf : In x (filter p l)) by (apply filter_In; auto).
  destruct (filter p l); [contradiction | reflexivity].
Qed.

(** C5, amended.  When some file carries a manifest name and the
    documentation rule does not fire (not every file is a documentation
    file), the suggestion is 'deps' with confidence high if one of the
    manifest files matches [/lock|package\.json/i], and 'build' with
    confidence high otherwise.  The rules for tests and for CI files cannot
    fire in the presence of a manifest file. *)
Theorem manifest_rule (stats : DiffStats) :
  (exists f, In f (files stats) /\ isBuildFile f = true) ->
  allDocumentation stats = false ->
  suggestCommitType stats
  = if existsb isLockFile (buildFilesOf stats)
    then suggestion (lit "deps") (lit "Changes to dependency files detected")
           high
    else suggestion (lit "build")
           (lit "Changes to build configuration detected") high.
Proof.
  intros Hm Hdoc. unfold allDocumentation in Hdoc.
  unfold suggestCommitType, buildFilesOf.
  destruct Hm as (f & Hin & Hf).
  destruct (manifest_not_test_not_ci f Hf) as [Htest Hci].
  destruct (files stats) as [| f0 fs] eqn:E; [contradiction |].
  cbn [List.length Nat.eqb].
  rewrite Hdoc.
  rewrite (allOf_false isTestFile _ f Hin Htest).
  rewrite (allOf_false isCiFile _ f Hin Hci).
  rewrite (filter_nonempty isBuildFile (f0 :: fs)) by eauto.
  reflexivity.
Qed.

Lemma manifest_rule_witness :
  suggestCommitType
    {| additions := 4; deletions := 2; files := [lit "Cargo.toml"] |}
  = suggestion (lit "build") (lit "Changes to build configuration detected")
      high
  /\ suggestCommitType
       {| additions := 4; deletions := 2; files := [lit "pom.xml"] |}
     = suggestion (lit "build")
         (lit "Changes to build configuration detected") high
  /\ suggestCommitType
       {| additions := 4; deletions := 2;
          files := [lit "yarn.lock"; lit "src/app.ts"] |}
     = suggestion (lit "deps") (lit "Changes to dependency files detected")
         high.
Proof.
  split; [| split].
  - apply (manifest_rule
             {| additions := 4; deletions := 2; files := [lit "Cargo.toml"] |}).
    + exists (lit "Cargo.toml"). split; [now left | now vm_compute].
    + now vm_compute.
  - apply (manifest_rule
             {| additions := 4; deletions := 2; files := [lit "pom.xml"] |}).
    + exists (lit "pom.xml"). split; [now left | now vm_compute].
    + now vm_compute.
  - apply (manifest_rule
             {| additions := 4; deletions := 2;
                files := [lit "yarn.lock"; lit "src/app.ts"] |}).
    + exists (lit "yarn.lock"). split; [now left | now vm_compute].
    + now vm_compute.
Defined.

(** ** The scenarios of the documentation *)

Example format_scenario :
  formatCommitMessage oauthFields
  = Ok (emojiOfType (lit "feat")
          ++ lit " feat(auth): add OAuth2 authentication"
          ++ [NL; NL] ++ lit "Implemented OAuth2 flow.").
Proof. reflexivity. Qed.

Example validate_scenario :
  validateCommitMessage asciiUpper asciiLower
    (emojiOfType (lit "feat") ++ lit " feat(auth): add OAuth2 authentication")
  = {| valid := true; issues := []; warnings := None |}.
Proof. now vm_compute. Qed.

Example validate_added_login :
  validateCommitMessage asciiUpper asciiLower
    (emojiOfType (lit "feat") ++ lit " feat: Added login.")
  = {| valid := true; issues := [];
       warnings :=
         Some [lit "Title should start with lowercase letter";
               lit "Title should not end with a period";
               lit "Use imperative mood: " ++ [QUOTE] ++ lit "added"
                 ++ [QUOTE] ++ lit " should be " ++ [QUOTE] ++ lit "add"
                 ++ [QUOTE]] |}.
Proof. now vm_compute. Qed.

Example validate_wrong_emoji :
  issues (validateCommitMessage asciiUpper asciiLower
            (emojiOfType (lit "fix") ++ lit " feat: add login"))
  = [lit "Emoji " ++ emojiOfType (lit "fix") ++ lit " doesn't match type feat"
       ++ lit ". Expected " ++ emojiOfType (lit "feat")].
Proof. now vm_compute. Qed.

Example classify_scenario :
  suggestCommitType loginChange
  = suggestion (lit "feat")
      (lit "Significant additions (245 lines added vs 12 deleted) suggest new feature")
      medium.
Proof. now vm_compute. Qed.

Example wrap_scenario :
  wrapText (lit "aaa bb cccccccc d e") 5
  = lit "aaa" ++ [NL] ++ lit "bb" ++ [NL] ++ lit "cccccccc" ++ [NL]
      ++ lit "d e".
Proof. now vm_compute. Qed.

(* ===================================================================== *)
(** * Further properties of the code *)
(* ===================================================================== *)

(** ** More on the matcher *)

(** A match consumes a prefix of the text and advances the index by its
    length. *)
Lemma steps_suffix ic r :
  forall st st',
    steps ic r st st' ->
    exists pre, rest st = pre ++ rest st'
                /\ pos st' = (pos st + List.length pre)%nat.
Proof.
  induction r as [| c | p | r1 IH1 r2 IH2 | r1 IH1 r2 IH2 | r1 IH1 | p
                  | i r1 IH1 | |]; intros st st'; cbn [steps].
  - intros ->. exists []. cbn. auto.
  - intros (a & s' & Hr & _ & ->). exists [a]. cbn. rewrite Hr.
    split; [reflexivity | lia].
  - intros (a & s' & Hr & _ & ->). exists [a]. cbn. rewrite Hr.
    split; [reflexivity | lia].
  - intros (st1 & H1 & H2). apply IH1 in H1 as (p1 & Hp1 & Hn1).
    apply IH2 in H2 as (p2 & Hp2 & Hn2). exists (p1 ++ p2).
    rewrite Hp1, Hp2, Hn2, Hn1, length_app, <- app_assoc.
    split; [reflexivity | lia].
  - intros [H | H]; auto.
  - intros [H | ->]; [auto |]. exists []. cbn. auto.
  - intros (n & Hn & ->). exists (firstn n (rest st)). cbn [rest pos].
    rewrite firstn_skipn. split; [reflexivity |].
    rewrite length_firstn.
    pose proof (takeWhile_length_le p (rest st)). lia.
  - intros (st1 & H1 & ->). apply IH1 in H1 as (p1 & Hp1 & Hn1).
    exists p1. cbn [setCap rest pos]. auto.
  - intros [_ ->]. exists []. cbn. auto.
  - intros [_ ->]. exists []. cbn. auto.
Qed.

Lemma forallb_firstn {A} (p : A -> bool) n (l : list A) :
  forallb p l = true -> forallb p (firstn n l) = true.
Proof.
  revert l. induction n as [| n IH]; intros [| x l]; cbn; auto.
  intros H. apply andb_prop in H as [Hx H]. now rewrite Hx, IH.
Qed.

Lemma steps_Plus_run ic p st st' :
  steps ic (Plus p) st st' ->
  exists run r',
    rest st = run ++ r' /\ run <> [] /\ forallb p run = true
    /\ st' = MState (pos st + List.length run) r' (caps st).
Proof.
  cbn [steps]. intros (n & Hn & ->).
  exists (firstn n (rest st)), (skipn n (rest st)).
  rewrite firstn_skipn.
  pose proof (takeWhile_length_le p (rest st)) as Hle.
  split; [reflexivity |]. split; [apply firstn_nonempty; lia |]. split.
  - rewrite <- (takeWhile_dropWhile p (rest st)).
    rewrite firstn_app.
    replace (n - List.length (takeWhile p (rest st)))%nat with 0%nat by lia.
    cbn [firstn]. rewrite app_nil_r. apply forallb_firstn, takeWhile_all.
  - rewrite length_firstn. f_equal. lia.
Qed.

Lemma steps_Lit_exact c st st' :
  steps false (Lit c) st st' ->
  exists r', rest st = c :: r' /\ st' = MState (S (pos st)) r' (caps st).
Proof.
  cbn [steps]. intros (a & r' & Hr & Hc & ->). cbn in Hc.
  apply N.eqb_eq in Hc. subst a. eauto.
Qed.

Lemma firstn_prefix {A} (pre r : list A) (i j : nat) :
  j = (i + List.length pre)%nat -> firstn (j - i) (pre ++ r) = pre.
Proof.
  intros ->. replace (i + List.length pre - i)%nat with (List.length pre)
    by lia.
  apply firstn_app_exact.
Qed.

(** ** What a match of the header pattern is *)

Lemma steps_scopeGroup st st' :
  steps false (Opt scopeGroup) st st' ->
  st' = st
  \/ exists x r',
       rest st = (lit "(" ++ x ++ lit ")") ++ r' /\ x <> []
       /\ forallb notCloseParen x = true
       /\ st' = MState (pos st + List.length (lit "(" ++ x ++ lit ")")) r'
                  ((2%nat, lit "(" ++ x ++ lit ")") :: caps st).
Proof.
  intros [H | ->]; [right | now left].
  destruct H as (st1 & (st2 & Hopen & st3 & Hrun & Hclose) & ->).
  apply steps_Lit_exact in Hopen as (r1 & Hr1 & ->).
  apply steps_Plus_run in Hrun as (x & r2 & Hr2 & Hx & Hnc & ->).
  apply steps_Lit_exact in Hclose as (r3 & Hr3 & ->).
  cbn [pos rest caps setCap] in *. subst r1 r2.
  exists x, r3. split; [| split; [exact Hx | split; [exact Hnc |]]].
  - rewrite Hr1. cbn. now rewrite <- app_assoc.
  - assert (Hl : List.length (lit "(" ++ x ++ lit ")")
                 = S (S (List.length x))).
    { cbn. rewrite length_app. cbn. lia. }
    rewrite Hl, Hr1.
    replace (ch "(" :: x ++ ch ")" :: r3)
      with ((lit "(" ++ x ++ lit ")") ++ r3)
      by (cbn; now rewrite <- app_assoc).
    rewrite firstn_prefix by (rewrite Hl; lia).
    unfold setCap. cbn [pos rest caps]. f_equal. lia.
Qed.

Lemma steps_bangGroup st st' :
  steps false (Opt bangGroup) st st' ->
  st' = st
  \/ exists r', rest st = lit "!" ++ r'
                /\ st' = MState (S (pos st)) r'
                           ((3%nat, lit "!") :: caps st).
Proof.
  intros [H | ->]; [right | now left].
  destruct H as (st1 & Hb & ->).
  apply steps_Lit_exact in Hb as (r1 & Hr1 & ->).
  cbn [pos rest caps setCap]. exists r1. split; [exact Hr1 |].
  rewrite Hr1. f_equal. f_equal. f_equal.
  replace (S (pos st) - pos st)%nat with 1%nat by lia. reflexivity.
Qed.

Lemma steps_titleTail st st' :
  steps false titleTail st st' ->
  exists ws title,
    rest st = lit ":" ++ ws ++ title
    /\ ws <> [] /\ forallb isWhiteSpace ws = true
    /\ title <> [] /\ forallb dot title = true
    /\ caps st' = (4%nat, title) :: caps st.
Proof.
  intros (st1 & Hc & st2 & Hws & st3 & (st4 & Ht & ->) & Hend & ->).
  apply steps_Lit_exact in Hc as (r1 & Hr1 & ->).
  apply steps_Plus_run in Hws as (ws & r2 & Hr2 & Hws & Hall & ->).
  apply steps_Plus_run in Ht as (title & r3 & Hr3 & Ht & Hdot & ->).
  cbn [pos rest caps setCap] in *. subst r3 r1 r2.
  rewrite app_nil_r in *.
  exists ws, title. repeat (split; [assumption |]).
  do 2 f_equal.
  replace (S (pos st) + List.length ws + List.length title - (S (pos st) + List.length ws))%nat with (List.length title) by lia.
  apply firstn_all.
Qed.

Lemma typeRegex_shape (s : jsstring) (m : MatchResult) :
  regexMatch s typeRegex = Some m ->
  exists ty scopePart bang ws title,
    s = ty ++ scopePart ++ bang ++ lit ":" ++ ws ++ title
    /\ ty <> [] /\ forallb lowerLetter ty = true
    /\ capture 1 m = Some ty
    /\ ((scopePart = [] /\ capture 2 m = None)
        \/ (exists x, scopePart = lit "(" ++ x ++ lit ")" /\ x <> []
                      /\ forallb notCloseParen x = true
                      /\ capture 2 m = Some scopePart))
    /\ ((bang = [] /\ capture 3 m = None)
        \/ (bang = lit "!" /\ capture 3 m = Some (lit "!")))
    /\ ws <> [] /\ forallb isWhiteSpace ws = true
    /\ title <> [] /\ forallb dot title = true
    /\ capture 4 m = Some title.
Proof.
  intros H. apply execFrom_inv in H as (pre & s' & st' & -> & Hs & ->).
  assert (Hs' : exists st1,
             (pos (MState (0 + List.length pre) s' []) = 0%nat)
             /\ (exists sta stb stc,
                   steps false (Plus lowerLetter)
                     (MState (0 + List.length pre) s' []) sta
                   /\ steps false (Opt scopeGroup)
                        (setCap 1 (firstn (pos sta - (0 + List.length pre)) s')
                           sta) stb
                   /\ steps false (Opt bangGroup) stb stc
                   /\ steps false titleTail stc st1)
             /\ st' = setCap 0 (firstn (pos st1 - (0 + List.length pre)) s')
                        st1).
  { destruct Hs as (st1 & (st2 & (Hpos & ->) & st3 & (st4 & Hty & ->) & st5
                           & Hscope & st6 & Hbang & Htail) & ->).
    exists st1. split; [exact Hpos |]. split; [| reflexivity].
    exists st4, st5, st6. auto. }
  clear Hs. destruct Hs' as (st1 & Hpos & (sta & stb & stc & Hty & Hscope
                                          & Hbang & Htail) & ->).
  cbn [pos] in Hpos. destruct pre; [| discriminate].
  cbn [app Nat.add List.length] in *.
  apply steps_Plus_run in Hty as (ty & r1 & Hr1 & Hty & Hlow & ->).
  cbn [pos rest caps setCap Nat.add] in *. subst s'.
  rewrite Nat.sub_0_r, firstn_app_exact in Hscope.
  apply steps_titleTail in Htail as (ws & title & Hr & Hws & Hall & Ht & Hdot
                                     & Hcaps).
  unfold capture. cbn [groups setCap caps]. rewrite Hcaps.
  cbn [lookupCap Nat.eqb].
  apply steps_scopeGroup in Hscope as [-> | (x & r2 & Hr2 & Hx & Hnc & ->)];
    apply steps_bangGroup in Hbang as [-> | (r3 & Hr3 & ->)];
    cbn [pos rest caps setCap] in *.
  - exists ty, [], [], ws, title. cbn [app lookupCap Nat.eqb].
    rewrite Hr. repeat split; auto.
  - exists ty, [], (lit "!"), ws, title. cbn [lookupCap Nat.eqb].
    rewrite Hr3, Hr. cbn [app]. repeat split; auto.
  - exists ty, (lit "(" ++ x ++ lit ")"), [], ws, title.
    cbn [lookupCap Nat.eqb]. rewrite Hr2, Hr. cbn [app].
    repeat split; auto. right. exists x. auto.
  - exists ty, (lit "(" ++ x ++ lit ")"), (lit "!"), ws, title.
    cbn [lookupCap Nat.eqb]. rewrite Hr2, Hr3, Hr.
    repeat split; auto. right. exists x. auto.
Qed.

(** ** Messages with a well-formed first line *)

Lemma headerOK_parts (e : jsstring) (f : CommitParams.t) :
  headerOK e f = true ->
  e <> [] /\ forallb notWhiteSpace e = true
  /\ CommitParams.type f <> []
  /\ forallb lowerLetter (CommitParams.type f) = true
  /\ (forall sc, CommitParams.scope f = Some sc ->
                 forallb notCloseParen sc = true
                 /\ forallb notNewline sc = true)
  /\ CommitParams.title f <> []
  /\ forallb dot (CommitParams.title f) = true.
Proof.
  unfold headerOK, tokenOK, wordOK, scopeOK, titleOK.
  rewrite !andb_true_iff.
  intros [[[[He Hw] [Hty Hl]] Hs] [Ht Hd]].
  split; [now apply truthy_true |]. split; [exact Hw |].
  split; [now apply truthy_true |]. split; [exact Hl |].
  split; [| split; [now apply truthy_true | exact Hd]].
  intros sc Hsc. rewrite Hsc in Hs. now apply andb_true_iff in Hs.
Qed.

Lemma headerOK_no_newline (e : jsstring) (f : CommitParams.t) :
  headerOK e f = true -> ~ In NL (headerLine e f).
Proof.
  intros Hf.
  destruct (headerOK_parts e f Hf) as (He & Hw & Hty & Hl & Hs & Ht & Hd).
  rewrite headerLine_parts. intros Hin.
  repeat (apply in_app_or in Hin as [Hin | Hin]).
  - revert Hin. now apply (not_in_forallb notWhiteSpace).
  - cbn in Hin. intuition discriminate.
  - revert Hin. now apply (not_in_forallb lowerLetter).
  - revert Hin. apply scopeStrOf_no_newline. intros sc Hsc.
    now apply Hs.
  - destruct (CommitParams.breaking f); cbn in Hin; intuition discriminate.
  - cbn in Hin. intuition discriminate.
  - revert Hin. now apply (not_in_forallb dot).
Qed.

(** How the two patterns read a message whose first line is well formed,
    whatever follows that line. *)
Lemma header_read (e : jsstring) (f : CommitParams.t) (tail : jsstring) :
  headerOK e f = true ->
  tail = [] \/ (exists r, tail = NL :: r) ->
  firstLineOf (headerLine e f ++ tail) = headerLine e f
  /\ regexMatch (headerLine e f) emojiRegex
     = Some {| index := 0; lastIndex := List.length e + 1;
               groups := [(0%nat, e ++ lit " "); (1%nat, e)] |}
  /\ substring (headerLine e f) (List.length e + 1) = headerRest f
  /\ exists t',
       t' <> []
       /\ (startsWithWhiteSpace (CommitParams.title f) = false ->
           t' = CommitParams.title f)
       /\ regexMatch (headerRest f) typeRegex
          = Some {| index := 0; lastIndex := List.length (headerRest f);
                    groups :=
                      headerGroups (CommitParams.type f)
                        (CommitParams.scope f) (CommitParams.breaking f) t'
                        (headerRest f) |}.
Proof.
  intros Hf Htail.
  destruct (headerOK_parts e f Hf) as (He & Hw & Hty & Hl & Hs & Ht & Hd).
  split; [| split; [| split]].
  - apply firstLineOf_header; [now apply headerOK_no_newline | exact Htail].
  - rewrite headerLine_parts. now apply emojiRegex_header.
  - rewrite headerLine_parts. unfold substring, headerRest.
    rewrite Nat.add_comm, <- skipn_skipn, skipn_app_exact. reflexivity.
  - destruct (typeRegex_header (CommitParams.type f) (CommitParams.scope f)
                (CommitParams.breaking f) (CommitParams.title f)
                Hty Hl (fun sc H => proj1 (Hs sc H)) Ht Hd)
      as (t' & Hne & Hsame & Hm).
    exists t'. split; [exact Hne |]. split; [| exact Hm].
    intros Hstart. apply Hsame.
    destruct (CommitParams.title f); [exact I | exact Hstart].
Qed.

Section Header.

Variables toUpperCase toLowerCase : jsstring -> jsstring.

Local Abbreviation validate := (validateCommitMessage toUpperCase toLowerCase).

Lemma validate_header (e : jsstring) (f : CommitParams.t) (tail : jsstring) :
  headerOK e f = true ->
  tail = [] \/ (exists r, tail = NL :: r) ->
  exists w,
    validate (headerLine e f ++ tail)
    = {| valid :=
           Nat.eqb (List.length (typeIssues e (CommitParams.type f))) 0;
         issues := typeIssues e (CommitParams.type f);
         warnings := w |}.
Proof.
  intros Hf Htail.
  destruct (header_read e f tail Hf Htail)
    as (Hline & Hem & Hsub & t' & Ht' & _ & Htm).
  unfold validateCommitMessage. cbv zeta.
  change (nth 0 (split NL ?m) []) with (firstLineOf m).
  rewrite token_not_blank.
  2:{ rewrite Hline. rewrite emojiRegex_match in Hem. cbv zeta in Hem.
      intros H. rewrite H in Hem. discriminate. }
  rewrite Hline, Hem. unfold capture at 1. cbn [groups lookupCap Nat.eqb str].
  rewrite Hsub, Htm. unfold capture. cbn [groups].
  destruct (headerGroups_lookup (CommitParams.type f) (CommitParams.scope f)
              (CommitParams.breaking f) t' (headerRest f))
    as (H1 & _ & _ & H4).
  rewrite H1, H4. cbn [str lookupCap Nat.eqb].
  rewrite (len_nonzero _ Ht'). rewrite !app_nil_r.
  unfold typeIssues.
  destruct (getProperty (CommitParams.type f)) as [info | |];
    cbn [emojiOf render];
    [destruct (streq e (CommitTypeInfo.emoji info)) | |];
    cbn [negb]; eexists; reflexivity.
Qed.

(** X1.  On a message whose first line is [<token> <word>[(<scope>)][!]: <title>],
    the verdict of [validateCommitMessage] depends on the token and the
    word alone: the message is valid when the word is a key of the table
    whose emoji is the token; another emoji, a word that the table object
    only inherits, and an unknown word each give one issue. *)
Theorem validate_header_issues (e : jsstring) (f : CommitParams.t)
    (tail : jsstring) :
  headerOK e f = true ->
  tail = [] \/ (exists r, tail = NL :: r) ->
  let v := validate (headerLine e f ++ tail) in
  let ty := CommitParams.type f in
  match getProperty ty with
  | Own info =>
      if streq e (CommitTypeInfo.emoji info)
      then valid v = true /\ issues v = []
      else valid v = false
           /\ issues v = [lit "Emoji " ++ e ++ lit " doesn't match type "
                            ++ ty ++ lit ". Expected "
                            ++ CommitTypeInfo.emoji info]
  | Inherited =>
      valid v = false
      /\ issues v = [lit "Emoji " ++ e ++ lit " doesn't match type " ++ ty
                       ++ lit ". Expected undefined"]
  | Undefined =>
      valid v = false /\ issues v = [lit "Invalid commit type: " ++ ty]
  end.
Proof.
  intros Hf Htail v ty.
  destruct (validate_header e f tail Hf Htail) as [w Hv].
  subst v. rewrite Hv. cbn [valid issues]. fold ty.
  unfold typeIssues.
  destruct (getProperty ty) as [info | |]; cbn [emojiOf];
    try (split; reflexivity).
  destruct (streq e (CommitTypeInfo.emoji info)); split; reflexivity.
Qed.

End Header.

Lemma validate_header_issues_witness :
  valid (validateCommitMessage asciiUpper asciiLower (lit "x wip: try things"))
  = false
  /\ issues (validateCommitMessage asciiUpper asciiLower
               (lit "x wip: try things"))
     = [lit "Invalid commit type: wip"].
Proof.
  exact (validate_header_issues asciiUpper asciiLower (lit "x")
           unknownTypeFields [] eq_refl (or_introl eq_refl)).
Defined.

Lemma parse_header_with (e : jsstring) (f : CommitParams.t)
    (tail : jsstring) :
  headerOK e f = true ->
  presentOrAbsent (CommitParams.scope f) = true ->
  startsWithWhiteSpace (CommitParams.title f) = false ->
  tail = [] \/ (exists r, tail = NL :: r) ->
  parseCommitMessage (headerLine e f ++ tail)
  = Some (withDescription f
            (let lines := split NL (headerLine e f ++ tail) in
             if (2 <? List.length lines)%nat
             then Some (trim (join [NL] (skipn 2 lines)))
             else None)).
Proof.
  intros Hf Hscope Htitle Htail.
  destruct (header_read e f tail Hf Htail)
    as (Hline & Hem & Hsub & t' & _ & Hsame & Htm).
  rewrite (Hsame Htitle) in Htm. clear Hsame t'.
  unfold parseCommitMessage. cbv zeta.
  change (nth 0 (split NL ?m) []) with (firstLineOf m).
  rewrite Hline, Hem. unfold capture at 1.
  cbn [groups lookupCap Nat.eqb str].
  rewrite length_app. change (List.length (lit " ")) with 1%nat.
  rewrite Hsub, Htm. unfold capture. cbn [groups].
  destruct (headerGroups_lookup (CommitParams.type f) (CommitParams.scope f)
              (CommitParams.breaking f) (CommitParams.title f)
              (headerRest f))
    as (H1 & H2 & H3 & H4).
  rewrite H1, H2, H3, H4. cbn [str].
  rewrite (parsed_scope _ Hscope).
  unfold withDescription. do 2 f_equal.
  now destruct (CommitParams.breaking f).
Qed.

(** X2.  [parseCommitMessage] reads every message whose first line is
    [<token> <word>[(<scope>)][!]: <title>], whether or not the word is a
    commit type and the token its emoji.  It returns the word, the scope,
    the title and the marker; the second line is dropped even when it is
    not blank, and the description is the trimmed text from the third line
    on, absent when the message has at most two lines. *)
Theorem parse_header (e : jsstring) (f : CommitParams.t)
    (second body : jsstring) :
  headerOK e f = true ->
  presentOrAbsent (CommitParams.scope f) = true ->
  startsWithWhiteSpace (CommitParams.title f) = false ->
  ~ In NL second ->
  parseCommitMessage (headerLine e f) = Some (withDescription f None)
  /\ parseCommitMessage (headerLine e f ++ NL :: second)
     = Some (withDescription f None)
  /\ parseCommitMessage (headerLine e f ++ NL :: second ++ NL :: body)
     = Some (withDescription f (Some (trim body))).
Proof.
  intros Hf Hscope Htitle Hsecond.
  pose proof (headerOK_no_newline e f Hf) as Hh.
  split; [| split].
  - rewrite <- (app_nil_r (headerLine e f)) at 1.
    rewrite parse_header_with by auto.
    rewrite app_nil_r, split_no_sep by exact Hh. reflexivity.
  - rewrite parse_header_with by eauto.
    rewrite split_app_sep by exact Hh.
    rewrite split_no_sep by exact Hsecond. reflexivity.
  - rewrite parse_header_with by eauto.
    rewrite split_app_sep by exact Hh.
    rewrite split_app_sep by exact Hsecond.
    pose proof (split_not_nil NL body) as Hn.
    destruct (split NL body) as [| l ls] eqn:E; [contradiction |].
    cbv zeta. cbn [List.length Nat.ltb Nat.leb skipn].
    now rewrite <- E, join_split.
Qed.

Lemma parse_header_witness :
  parseCommitMessage (lit "x wip: try things")
  = Some (withDescription unknownTypeFields None)
  /\ parseCommitMessage (lit "x wip: try things" ++ NL :: lit "second")
     = Some (withDescription unknownTypeFields None)
  /\ parseCommitMessage
       (lit "x wip: try things" ++ NL :: lit "second" ++ NL :: lit " body ")
     = Some (withDescription unknownTypeFields (Some (lit "body"))).
Proof.
  apply (parse_header (lit "x") unknownTypeFields (lit "second")
           (lit " body ")); try reflexivity.
  vm_compute. intuition discriminate.
Defined.

(** ** What [parseCommitMessage] returns *)

Lemma dropWhile_stops p (s : jsstring) : stops p (dropWhile p s).
Proof.
  destruct (dropWhile p s) as [| c s'] eqn:E; [exact I |].
  exact (dropWhile_head p s c s' E).
Qed.

Lemma dropWhile_snoc p (l : jsstring) (c : N) :
  p c = false -> dropWhile p (l ++ [c]) = dropWhile p l ++ [c].
Proof.
  intros Hc. induction l as [| a l IH]; cbn [app dropWhile].
  - now rewrite Hc.
  - destruct (p a); [exact IH | reflexivity].
Qed.

Lemma trim_trimmed (s : jsstring) : trimmed (trim s).
Proof.
  unfold trimmed, trim. rewrite rev_involutive.
  split; [| apply dropWhile_stops].
  pose proof (dropWhile_stops isWhiteSpace s) as Hd.
  destruct (dropWhile isWhiteSpace s) as [| c d]; [exact I |].
  cbn [stops] in Hd. cbn [rev].
  rewrite dropWhile_snoc by exact Hd. rewrite rev_app_distr. exact Hd.
Qed.

Lemma parse_inv (message : jsstring) (f : CommitParams.t) :
  parseCommitMessage message = Some f ->
  exists em tm,
    regexMatch (firstLineOf message) emojiRegex = Some em
    /\ regexMatch
         (substring (firstLineOf message)
            (List.length (str (capture 0 em)))) typeRegex = Some tm
    /\ CommitParams.type f = str (capture 1 tm)
    /\ CommitParams.scope f
       = match capture 2 tm with
         | Some s => if truthy s then Some (slice_1_m1 s) else None
         | None => None
         end
    /\ CommitParams.title f = str (capture 4 tm)
    /\ CommitParams.breaking f
       = match capture 3 tm with
         | Some b => streq b (lit "!")
         | None => false
         end
    /\ CommitParams.description f
       = if (2 <? List.length (split NL message))%nat
         then Some (trim (join [NL] (skipn 2 (split NL message))))
         else None.
Proof.
  unfold parseCommitMessage. cbv zeta.
  change (nth 0 (split NL message) []) with (firstLineOf message).
  destruct (regexMatch (firstLineOf message) emojiRegex) as [em |];
    [| discriminate].
  destruct (regexMatch _ typeRegex) as [tm |] eqn:Etm; [| discriminate].
  intros [= <-]. exists em, tm. cbn. auto 10.
Qed.

(** The parts of the first line that [parseCommitMessage] read. *)
Lemma parse_shape (message : jsstring) (f : CommitParams.t) :
  parseCommitMessage message = Some f ->
  exists e w ws,
    firstLineOf message
    = e ++ w ++ CommitParams.type f ++ scopeStrOf (CommitParams.scope f)
        ++ bangOf (CommitParams.breaking f) ++ lit ":" ++ ws
        ++ CommitParams.title f
    /\ e = takeWhile notWhiteSpace (firstLineOf message)
    /\ e <> [] /\ w <> [] /\ forallb isWhiteSpace w = true
    /\ wordOK (CommitParams.type f) = true
    /\ (forall sc, CommitParams.scope f = Some sc ->
                   sc <> [] /\ forallb notCloseParen sc = true)
    /\ ws <> [] /\ forallb isWhiteSpace ws = true
    /\ titleOK (CommitParams.title f) = true.
Proof.
  intros H.
  destruct (parse_inv message f H)
    as (em & tm & Hem & Htm & Hty & Hsc & Hti & Hbr & _).
  destruct (emojiRegex_some _ _ Hem) as (He & Hw & _ & H0).
  cbv zeta in He, Hw, H0.
  set (line := firstLineOf message) in *.
  set (e := takeWhile notWhiteSpace line) in *.
  set (w := takeWhile isWhiteSpace (dropWhile notWhiteSpace line)) in *.
  rewrite H0 in Htm. cbn [str] in Htm.
  assert (Hline : line = (e ++ w)
                           ++ dropWhile isWhiteSpace
                                (dropWhile notWhiteSpace line)).
  { rewrite <- app_assoc. unfold w. rewrite takeWhile_dropWhile.
    unfold e. now rewrite takeWhile_dropWhile. }
  assert (Hrest : substring line (List.length (e ++ w))
                  = dropWhile isWhiteSpace (dropWhile notWhiteSpace line)).
  { unfold substring. rewrite Hline at 1. apply skipn_app_exact. }
  rewrite Hrest in Htm.
  destruct (typeRegex_shape _ _ Htm)
    as (ty & scopePart & bang & ws & title & Hs & Hty1 & Hlow & H1 & H2 & H3
        & Hws & Hall & Ht & Hdot & H4).
  rewrite H1 in Hty. rewrite H4 in Hti. cbn [str] in Hty, Hti.
  exists e, w, ws.
  assert (Hscope : scopeStrOf (CommitParams.scope f) = scopePart
                   /\ forall sc, CommitParams.scope f = Some sc ->
                                 sc <> [] /\ forallb notCloseParen sc = true).
  { destruct H2 as [[-> H2] | (x & -> & Hx & Hnc & H2)];
      rewrite H2 in Hsc.
    - rewrite Hsc. split; [reflexivity | discriminate].
    - change (truthy (lit "(" ++ x ++ lit ")")) with true in Hsc.
      cbv iota in Hsc. rewrite slice_paren in Hsc. rewrite Hsc.
      cbn [scopeStrOf]. apply truthy_true in Hx as Hx'. rewrite Hx'.
      split; [reflexivity |]. intros sc [= <-]. now split. }
  assert (Hbang : bangOf (CommitParams.breaking f) = bang).
  { destruct H3 as [[-> H3] | [-> H3]]; rewrite H3 in Hbr; rewrite Hbr;
      reflexivity. }
  destruct Hscope as [Hscope Hsc'].
  rewrite Hty, Hti, Hscope, Hbang.
  split; [| split; [reflexivity |]].
  { rewrite Hline at 1. rewrite <- app_assoc. now rewrite Hs. }
  split; [exact He |]. split; [exact Hw |].
  split; [apply takeWhile_all |].
  split.
  { unfold wordOK. apply truthy_true in Hty1. now rewrite Hty1, Hlow. }
  split; [exact Hsc' |]. split; [exact Hws |]. split; [exact Hall |].
  unfold titleOK. apply truthy_true in Ht. now rewrite Ht, Hdot.
Qed.

(** X3.  Whatever the message, the fields that [parseCommitMessage] returns
    satisfy: the type is a non-empty run of lower-case letters, the title
    is not empty and has no line terminator, a scope is not empty and has
    no closing parenthesis, a description neither starts nor ends with
    whitespace, and there is a description exactly when the message has
    more than two lines. *)
Theorem parseCommitMessage_fields (message : jsstring) (f : CommitParams.t) :
  parseCommitMessage message = Some f ->
  wordOK (CommitParams.type f) = true
  /\ titleOK (CommitParams.title f) = true
  /\ (forall sc, CommitParams.scope f = Some sc ->
                 sc <> [] /\ forallb notCloseParen sc = true)
  /\ (forall d, CommitParams.description f = Some d -> trimmed d)
  /\ (CommitParams.description f = None
      <-> (List.length (split NL message) <= 2)%nat).
Proof.
  intros H.
  destruct (parse_shape message f H)
    as (e & w & ws & _ & _ & _ & _ & _ & Hty & Hsc & _ & _ & Hti).
  destruct (parse_inv message f H) as (_ & _ & _ & _ & _ & _ & _ & _ & Hd).
  split; [exact Hty |]. split; [exact Hti |]. split; [exact Hsc |].
  rewrite Hd.
  destruct (2 <? List.length (split NL message))%nat eqn:E.
  - apply Nat.ltb_lt in E. split.
    + intros d [= <-]. apply trim_trimmed.
    + split; [discriminate | lia].
  - apply Nat.ltb_ge in E. split; [discriminate |]. split; auto.
Qed.

Lemma parseCommitMessage_fields_witness :
  parseCommitMessage draftMessage = Some draftFields
  /\ wordOK (CommitParams.type draftFields) = true
  /\ titleOK (CommitParams.title draftFields) = true
  /\ (forall sc, CommitParams.scope draftFields = Some sc ->
                 sc <> [] /\ forallb notCloseParen sc = true)
  /\ (forall d, CommitParams.description draftFields = Some d -> trimmed d).
Proof.
  assert (E : parseCommitMessage draftMessage = Some draftFields)
    by (vm_compute; reflexivity).
  split; [exact E |].
  destruct (parseCommitMessage_fields _ _ E) as (H1 & H2 & H3 & H4 & _).
  auto.
Defined.

(** ** Valid messages *)

Lemma getProperty_Own (type : jsstring) (info : CommitTypeInfo.t) :
  getProperty type = Own info -> assoc type COMMIT_TYPES = Some info.
Proof.
  unfold getProperty. destruct (assoc type COMMIT_TYPES) as [i |].
  - now intros [= ->].
  - destruct (existsb _ _); discriminate.
Qed.

Lemma assoc_In {A} (k : jsstring) (l : list (jsstring * A)) (v : A) :
  assoc k l = Some v -> In (k, v) l.
Proof.
  induction l as [| [k' v'] l IH]; cbn [assoc]; [discriminate |].
  destruct (streq k k') eqn:E.
  - apply streq_true in E. intros [= ->]. subst. now left.
  - intros H. right. now apply IH.
Qed.

(** No two types of the table have the same emoji. *)
Lemma emoji_injective (t1 t2 : jsstring) (i1 i2 : CommitTypeInfo.t) :
  assoc t1 COMMIT_TYPES = Some i1 ->
  assoc t2 COMMIT_TYPES = Some i2 ->
  CommitTypeInfo.emoji i1 = CommitTypeInfo.emoji i2 ->
  t1 = t2.
Proof.
  intros H1 H2 He.
  assert (Hall :
            forallb
              (fun p =>
                 forallb
                   (fun q =>
                      implb (streq (CommitTypeInfo.emoji (snd p))
                               (CommitTypeInfo.emoji (snd q)))
                        (streq (fst p) (fst q)))
                   COMMIT_TYPES)
              COMMIT_TYPES = true) by (vm_compute; reflexivity).
  apply assoc_In in H1, H2.
  pose proof (forallb_In _ _ _ Hall H1) as Hq. cbv beta in Hq.
  pose proof (forallb_In _ _ _ Hq H2) as Hpq. cbn [fst snd] in Hpq.
  apply streq_true in He. rewrite He in Hpq. cbn [implb] in Hpq.
  now apply streq_true.
Qed.

Section Valid.

Variables toUpperCase toLowerCase : jsstring -> jsstring.

Local Abbreviation validate := (validateCommitMessage toUpperCase toLowerCase).

Lemma validate_valid_inv (message : jsstring) :
  valid (validate message) = true ->
  exists em tm info,
    regexMatch (firstLineOf message) emojiRegex = Some em
    /\ regexMatch
         (substring (firstLineOf message)
            (List.length (str (capture 1 em)) + 1)) typeRegex = Some tm
    /\ assoc (str (capture 1 tm)) COMMIT_TYPES = Some info
    /\ str (capture 1 em) = CommitTypeInfo.emoji info.
Proof.
  unfold validateCommitMessage. cbv zeta.
  change (nth 0 (split NL message) []) with (firstLineOf message).
  destruct (negb (truthy message) || (len (trim message) =? 0));
    [discriminate |].
  destruct (regexMatch (firstLineOf message) emojiRegex) as [em |];
    [| discriminate].
  destruct (regexMatch _ typeRegex) as [tm |] eqn:Etm; [| discriminate].
  cbn [valid]. intros Hv.
  destruct (getProperty (str (capture 1 tm))) as [info | |] eqn:Ep;
    cbn [emojiOf app List.length Nat.eqb] in Hv; try discriminate.
  destruct (streq (str (capture 1 em)) (CommitTypeInfo.emoji info)) eqn:Es;
    cbn [negb app List.length Nat.eqb] in Hv; [| discriminate].
  exists em, tm, info. split; [reflexivity |]. split; [exact Etm |].
  split; [now apply getProperty_Own | now apply streq_true].
Qed.

(** A valid message is read by [parseCommitMessage]; the type read is a
    key of the table, whose emoji is the first token of the message, and
    one whitespace character follows the token. *)
Lemma valid_parse (message : jsstring) :
  valid (validate message) = true ->
  exists f info,
    parseCommitMessage message = Some f
    /\ assoc (CommitParams.type f) COMMIT_TYPES = Some info
    /\ takeWhile notWhiteSpace (firstLineOf message)
       = CommitTypeInfo.emoji info
    /\ List.length
         (takeWhile isWhiteSpace
            (dropWhile notWhiteSpace (firstLineOf message))) = 1%nat.
Proof.
  intros Hv.
  destruct (validate_valid_inv message Hv)
    as (em & tm & info & Hem & Htm & Hinfo & Hemoji).
  destruct (emojiRegex_some _ _ Hem) as (He & Hw & H1 & H0).
  cbv zeta in He, Hw, H1, H0.
  set (line := firstLineOf message) in *.
  set (e := takeWhile notWhiteSpace line) in *.
  set (w := takeWhile isWhiteSpace (dropWhile notWhiteSpace line)) in *.
  rewrite H1 in Htm, Hemoji. cbn [str] in Htm, Hemoji.
  destruct (typeRegex_inv _ _ Htm) as ((c0 & s' & Hs & Hc0) & _ & _).
  assert (Hone : List.length w = 1%nat).
  { apply (header_after_one_space line c0 s'); auto.
    now apply lowerLetter_not_space. }
  pose proof (rests_agree line Hone) as Hagree. cbv zeta in Hagree.
  fold e in Hagree. fold w in Hagree.
  assert (Hp : exists f, parseCommitMessage message = Some f
                         /\ CommitParams.type f = str (capture 1 tm)).
  { unfold parseCommitMessage. cbv zeta.
    change (nth 0 (split NL message) []) with line.
    rewrite Hem, H0. cbn [str]. rewrite <- Hagree, Htm.
    eexists. split; reflexivity. }
  destruct Hp as (f & Hf & Hty).
  exists f, info. split; [exact Hf |]. split; [now rewrite Hty |].
  split; [exact Hemoji | exact Hone].
Qed.

(** X4.  Every message that [validateCommitMessage] accepts is read by
    [parseCommitMessage]; the type read is a key of the table, and the
    first line is the emoji of that type, one whitespace character, the
    type, the scope in parentheses if any, the marker if any, a colon,
    whitespace and the title. *)
Theorem valid_message_shape (message : jsstring) :
  valid (validate message) = true ->
  exists f info c ws,
    parseCommitMessage message = Some f
    /\ assoc (CommitParams.type f) COMMIT_TYPES = Some info
    /\ isWhiteSpace c = true
    /\ ws <> [] /\ forallb isWhiteSpace ws = true
    /\ firstLineOf message
       = CommitTypeInfo.emoji info ++ [c] ++ CommitParams.type f
           ++ scopeStrOf (CommitParams.scope f)
           ++ bangOf (CommitParams.breaking f) ++ lit ":" ++ ws
           ++ CommitParams.title f.
Proof.
  intros Hv.
  destruct (valid_parse message Hv) as (f & info & Hf & Hinfo & Hemoji & Hone).
  destruct (parse_shape message f Hf)
    as (e' & w' & ws & Hline & He' & _ & _ & Hw' & Hword & _ & Hws & Hall & _).
  rewrite Hemoji in He'. subst e'.
  set (line := firstLineOf message) in *.
  set (w := takeWhile isWhiteSpace (dropWhile notWhiteSpace line)) in *.
  assert (w' = w) as ->.
  { unfold w. rewrite <- (takeWhile_dropWhile notWhiteSpace line) in Hline.
    rewrite Hemoji in Hline. apply app_inv_head in Hline. rewrite Hline.
    symmetry. apply takeWhile_app; [exact Hw' |].
    unfold wordOK in Hword. apply andb_prop in Hword as [Hne Hlow].
    destruct (CommitParams.type f) as [| t0 ty']; [discriminate |].
    cbn in Hlow |- *. apply andb_prop in Hlow as [Hlow _].
    now apply lowerLetter_not_space. }
  destruct w as [| c [| c' w'']] eqn:Ew; try discriminate.
  exists f, info, c, ws.
  split; [exact Hf |]. split; [exact Hinfo |].
  split; [now apply andb_prop in Hw' as [Hw' _] |].
  split; [exact Hws |]. split; [exact Hall |]. exact Hline.
Qed.

(** X5.  The emoji determines the type: two valid messages that start with the
    same token are of the same type. *)
Theorem valid_emoji_determines_type (m1 m2 : jsstring)
    (f1 f2 : CommitParams.t) :
  valid (validate m1) = true ->
  valid (validate m2) = true ->
  parseCommitMessage m1 = Some f1 ->
  parseCommitMessage m2 = Some f2 ->
  takeWhile notWhiteSpace (firstLineOf m1)
  = takeWhile notWhiteSpace (firstLineOf m2) ->
  CommitParams.type f1 = CommitParams.type f2.
Proof.
  intros Hv1 Hv2 Hp1 Hp2 Htoken.
  destruct (valid_parse m1 Hv1) as (g1 & i1 & Hg1 & Hi1 & He1 & _).
  destruct (valid_parse m2 Hv2) as (g2 & i2 & Hg2 & Hi2 & He2 & _).
  assert (g1 = f1) as -> by congruence.
  assert (g2 = f2) as -> by congruence.
  apply (emoji_injective _ _ i1 i2 Hi1 Hi2). congruence.
Qed.

End Valid.

Lemma valid_message_shape_witness :
  exists f info c ws,
    parseCommitMessage (emojiOfType (lit "feat") ++ lit " feat(auth): add login")
    = Some f
    /\ assoc (CommitParams.type f) COMMIT_TYPES = Some info
    /\ isWhiteSpace c = true
    /\ ws <> [] /\ forallb isWhiteSpace ws = true
    /\ firstLineOf (emojiOfType (lit "feat") ++ lit " feat(auth): add login")
       = CommitTypeInfo.emoji info ++ [c] ++ CommitParams.type f
           ++ scopeStrOf (CommitParams.scope f)
           ++ bangOf (CommitParams.breaking f) ++ lit ":" ++ ws
           ++ CommitParams.title f.
Proof.
  apply (valid_message_shape asciiUpper asciiLower
           (emojiOfType (lit "feat") ++ lit " feat(auth): add login")).
  vm_compute. reflexivity.
Defined.

Lemma valid_emoji_determines_type_witness :
  CommitParams.type fixFields = CommitParams.type scopedFixFields.
Proof.
  apply (valid_emoji_determines_type asciiUpper asciiLower fixMessage
           scopedFixMessage fixFields scopedFixFields);
    vm_compute; reflexivity.
Defined.

(** ** The verdict depends on the first line *)

Lemma not_blank (message : jsstring) :
  forallb isWhiteSpace message = false ->
  negb (truthy message) || (len (trim message) =? 0) = false.
Proof.
  intros H.
  destruct (negb (truthy message) || (len (trim message) =? 0)) eqn:E;
    [| reflexivity].
  apply blank_condition in E. congruence.
Qed.

Section FirstLine.

Variables toUpperCase toLowerCase : jsstring -> jsstring.

Local Abbreviation validate := (validateCommitMessage toUpperCase toLowerCase).

(** X6.  The text after the first line never changes the verdict: when the
    first line has a character that is not whitespace, the message and its
    first line alone get the same issues and the same validity; what
    follows can only add warnings: the warnings of the message are the
    warnings of its first line alone, in the same order, followed by those
    that the later lines draw. *)
Theorem validate_first_line_only (line rest : jsstring) :
  ~ In NL line ->
  forallb isWhiteSpace line = false ->
  issues (validate (line ++ NL :: rest)) = issues (validate line)
  /\ valid (validate (line ++ NL :: rest)) = valid (validate line)
  /\ exists later,
       warningList (validate (line ++ NL :: rest))
       = warningList (validate line) ++ later.
Proof.
  intros Hnl Hline. unfold validateCommitMessage. cbv zeta.
  rewrite (not_blank line Hline).
  rewrite not_blank
    by (rewrite forallb_app, Hline; reflexivity).
  rewrite split_app_sep by exact Hnl.
  rewrite (split_no_sep NL line) by exact Hnl.
  cbn [nth].
  destruct (regexMatch line emojiRegex) as [em |];
    [| split; [reflexivity |]; split; [reflexivity |]; now exists []].
  destruct (regexMatch _ typeRegex) as [tm |];
    [| split; [reflexivity |]; split; [reflexivity |]; now exists []].
  split; [reflexivity |]. split; [reflexivity |].
  unfold warningList. cbn [warnings descriptionWarnings].
  set (tw := titleWarnings toUpperCase toLowerCase (str (capture 4 tm))).
  set (dw := descriptionWarnings (line :: split NL rest)).
  exists dw. rewrite app_nil_r.
  assert (Hlist : forall l : list jsstring,
             match (match l with [] => None | _ :: _ => Some l end) with
             | Some l' => l'
             | None => []
             end = l) by (intros [| w l]; reflexivity).
  now rewrite !Hlist.
Qed.

(** X7.  [validateCommitMessage] reports at most one issue on any message, and
    the message is valid exactly when there is none. *)
Theorem validate_single_issue (message : jsstring) :
  (List.length (issues (validate message)) <= 1)%nat
  /\ (valid (validate message) = true <-> issues (validate message) = []).
Proof.
  split; [| apply valid_iff_no_issue].
  destruct (validate_cases toUpperCase toLowerCase message)
    as [[_ H] | [[_ H] | [(em & _ & _ & H) | (em & tm & _ & _ & H)]]];
    try (rewrite H; cbn; lia).
  destruct H as [H | [(ty & H) | (e & ty & x & H)]]; rewrite H; cbn; lia.
Qed.

End FirstLine.

Lemma validate_first_line_only_witness :
  issues (validateCommitMessage asciiUpper asciiLower
            (guideHeader ++ NL :: lit "See chapter 2."))
  = issues (validateCommitMessage asciiUpper asciiLower guideHeader)
  /\ valid (validateCommitMessage asciiUpper asciiLower
              (guideHeader ++ NL :: lit "See chapter 2."))
     = valid (validateCommitMessage asciiUpper asciiLower guideHeader)
  /\ exists later,
       warningList (validateCommitMessage asciiUpper asciiLower
                      (guideHeader ++ NL :: lit "See chapter 2."))
       = warningList (validateCommitMessage asciiUpper asciiLower guideHeader)
           ++ later.
Proof.
  apply (validate_first_line_only asciiUpper asciiLower guideHeader
           (lit "See chapter 2.")).
  - vm_compute. intuition discriminate.
  - vm_compute. reflexivity.
Defined.

(** ** More on [wrapText] *)

Lemma split_parts_no_sep sep s : Forall (fun w => ~ In sep w) (split sep s).
Proof.
  apply Forall_forall. intros w Hw Hin.
  revert w Hw Hin. induction s as [| a s IH]; intros w; cbn.
  - intros [<- | []] [].
  - destruct (N.eqb_spec a sep) as [-> | Hne].
    + intros [<- | Hw] Hc; [destruct Hc | eauto].
    + pose proof (split_not_nil sep s) as Hn.
      destruct (split sep s) as [| l ls] eqn:E; [contradiction |].
      intros [<- | Hw] Hc.
      * destruct Hc as [<- | Hc]; [congruence |].
        apply (IH l); [now left | exact Hc].
      * apply (IH w); [now right | exact Hc].
Qed.

Lemma split_app sep a b :
  split sep (a ++ sep :: b) = split sep a ++ split sep b.
Proof.
  induction a as [| c a IH]; cbn [app split].
  - now rewrite N.eqb_refl.
  - rewrite IH. destruct (c =? sep); [reflexivity |].
    pose proof (split_not_nil sep a) as Hn.
    destruct (split sep a) as [| l ls]; [contradiction | reflexivity].
Qed.

Lemma wordsOf_nil : wordsOf [] = [].
Proof. reflexivity. Qed.

Lemma wordsOf_word (w : jsstring) :
  ~ In SP w -> wordsOf w = if truthy w then [w] else [].
Proof.
  intros H. unfold wordsOf. rewrite split_no_sep by exact H. reflexivity.
Qed.

Lemma wordsOf_app (a b : jsstring) :
  wordsOf (a ++ SP :: b) = wordsOf a ++ wordsOf b.
Proof. unfold wordsOf. now rewrite split_app, filter_app. Qed.

(** The words of the finished lines and of the current line are the words
    met so far, in their order. *)
Lemma wrapStep_words width st word :
  ~ In SP word ->
  flat_map wordsOf (fst (wrapStep width st word))
    ++ wordsOf (snd (wrapStep width st word))
  = (flat_map wordsOf (fst st) ++ wordsOf (snd st))
      ++ (if truthy word then [word] else []).
Proof.
  intros Hw. pose proof (wordsOf_word word Hw) as Hword.
  destruct st as [lines cur]. unfold wrapStep.
  destruct (_ <=? _)%Z; cbn [fst snd];
    destruct cur as [| c cur']; cbn [truthy app].
  - now rewrite wordsOf_nil, app_nil_r, Hword.
  - change (c :: cur' ++ SP :: word) with ((c :: cur') ++ SP :: word).
    now rewrite wordsOf_app, Hword, app_assoc.
  - now rewrite wordsOf_nil, app_nil_r, Hword.
  - rewrite flat_map_app. cbn [flat_map]. now rewrite app_nil_r, Hword.
Qed.

Lemma fold_wrapStep_words width ws st :
  Forall (fun w => ~ In SP w) ws ->
  let st' := fold_left (wrapStep width) ws st in
  flat_map wordsOf (fst st') ++ wordsOf (snd st')
  = (flat_map wordsOf (fst st) ++ wordsOf (snd st)) ++ filter truthy ws.
Proof.
  revert st. induction ws as [| w ws IH]; intros st Hws; cbn [fold_left].
  - cbn. now rewrite app_nil_r.
  - inversion Hws as [| ? ? Hw Hws']; subst. cbv zeta.
    rewrite (IH _ Hws'). rewrite (wrapStep_words width st w Hw).
    rewrite <- app_assoc. f_equal. cbn [filter]. now destruct (truthy w).
Qed.

(** X11.  [wrapText] keeps the words of the text: the lines that it joins,
    read one after the other, have the same non-empty words in the same
    order as the text.  No word is lost, split, repeated or moved, whatever
    the width. *)
Theorem wrapText_words (text : jsstring) (width : Z) :
  flat_map wordsOf (wrapLines text width) = wordsOf text.
Proof.
  pose proof (fold_wrapStep_words width (split SP text) ([], [])
                (split_parts_no_sep SP text)) as H.
  cbv zeta in H. unfold wrapLines.
  destruct (fold_left (wrapStep width) (split SP text) ([], []))
    as [lines cur].
  cbn [fst snd flat_map app] in H. rewrite wordsOf_nil in H.
  cbn [app] in H. fold (wordsOf text) in H. rewrite <- H.
  destruct cur as [| c cur']; cbn [truthy].
  - now rewrite wordsOf_nil, app_nil_r.
  - rewrite flat_map_app. cbn [flat_map]. now rewrite app_nil_r.
Qed.

(** No line starts with a space and none is empty. *)
Lemma wrapStep_starts width st word :
  ~ In SP word ->
  Forall (fun l => l <> [] /\ stops isSpace l) (fst st) ->
  stops isSpace (snd st) ->
  Forall (fun l => l <> [] /\ stops isSpace l) (fst (wrapStep width st word))
  /\ stops isSpace (snd (wrapStep width st word)).
Proof.
  intros Hw Hl Hc. destruct st as [lines cur]. cbn [fst snd] in *.
  assert (Hword : stops isSpace word).
  { destruct word as [| a word']; [exact I |]. cbn [stops]. unfold isSpace.
    apply N.eqb_neq. intros ->. apply Hw. now left. }
  unfold wrapStep. destruct (_ <=? _)%Z; cbn [fst snd].
  - split; [exact Hl |].
    destruct cur as [| c cur']; cbn [truthy app]; [exact Hword | exact Hc].
  - split; [| exact Hword].
    destruct cur as [| c cur']; cbn [truthy]; [exact Hl |].
    apply Forall_app. split; [exact Hl |].
    constructor; [| constructor]. split; [discriminate | exact Hc].
Qed.

Lemma fold_wrapStep_starts width ws st :
  Forall (fun w => ~ In SP w) ws ->
  Forall (fun l => l <> [] /\ stops isSpace l) (fst st) ->
  stops isSpace (snd st) ->
  let st' := fold_left (wrapStep width) ws st in
  Forall (fun l => l <> [] /\ stops isSpace l) (fst st')
  /\ stops isSpace (snd st').
Proof.
  revert st. induction ws as [| w ws IH]; intros st Hws Hl Hc;
    cbn [fold_left].
  - cbn. auto.
  - inversion Hws as [| ? ? Hw Hws']; subst.
    destruct (wrapStep_starts width st w Hw Hl Hc) as [Hl' Hc'].
    now apply IH.
Qed.

(** X12.  Whatever the text and the width, no line produced by [wrapText] is
    empty and none starts with a space: runs of spaces in the text never
    give blank lines or indented lines. *)
Theorem wrapText_no_blank_line (text : jsstring) (width : Z) :
  Forall (fun l => l <> [] /\ stops isSpace l) (wrapLines text width).
Proof.
  pose proof (fold_wrapStep_starts width (split SP text) ([], [])
                (split_parts_no_sep SP text) (Forall_nil _) I) as H.
  cbv zeta in H. unfold wrapLines.
  destruct (fold_left (wrapStep width) (split SP text) ([], []))
    as [lines cur] eqn:E.
  assert (Hl : Forall (fun l => l <> [] /\ stops isSpace l)
                 (fst (lines, cur)))
    by (rewrite <- E; exact (proj1 H)).
  assert (Hc : stops isSpace (snd (lines, cur)))
    by (rewrite <- E; exact (proj2 H)).
  cbn [fst snd] in Hl, Hc.
  destruct cur as [| c cur']; cbn [truthy]; [exact Hl |].
  apply Forall_app. split; [exact Hl |].
  constructor; [| constructor]. split; [discriminate | exact Hc].
Qed.

(** A text that fits in the width. *)
Lemma join_merge (cur w : jsstring) (ws : list jsstring) :
  join [SP] ((cur ++ SP :: w) :: ws) = join [SP] (cur :: w :: ws).
Proof.
  destruct ws as [| x ws]; cbn [join app].
  - reflexivity.
  - now rewrite <- app_assoc.
Qed.

Lemma join_length_cons (cur w : jsstring) (ws : list jsstring) :
  (List.length cur + List.length w + 1
   <= List.length (join [SP] (cur :: w :: ws)))%nat.
Proof.
  change (join [SP] (cur :: w :: ws)) with (cur ++ [SP] ++ join [SP] (w :: ws)).
  rewrite !length_app. cbn [List.length].
  destruct ws as [| x ws]; cbn [join]; rewrite ?length_app; lia.
Qed.

Lemma fold_wrapStep_short width ws (cur : jsstring) :
  cur <> [] ->
  (Z.of_nat (List.length (join [SP] (cur :: ws))) <= width)%Z ->
  fold_left (wrapStep width) ws ([], cur) = ([], join [SP] (cur :: ws)).
Proof.
  revert cur. induction ws as [| w ws IH]; intros cur Hcur Hlen;
    cbn [fold_left]; [reflexivity |].
  pose proof (join_length_cons cur w ws) as Hle.
  unfold wrapStep at 2.
  destruct (Z.leb_spec
              (Z.of_nat (List.length cur) + Z.of_nat (List.length w) + 1)
              width) as [_ | Hgt]; [| lia].
  apply truthy_true in Hcur as Ht. rewrite Ht.
  change (cur ++ [SP] ++ w) with (cur ++ SP :: w).
  rewrite IH.
  - now rewrite join_merge.
  - now destruct cur.
  - now rewrite join_merge.
Qed.

Lemma fold_wrapStep_short_start width ws :
  Forall (fun w => ~ In SP w) ws ->
  (Z.of_nat (List.length (join [SP] ws)) <= width)%Z ->
  fold_left (wrapStep width) ws ([], [])
  = ([], dropWhile isSpace (join [SP] ws)).
Proof.
  induction ws as [| w ws IH]; intros Hws Hlen; cbn [fold_left];
    [reflexivity |].
  inversion Hws as [| ? ? Hw Hws']; subst.
  destruct w as [| a w'].
  - assert (Hstep : wrapStep width ([], []) [] = ([], []))
      by (unfold wrapStep; now destruct (_ <=? _)%Z).
    rewrite Hstep. destruct ws as [| x ws']; [reflexivity |].
    change (join [SP] ([] :: x :: ws')) with (SP :: join [SP] (x :: ws'))
      in Hlen |- *.
    cbn [dropWhile]. unfold isSpace at 1. rewrite N.eqb_refl.
    apply IH; [exact Hws' |]. cbn [List.length] in Hlen. lia.
  - assert (Hstep : wrapStep width ([], []) (a :: w') = ([], a :: w'))
      by (unfold wrapStep; now destruct (_ <=? _)%Z).
    rewrite Hstep. rewrite fold_wrapStep_short by (auto; discriminate).
    f_equal.
    assert (Ha : isSpace a = false).
    { unfold isSpace. apply N.eqb_neq. intros ->. apply Hw. now left. }
    destruct ws as [| x ws']; cbn [join app dropWhile]; now rewrite Ha.
Qed.

(** X13.  A text that is not longer than the width comes back on one line, as it
    is but for the spaces at its start, which are removed. *)
Theorem wrapText_short (text : jsstring) (width : Z) :
  (Z.of_nat (List.length text) <= width)%Z ->
  wrapText text width = dropWhile isSpace text.
Proof.
  intros Hlen. unfold wrapText, wrapLines.
  rewrite fold_wrapStep_short_start.
  - rewrite join_split.
    destruct (dropWhile isSpace text); reflexivity.
  - apply split_parts_no_sep.
  - now rewrite join_split.
Qed.

Lemma wrapText_short_witness :
  wrapText (lit "  wrap  this text") 72 = lit "wrap  this text".
Proof.
  apply (wrapText_short (lit "  wrap  this text") 72). vm_compute.
  discriminate.
Defined.

(** ** More on the change classifier *)

Lemma Qltb_lt (x y : Q) : Qltb x y = true <-> (x < y)%Q.
Proof.
  unfold Qltb. rewrite negb_true_iff. split.
  - intros H. apply Qnot_le_lt. intros Hle.
    apply Qle_bool_iff in Hle. congruence.
  - intros H. destruct (Qle_bool y x) eqn:E; [| reflexivity].
    apply Qle_bool_iff in E. exfalso. now apply (Qlt_not_le x y).
Qed.

Lemma Qltb_quotient_r (n : Z) (m : positive) (a d : Z) :
  (0 < d)%Z ->
  Qltb (n # m) (inject_Z a / inject_Z d) = (n * d <? Z.pos m * a)%Z.
Proof.
  intros Hd. apply eq_true_iff_eq. rewrite Qltb_lt, Z.ltb_lt.
  destruct d as [| p | p]; try lia.
  unfold Qlt, Qdiv, Qmult, Qinv, inject_Z. cbn [Qnum Qden].
  split; intros H; nia.
Qed.

Lemma Qltb_quotient_l (n : Z) (m : positive) (a d : Z) :
  (0 < d)%Z ->
  Qltb (inject_Z a / inject_Z d) (n # m) = (Z.pos m * a <? n * d)%Z.
Proof.
  intros Hd. apply eq_true_iff_eq. rewrite Qltb_lt, Z.ltb_lt.
  destruct d as [| p | p]; try lia.
  unfold Qlt, Qdiv, Qmult, Qinv, inject_Z. cbn [Qnum Qden].
  split; intros H; nia.
Qed.

(** *** The quotient as a double and the exact comparisons *)

Section Doubles.

Local Open Scope Z_scope.

Lemma roundNearestEven_le (num den M : Z) :
  0 < den -> 2 * num < (2 * M + 1) * den -> roundNearestEven num den <= M.
Proof.
  intros Hden H. unfold roundNearestEven. cbv zeta.
  pose proof (Z.div_mod num den ltac:(lia)) as Hdm.
  pose proof (Z.mod_pos_bound num den Hden) as Hr.
  set (q := num / den) in *. set (r := num mod den) in *.
  assert (Hq : q <= M) by nia.
  destruct (Z.ltb_spec (2 * r) den); [exact Hq |].
  assert (q < M) by nia.
  destruct (Z.ltb_spec den (2 * r)); [lia |].
  destruct (Z.even q); lia.
Qed.

Lemma roundNearestEven_ge (num den M : Z) :
  0 < den -> (2 * M - 1) * den < 2 * num -> M <= roundNearestEven num den.
Proof.
  intros Hden H. unfold roundNearestEven. cbv zeta.
  pose proof (Z.div_mod num den ltac:(lia)) as Hdm.
  pose proof (Z.mod_pos_bound num den Hden) as Hr.
  set (q := num / den) in *. set (r := num mod den) in *.
  assert (Hq : M - 1 <= q) by nia.
  destruct (Z.ltb_spec (2 * r) den); [nia |].
  destruct (Z.ltb_spec den (2 * r)); [lia |].
  assert (2 * r = den) by lia.
  assert (M <= q) by nia.
  destruct (Z.even q); lia.
Qed.

Lemma roundNearestEven_scale (num den c : Z) :
  0 < den -> 0 < c ->
  roundNearestEven (num * c) (den * c) = roundNearestEven num den.
Proof.
  intros Hden Hc. unfold roundNearestEven. cbv zeta.
  rewrite Z.div_mul_cancel_r by lia.
  rewrite Zmult_mod_distr_r.
  replace (2 * (num mod den * c)) with (2 * (num mod den) * c) by ring.
  assert (Hlt : forall x y, (x * c <? y * c) = (x <? y)).
  { intros x y. destruct (Z.ltb_spec x y), (Z.ltb_spec (x * c) (y * c));
      try reflexivity; nia. }
  now rewrite !Hlt.
Qed.


(** The scaling of [doubleQuotient]. *)
Lemma doubleQuotient_shape (a d : N) :
  (0 < a)%N -> (0 < d)%N -> (d < 2 ^ 49)%N ->
  exists K P n,
    54 <= K /\ 1 <= P
    /\ Z.of_N d < 2 ^ (K - 53)
    /\ 2 ^ 52 * (Z.of_N d * 2 ^ P) <= Z.of_N a * 2 ^ K
    /\ Z.of_N a * 2 ^ K < 2 ^ 53 * (Z.of_N d * 2 ^ P)
    /\ n = roundNearestEven (Z.of_N a * 2 ^ K) (Z.of_N d * 2 ^ P)
    /\ doubleQuotient a d = (inject_Z (n * 2 ^ P) / inject_Z (2 ^ K))%Q.
Proof.
  intros Ha Hd Hbound. unfold doubleQuotient. cbv zeta.
  set (da := Z.of_N a). set (dd := Z.of_N d).
  assert (Hda : 1 <= da) by (unfold da; lia).
  assert (Hdd : 1 <= dd) by (unfold dd; lia).
  pose proof (Z.log2_nonneg dd) as Hl.
  assert (Hl49 : Z.log2 dd < 49)
    by (apply Z.log2_lt_pow2; unfold dd; lia).
  destruct (Z.log2_spec dd ltac:(lia)) as [_ Hup].
  set (K := Z.log2 dd + 54).
  assert (HK : 2 ^ K = 2 ^ Z.succ (Z.log2 dd) * 2 ^ 53).
  { unfold K. rewrite <- Z.pow_add_r by lia. f_equal. lia. }
  assert (HK53 : 2 ^ (K - 53) = 2 ^ Z.succ (Z.log2 dd))
    by (f_equal; unfold K; lia).
  set (A := da * 2 ^ K).
  assert (Hbig : 2 ^ 53 <= A / dd).
  { apply Z.div_le_lower_bound; [lia |]. unfold A. rewrite HK. nia. }
  set (E := Z.log2 (A / dd)).
  assert (HE : 53 <= E).
  { unfold E. change 53 with (Z.log2 (2 ^ 53)). now apply Z.log2_le_mono. }
  destruct (Z.log2_spec (A / dd) ltac:(lia)) as [Hlo Hhi]. fold E in Hlo, Hhi.
  pose proof (Z.mul_div_le A dd ltac:(lia)) as H1.
  pose proof (Z.mul_succ_div_gt A dd ltac:(lia)) as H2.
  assert (HEP : 2 ^ E = 2 ^ 52 * 2 ^ (E - 52)).
  { rewrite <- Z.pow_add_r by lia. f_equal. lia. }
  assert (HEP1 : 2 ^ Z.succ E = 2 ^ 53 * 2 ^ (E - 52)).
  { rewrite <- Z.pow_add_r by lia. f_equal. lia. }
  replace (Z.max (E - 52) (K - 1074)) with (E - 52) by (unfold K; lia).
  exists K, (E - 52), (roundNearestEven A (dd * 2 ^ (E - 52))).
  split; [unfold K; lia |]. split; [lia |].
  split; [now rewrite HK53 |].
  split; [nia |]. split; [nia |]. split; reflexivity.
Qed.

Lemma pow2_trichotomy (P Pc : Z) :
  0 <= P -> 0 <= Pc ->
  2 * 2 ^ P <= 2 ^ Pc \/ P = Pc \/ 2 * 2 ^ Pc <= 2 ^ P.
Proof.
  intros HP HPc.
  destruct (Z.lt_trichotomy P Pc) as [H | [H | H]].
  - left. rewrite <- Z.pow_succ_r by lia.
    apply Z.pow_le_mono_r; lia.
  - now right; left.
  - right; right. rewrite <- Z.pow_succ_r by lia.
    apply Z.pow_le_mono_r; lia.
Qed.

Lemma ltb_eq_N_Z (x y : Z) (u v : N) :
  (x < y <-> (u < v)%N) -> (x <? y) = (u <? v)%N.
Proof.
  intros H. destruct (Z.ltb_spec x y), (N.ltb_spec u v); try reflexivity;
    exfalso; [apply (N.lt_irrefl u) | apply (Z.lt_irrefl x)].
  - apply N.lt_le_trans with v; [now apply H | assumption].
  - apply Z.lt_le_trans with y; [now apply H | assumption].
Qed.

(** The comparison of the double quotient with [2]. *)
Lemma double_above_2 (a d : N) :
  (0 < a)%N -> (0 < d)%N -> (d < 2 ^ 49)%N ->
  Qltb 2 (doubleQuotient a d) = (2 * d <? a)%N.
Proof.
  intros Ha Hd Hbound.
  destruct (doubleQuotient_shape a d Ha Hd Hbound)
    as (K & P & n & HK & HP & _ & Hlo & Hhi & Hn & ->).
  assert (HX : 0 < 2 ^ K) by (apply Z.pow_pos_nonneg; lia).
  assert (HY : 0 < 2 ^ P) by (apply Z.pow_pos_nonneg; lia).
  assert (HYc : 0 < 2 ^ (K - 51)) by (apply Z.pow_pos_nonneg; lia).
  assert (HXY : 2 ^ K = 2 ^ (K - 51) * 2 ^ 51).
  { rewrite <- Z.pow_add_r by lia. f_equal. lia. }
  change 2%Q with (2 # 1)%Q. rewrite Qltb_quotient_r by exact HX.
  apply ltb_eq_N_Z.
  set (da := Z.of_N a) in *. set (dd := Z.of_N d) in *.
  assert (Hda : 1 <= da) by (unfold da; lia).
  assert (Hdd : 1 <= dd < 2 ^ 49) by (unfold dd; lia).
  assert (Hgoal : (2 * d < a)%N <-> 2 * dd < da) by (unfold da, dd; lia).
  rewrite Hgoal. clear Hgoal.
  assert (Hn52 : 2 ^ 52 <= n).
  { rewrite Hn. apply roundNearestEven_ge; nia. }
  assert (Hn53 : n <= 2 ^ 53).
  { rewrite Hn. apply roundNearestEven_le; nia. }
  set (X := 2 ^ K) in *. set (Y := 2 ^ P) in *.
  set (Yc := 2 ^ (K - 51)) in *.
  destruct (pow2_trichotomy P (K - 51) ltac:(lia) ltac:(lia))
    as [Hlt | [Heq | Hgt]]; fold Y in Hlt || fold Y in Hgt || idtac.
  - fold Yc in Hlt. split; intros Hf; exfalso; nia.
  - assert (HYeq : Y = Yc) by (unfold Y, Yc; now rewrite Heq).
    assert (Hn' : n = roundNearestEven (da * 2 ^ 51) dd).
    { rewrite Hn, HXY, HYeq.
      replace (da * (Yc * 2 ^ 51)) with (da * 2 ^ 51 * Yc) by ring.
      apply roundNearestEven_scale; lia. }
    destruct (Z.lt_ge_cases (2 * dd) da) as [Hc | Hc].
    + assert (Hup : 2 ^ 52 + 1 <= n)
        by (rewrite Hn'; apply roundNearestEven_ge; lia).
      split; intros _; [exact Hc | nia].
    + assert (Hdown : n <= 2 ^ 52)
        by (rewrite Hn'; apply roundNearestEven_le; lia).
      split; intros Hf; [exfalso; nia | lia].
  - fold Yc in Hgt. split; intros Hf; nia.
Qed.

(** The comparison of the double quotient with the double [0.7]. *)
Lemma double_above_07 (a d : N) :
  (0 < a)%N -> (0 < d)%N -> (d < 2 ^ 49)%N ->
  Qltb DOUBLE_0_7 (doubleQuotient a d) = (7 * d <? 10 * a)%N.
Proof.
  intros Ha Hd Hbound.
  destruct (doubleQuotient_shape a d Ha Hd Hbound)
    as (K & P & n & HK & HP & _ & Hlo & Hhi & Hn & ->).
  assert (HX : 0 < 2 ^ K) by (apply Z.pow_pos_nonneg; lia).
  assert (HY : 0 < 2 ^ P) by (apply Z.pow_pos_nonneg; lia).
  assert (HYc : 0 < 2 ^ (K - 53)) by (apply Z.pow_pos_nonneg; lia).
  assert (HXY : 2 ^ K = 2 ^ (K - 53) * 2 ^ 53).
  { rewrite <- Z.pow_add_r by lia. f_equal. lia. }
  unfold DOUBLE_0_7. rewrite Qltb_quotient_r by exact HX.
  apply ltb_eq_N_Z.
  set (da := Z.of_N a) in *. set (dd := Z.of_N d) in *.
  assert (Hda : 1 <= da) by (unfold da; lia).
  assert (Hdd : 1 <= dd < 2 ^ 49) by (unfold dd; lia).
  assert (Hgoal : (7 * d < 10 * a)%N <-> 7 * dd < 10 * da)
    by (unfold da, dd; lia).
  rewrite Hgoal. clear Hgoal.
  assert (Hn52 : 2 ^ 52 <= n).
  { rewrite Hn. apply roundNearestEven_ge; nia. }
  assert (Hn53 : n <= 2 ^ 53).
  { rewrite Hn. apply roundNearestEven_le; nia. }
  set (X := 2 ^ K) in *. set (Y := 2 ^ P) in *.
  set (Yc := 2 ^ (K - 53)) in *.
  destruct (pow2_trichotomy P (K - 53) ltac:(lia) ltac:(lia))
    as [Hlt | [Heq | Hgt]]; fold Y in Hlt || fold Y in Hgt || idtac.
  - fold Yc in Hlt. split; intros Hf; exfalso; nia.
  - assert (HYeq : Y = Yc) by (unfold Y, Yc; now rewrite Heq).
    assert (Hn' : n = roundNearestEven (da * 2 ^ 53) dd).
    { rewrite Hn, HXY, HYeq.
      replace (da * (Yc * 2 ^ 53)) with (da * 2 ^ 53 * Yc) by ring.
      apply roundNearestEven_scale; lia. }
    destruct (Z.lt_ge_cases (7 * dd) (10 * da)) as [Hc | Hc].
    + assert (Hup : 6305039478318694 + 1 <= n)
        by (rewrite Hn'; apply roundNearestEven_ge; lia).
      split; intros _; [exact Hc | nia].
    + assert (Hdown : n <= 6305039478318694)
        by (rewrite Hn'; apply roundNearestEven_le; lia).
      split; intros Hf; [exfalso; nia | lia].
  - fold Yc in Hgt. split; intros Hf; nia.
Qed.

(** The comparison of the double quotient with the double [1.3]. *)
Lemma double_below_13 (a d : N) :
  (0 < a)%N -> (0 < d)%N -> (d < 2 ^ 49)%N ->
  Qltb (doubleQuotient a d) DOUBLE_1_3 = (10 * a <? 13 * d)%N.
Proof.
  intros Ha Hd Hbound.
  destruct (doubleQuotient_shape a d Ha Hd Hbound)
    as (K & P & n & HK & HP & _ & Hlo & Hhi & Hn & ->).
  assert (HX : 0 < 2 ^ K) by (apply Z.pow_pos_nonneg; lia).
  assert (HY : 0 < 2 ^ P) by (apply Z.pow_pos_nonneg; lia).
  assert (HYc : 0 < 2 ^ (K - 52)) by (apply Z.pow_pos_nonneg; lia).
  assert (HXY : 2 ^ K = 2 ^ (K - 52) * 2 ^ 52).
  { rewrite <- Z.pow_add_r by lia. f_equal. lia. }
  unfold DOUBLE_1_3. rewrite Qltb_quotient_l by exact HX.
  apply ltb_eq_N_Z.
  set (da := Z.of_N a) in *. set (dd := Z.of_N d) in *.
  assert (Hda : 1 <= da) by (unfold da; lia).
  assert (Hdd : 1 <= dd < 2 ^ 49) by (unfold dd; lia).
  assert (Hgoal : (10 * a < 13 * d)%N <-> 10 * da < 13 * dd)
    by (unfold da, dd; lia).
  rewrite Hgoal. clear Hgoal.
  assert (Hn52 : 2 ^ 52 <= n).
  { rewrite Hn. apply roundNearestEven_ge; nia. }
  assert (Hn53 : n <= 2 ^ 53).
  { rewrite Hn. apply roundNearestEven_le; nia. }
  set (X := 2 ^ K) in *. set (Y := 2 ^ P) in *.
  set (Yc := 2 ^ (K - 52)) in *.
  destruct (pow2_trichotomy P (K - 52) ltac:(lia) ltac:(lia))
    as [Hlt | [Heq | Hgt]]; fold Y in Hlt || fold Y in Hgt || idtac.
  - fold Yc in Hlt. split; intros Hf; nia.
  - assert (HYeq : Y = Yc) by (unfold Y, Yc; now rewrite Heq).
    assert (Hn' : n = roundNearestEven (da * 2 ^ 52) dd).
    { rewrite Hn, HXY, HYeq.
      replace (da * (Yc * 2 ^ 52)) with (da * 2 ^ 52 * Yc) by ring.
      apply roundNearestEven_scale; lia. }
    destruct (Z.lt_ge_cases (10 * da) (13 * dd)) as [Hc | Hc].
    + assert (Hdown : n <= 5854679515581645 - 1)
        by (rewrite Hn'; apply roundNearestEven_le; lia).
      split; intros _; [exact Hc | nia].
    + assert (Hup : 5854679515581645 <= n)
        by (rewrite Hn'; apply roundNearestEven_ge; lia).
      split; intros Hf; [exfalso; nia | lia].
  - fold Yc in Hgt. split; intros Hf; exfalso; nia.
Qed.

End Doubles.

(** The three comparisons of the quotient, without the quotient. *)
Lemma ratio_above_2 (a d : N) :
  d < 2 ^ 49 ->
  Qltb 2 (ratioOf a d) && (50 <? a) = (50 <? a) && (2 * d <? a).
Proof.
  intros Hbound. unfold ratioOf. destruct (N.ltb_spec 0 d) as [Hd | Hd].
  - destruct (N.ltb_spec 0 a) as [Ha | Ha].
    + rewrite double_above_2 by assumption. apply andb_comm.
    + assert (a = 0) as -> by lia. reflexivity.
  - assert (d = 0) as -> by lia.
    destruct (N.ltb_spec 0 a) as [Ha | Ha].
    + change (Qltb 2 10) with true. cbn [andb]. rewrite N.mul_0_r.
      apply N.ltb_lt in Ha. now rewrite Ha, andb_true_r.
    + assert (a = 0) as -> by lia. reflexivity.
Qed.

Lemma ratio_balanced (a d : N) :
  d < 2 ^ 49 ->
  Qltb DOUBLE_0_7 (ratioOf a d) && Qltb (ratioOf a d) DOUBLE_1_3
  = (0 <? d) && (7 * d <? 10 * a) && (10 * a <? 13 * d).
Proof.
  intros Hbound. unfold ratioOf. destruct (N.ltb_spec 0 d) as [Hd | Hd].
  - destruct (N.ltb_spec 0 a) as [Ha | Ha].
    + now rewrite double_above_07, double_below_13 by assumption.
    + assert (a = 0) as -> by lia.
      change (Qltb DOUBLE_0_7 0) with false. cbn [andb]. symmetry.
      apply andb_false_intro1, N.ltb_ge. lia.
  - destruct (0 <? a); reflexivity.
Qed.

Lemma byVolume_parts (stats : DiffStats) :
  byVolume stats = true ->
  Nat.eqb (List.length (files stats)) 0 = false
  /\ allOf (filter isDocFile (files stats)) (files stats) = false
  /\ allOf (filter isTestFile (files stats)) (files stats) = false
  /\ allOf (filter isCiFile (files stats)) (files stats) = false
  /\ (0 <? List.length (filter isBuildFile (files stats)))%nat = false
  /\ allOf (filter isConfigFile (files stats)) (files stats) = false.
Proof.
  unfold byVolume. rewrite !andb_true_iff, !negb_true_iff. tauto.
Qed.

(** X14.  When no rule on the file names decides, and the deleted lines are
    fewer than [2^49], the suggestion follows from the two counts by integer
    comparisons, although the source compares a quotient of doubles with
    [2], [0.7] and [1.3]: 'feat' with medium confidence for more than 50
    additions that are more than twice the deletions; 'refactor' with medium
    confidence for more than 100 changed lines with 7d < 10a < 13d; 'fix'
    with low confidence for fewer than 50 changed lines; 'feat' with low
    confidence otherwise. *)
Theorem suggestCommitType_by_volume (stats : DiffStats) :
  byVolume stats = true ->
  deletions stats < 2 ^ 49 ->
  exists s,
    suggestCommitType stats = Ok s
    /\ (SuggestionResult.type s, SuggestionResult.confidence s)
       = volumeVerdict (additions stats) (deletions stats).
Proof.
  intros H Hbound.
  destruct (byVolume_parts stats H) as (H0 & H1 & H2 & H3 & H4 & H5).
  unfold suggestCommitType. cbv zeta.
  rewrite H0, H1, H2, H3, H4, H5.
  rewrite ratio_above_2, ratio_balanced by exact Hbound.
  unfold volumeVerdict.
  destruct ((50 <? additions stats) && (2 * deletions stats <? additions stats));
    [eexists; split; reflexivity |].
  destruct ((0 <? deletions stats)
            && (7 * deletions stats <? 10 * additions stats)
            && (10 * additions stats <? 13 * deletions stats)
            && (100 <? additions stats + deletions stats));
    [eexists; split; reflexivity |].
  destruct (additions stats + deletions stats <? 50);
    eexists; split; reflexivity.
Qed.

Lemma suggestCommitType_by_volume_witness :
  exists s,
    suggestCommitType sourceChange = Ok s
    /\ (SuggestionResult.type s, SuggestionResult.confidence s)
       = (lit "feat", medium).
Proof.
  apply (suggestCommitType_by_volume sourceChange).
  - vm_compute. reflexivity.
  - vm_compute. reflexivity.
Defined.

(** A suggestion always names one of nine types, with the emoji that the
    table gives for it. *)
Lemma suggested_type (stats : DiffStats) (s : SuggestionResult.t) :
  suggestCommitType stats = Ok s ->
  In (SuggestionResult.type s) suggestedTypes
  /\ SuggestionResult.emoji s = emojiOfType (SuggestionResult.type s).
Proof.
  unfold suggestCommitType, suggestion. cbv zeta.
  repeat match goal with
         | |- context [if ?c then _ else _] => destruct c
         end;
    intros [= <-]; cbn [SuggestionResult.type SuggestionResult.emoji];
    (split; [unfold suggestedTypes; cbn [map In]; tauto | reflexivity]).
Qed.

Lemma suggestedTypes_plain (type : jsstring) :
  In type suggestedTypes -> plainType type = true.
Proof.
  unfold suggestedTypes. cbn [map In].
  intros H. repeat (destruct H as [<- | H]; [now vm_compute |]).
  destruct H.
Qed.

Lemma startsWith_app (p r : jsstring) : startsWith (p ++ r) p = true.
Proof.
  induction p as [| c p IH]; cbn [app startsWith].
  - now destruct r.
  - now rewrite N.eqb_refl.
Qed.

Section Suggested.

Variables toUpperCase toLowerCase : jsstring -> jsstring.

Local Abbreviation validate := (validateCommitMessage toUpperCase toLowerCase).

(** X15.  A suggestion can always be committed: for every type that
    [suggestCommitType] returns, every scope without closing parenthesis
    and newline and every non-empty one-line title,
    [formatCommitMessage] succeeds, the message starts with the emoji and
    the type of the suggestion, and [validateCommitMessage] accepts it. *)
Theorem suggestion_formats_valid (stats : DiffStats) (s : SuggestionResult.t)
    (scope : option jsstring) (title : jsstring)
    (description : option jsstring) (breaking : bool) :
  suggestCommitType stats = Ok s ->
  scopeOK scope = true ->
  titleOK title = true ->
  exists m,
    formatCommitMessage (fieldsOf s scope title description breaking) = Ok m
    /\ startsWith m
         (SuggestionResult.emoji s ++ lit " " ++ SuggestionResult.type s)
       = true
    /\ valid (validate m) = true.
Proof.
  intros Hs Hscope Htitle.
  destruct (suggested_type stats s Hs) as [Hin Hemoji].
  pose proof (suggestedTypes_plain _ Hin) as Hplain.
  set (f := fieldsOf s scope title description breaking).
  assert (Hf : validatable f = true).
  { unfold validatable, f, fieldsOf.
    cbn [CommitParams.type CommitParams.scope CommitParams.title].
    now rewrite Hplain, Hscope, Htitle. }
  destruct (validatable_parts f Hf) as (info & Hi & _).
  destruct (validate_formatted toUpperCase toLowerCase f info Hf Hi)
    as (w & Hv).
  eexists. split; [exact (formatted_message f info Hi) |].
  split; [| now rewrite Hv].
  rewrite Hemoji. unfold emojiOfType.
  change (CommitParams.type f) with (SuggestionResult.type s) in Hi.
  rewrite (assoc_getProperty _ _ Hi). cbn [emojiOf render].
  rewrite headerLine_parts.
  change (CommitParams.type f) with (SuggestionResult.type s).
  rewrite <- !app_assoc.
  rewrite (app_assoc (CommitTypeInfo.emoji info)).
  rewrite (app_assoc (CommitTypeInfo.emoji info ++ lit " ")).
  rewrite <- (app_assoc (CommitTypeInfo.emoji info)).
  apply startsWith_app.
Qed.

End Suggested.

Lemma suggestion_formats_valid_witness :
  exists s m,
    suggestCommitType sourceChange = Ok s
    /\ formatCommitMessage
         (fieldsOf s (Some (lit "parser")) (lit "read nested lists") None
            false) = Ok m
    /\ valid (validateCommitMessage asciiUpper asciiLower m) = true.
Proof.
  destruct (suggestCommitType sourceChange) as [s | e] eqn:E;
    [| vm_compute in E; discriminate].
  destruct (suggestion_formats_valid asciiUpper asciiLower sourceChange s
              (Some (lit "parser")) (lit "read nested lists") None false E
              eq_refl eq_refl) as (m & Hm & _ & Hv).
  exists s, m. auto.
Defined.

(** ** The manifest rule reads the whole path *)

Lemma matcher_Str_ic (s pre r : jsstring) k i cs :
  canonical pre = canonical s ->
  matcher true (Str s) k (MState i (pre ++ r) cs)
  = k (MState (i + List.length pre) r cs).
Proof.
  revert pre i. induction s as [| c s IH]; intros pre i Hc.
  - destruct pre; [| discriminate]. cbn. now rewrite Nat.add_0_r.
  - destruct pre as [| a pre]; [discriminate |].
    injection Hc as Ha Hc.
    assert (Hstep : forall k',
               matcher true (Lit c) k' (MState i ((a :: pre) ++ r) cs)
               = k' (MState (S i) (pre ++ r) cs)).
    { intros k'. rewrite matcher_Lit. cbn [rest app pos caps].
      unfold charMatches. rewrite Ha. now rewrite N.eqb_refl. }
    destruct s as [| c' s'].
    + destruct pre; [| discriminate]. cbn [Str]. rewrite Hstep.
      cbn [app List.length]. now rewrite Nat.add_1_r.
    + change (Str (c :: c' :: s')) with (Seq (Lit c) (Str (c' :: s'))).
      rewrite matcher_Seq, Hstep, IH by exact Hc.
      cbn [List.length]. now rewrite Nat.add_succ_r.
Qed.

Lemma isSome_Alts ic (rs : list regex) (r : regex) k st :
  In r rs -> isSome (matcher ic r k st) = true ->
  isSome (matcher ic (Alts rs) k st) = true.
Proof.
  induction rs as [| r0 rs IH]; intros Hin Hr; [destruct Hin |].
  destruct rs as [| r1 rs'].
  - destruct Hin as [<- | []]. exact Hr.
  - change (Alts (r0 :: r1 :: rs')) with (Alt r0 (Alts (r1 :: rs'))).
    cbn [matcher].
    destruct (matcher ic r0 k st) eqn:E0; [reflexivity |].
    destruct Hin as [<- | Hin]; [now rewrite E0 in Hr |].
    now apply IH.
Qed.

Lemma canonical_isBuildFile (f : jsstring) :
  In (canonical f) manifestCanonical -> isBuildFile f = true.
Proof.
  unfold manifestCanonical. intros Hin.
  apply in_map_iff in Hin as (n & Hn & Hin). symmetry in Hn.
  unfold isBuildFile, matches.
  rewrite (regexMatch_anchored manifestRegex
             (Seq (Group 1 (Alts (map Text manifestNames))) Eol))
    by reflexivity.
  cbn [ignoreCase manifestRegex].
  rewrite matcher_Seq, matcher_Group.
  match goal with
  | |- isSome (match ?m with _ => _ end) = true =>
      assert (Hm : isSome m = true); [| now destruct m]
  end.
  apply (isSome_Alts true _ (Text n)); [now apply in_map |].
  unfold Text. rewrite <- (app_nil_r f) at 1.
  rewrite matcher_Str_ic by exact Hn.
  rewrite matcher_Eol. reflexivity.
Qed.

Lemma manifestCanonical_no_slash :
  forallb (fun n => negb (existsb (N.eqb (ch "/")) n)) manifestCanonical
  = true.
Proof. now vm_compute. Qed.

(** X16.  A path is a manifest exactly when the whole of it is one of the eleven
    names, letter case apart.  A manifest in a directory, such as
    [frontend/package.json], is therefore not one, and does not trigger the
    'deps' and 'build' suggestions. *)
Theorem isBuildFile_root_names (f : jsstring) :
  (isBuildFile f = true <-> In (canonical f) manifestCanonical)
  /\ (In (ch "/") f -> isBuildFile f = false).
Proof.
  split; [split; [apply isBuildFile_canonical | apply canonical_isBuildFile] |].
  intros Hslash. destruct (isBuildFile f) eqn:E; [| reflexivity].
  apply isBuildFile_canonical in E.
  pose proof (forallb_In _ _ _ manifestCanonical_no_slash E) as Hno.
  apply negb_true_iff in Hno.
  apply in_canonical in Hslash.
  assert (Hex : existsb (N.eqb (ch "/")) (canonical f) = true).
  { apply existsb_exists. exists (Canonicalize (ch "/")).
    split; [exact Hslash | reflexivity]. }
  congruence.
Qed.

Lemma isBuildFile_root_names_witness :
  isBuildFile (lit "frontend/package.json") = false
  /\ isBuildFile (lit "PACKAGE.json") = true.
Proof.
  split.
  - apply (proj2 (isBuildFile_root_names (lit "frontend/package.json"))).
    vm_compute. tauto.
  - apply (proj1 (isBuildFile_root_names (lit "PACKAGE.json"))).
    vm_compute. tauto.
Defined.

(** ** Staged changes *)

Lemma existsb_streq (x : jsstring) (l : list jsstring) :
  existsb (streq x) l = true <-> In x l.
Proof.
  rewrite existsb_exists. split.
  - intros (y & Hy & He). apply streq_true in He. now subst.
  - intros H. exists x. split; [exact H | apply streq_refl].
Qed.

Lemma dedupeFrom_In (f : jsstring) (xs seen : list jsstring) :
  In f (Git.dedupeFrom seen xs) <-> In f xs /\ ~ In f seen.
Proof.
  revert seen. induction xs as [| x xs IH]; intros seen; cbn [Git.dedupeFrom].
  - cbn. tauto.
  - destruct (existsb (streq x) seen) eqn:E.
    + apply existsb_streq in E. rewrite IH. cbn [In].
      split; [tauto |]. intros [[<- | H] Hn]; tauto.
    + assert (Hx : ~ In x seen).
      { intros H. apply existsb_streq in H. congruence. }
      cbn [In]. rewrite IH. cbn [In].
      destruct (list_eq_dec N.eq_dec x f) as [<- | Hne]; [tauto |].
      tauto.
Qed.

Lemma dedupeFrom_NoDup (xs seen : list jsstring) :
  NoDup (Git.dedupeFrom seen xs).
Proof.
  revert seen. induction xs as [| x xs IH]; intros seen; cbn [Git.dedupeFrom].
  - constructor.
  - destruct (existsb (streq x) seen); [apply IH |].
    constructor; [| apply IH].
    rewrite dedupeFrom_In. cbn [In]. tauto.
Qed.

Lemma fold_numstatStep_files (lines : list jsstring) (a d : Git.number)
    (fs : list jsstring) :
  snd (fold_left Git.numstatStep lines (a, d, fs))
  = fs ++ flat_map
            (fun line =>
               if (3 <=? List.length (split Git.TAB line))%nat
               then [nth 2 (split Git.TAB line) []] else [])
            lines.
Proof.
  revert a d fs. induction lines as [| l lines IH]; intros a d fs;
    cbn [fold_left flat_map].
  - now rewrite app_nil_r.
  - unfold Git.numstatStep at 2. cbv zeta.
    destruct (3 <=? List.length (split Git.TAB l))%nat.
    + rewrite IH. now rewrite <- app_assoc.
    + now rewrite IH.
Qed.

Lemma getStagedDiff_files_eq (diffOutput : jsstring)
    (status : Git.StatusResult) :
  Git.files (Git.getStagedDiff diffOutput status)
  = Git.dedupe
      (Git.numstatPaths diffOutput
         ++ Git.staged status ++ Git.created status
         ++ filter (fun f => existsb (streq f) (Git.staged status))
              (Git.modified status)).
Proof.
  unfold Git.getStagedDiff, Git.numstatPaths. cbv zeta.
  pose proof (fold_numstatStep_files
                (filter (fun line => 0 <? len (trim line))
                   (split NL diffOutput)) (Git.Finite 0) (Git.Finite 0) [])
    as H.
  destruct (fold_left Git.numstatStep _ _) as [[a d] fs].
  cbn [snd app] in H. cbn [Git.files]. now rewrite H.
Qed.

Lemma getStagedDiff_In (diffOutput : jsstring) (status : Git.StatusResult)
    (f : jsstring) :
  In f (Git.files (Git.getStagedDiff diffOutput status))
  <-> In f (Git.numstatPaths diffOutput)
      \/ In f (Git.staged status) \/ In f (Git.created status).
Proof.
  rewrite getStagedDiff_files_eq. unfold Git.dedupe.
  rewrite dedupeFrom_In. rewrite !in_app_iff, filter_In.
  rewrite existsb_streq. cbn [In]. tauto.
Qed.

(** X17.  The files that [getStagedDiff] returns are, without repetition, the
    paths of the numstat output together with the staged and the created
    files of the status; the modified files that the source adds are
    already among the staged ones. *)
Theorem getStagedDiff_files (diffOutput : jsstring)
    (status : Git.StatusResult) :
  let r := Git.getStagedDiff diffOutput status in
  NoDup (Git.files r)
  /\ (forall f,
        In f (Git.files r)
        <-> In f (Git.numstatPaths diffOutput)
            \/ In f (Git.staged status) \/ In f (Git.created status)).
Proof.
  cbv zeta. split; [| intros f; apply getStagedDiff_In].
  rewrite getStagedDiff_files_eq. apply dedupeFrom_NoDup.
Qed.

Lemma suggestCommitType_some (stats : DiffStats) :
  files stats <> [] -> exists s, suggestCommitType stats = Ok s.
Proof.
  intros Hne. unfold suggestCommitType, suggestion. cbv zeta.
  destruct (files stats) as [| f fs] eqn:E; [contradiction |].
  cbn [List.length Nat.eqb].
  repeat match goal with
         | |- context [if ?c then _ else _] => destruct c
         end; eexists; reflexivity.
Qed.

(** X18.  Whenever [hasStagedChanges] answers true for a status,
    [getStagedDiff] returns at least one file for that status, whatever
    the numstat output, so that [suggestCommitType] returns a suggestion
    and does not fail for lack of staged changes. *)
Theorem hasStagedChanges_suggests (diffOutput : jsstring)
    (status : Git.StatusResult) (a d : N) :
  Git.hasStagedChanges status = true ->
  Git.files (Git.getStagedDiff diffOutput status) <> []
  /\ exists s,
       suggestCommitType
         {| additions := a; deletions := d;
            files := Git.files (Git.getStagedDiff diffOutput status) |}
       = Ok s.
Proof.
  intros H.
  assert (Hne : Git.files (Git.getStagedDiff diffOutput status) <> []).
  { pose proof (getStagedDiff_In diffOutput status) as Hin.
    unfold Git.hasStagedChanges in H.
    apply orb_true_iff in H as [H | H]; apply Nat.ltb_lt in H.
    - destruct (Git.staged status) as [| x xs] eqn:E;
        [cbn in H; lia |].
      intros Hnil. assert (Hx : In x (Git.files
                                        (Git.getStagedDiff diffOutput status)))
        by (apply Hin; right; left; now left).
      rewrite Hnil in Hx. destruct Hx.
    - destruct (Git.created status) as [| x xs] eqn:E;
        [cbn in H; lia |].
      intros Hnil. assert (Hx : In x (Git.files
                                        (Git.getStagedDiff diffOutput status)))
        by (apply Hin; right; right; now left).
      rewrite Hnil in Hx. destruct Hx. }
  split; [exact Hne |]. now apply suggestCommitType_some.
Qed.

Lemma hasStagedChanges_suggests_witness :
  exists s,
    suggestCommitType
      {| additions := 112; deletions := 3;
         files := Git.files (Git.getStagedDiff [] Git.sampleStatus) |}
    = Ok s.
Proof.
  exact (proj2 (hasStagedChanges_suggests [] Git.sampleStatus 112 3 eq_refl)).
Defined.

(** *** Reading the counts *)

Lemma lit_String (a : ascii) (s : string) :
  lit (String a s) = N_of_ascii a :: lit s.
Proof. reflexivity. Qed.

Ltac ascii_codes :=
  repeat match goal with
         | |- context [N_of_ascii ?a] =>
             let x := eval vm_compute in (N_of_ascii a) in
             change (N_of_ascii a) with x
         end.

Lemma digit_not_space (c : N) : 48 <= c <= 57 -> isWhiteSpace c = false.
Proof.
  intros Hc. destruct (isWhiteSpace c) eqn:E; [| reflexivity].
  unfold isWhiteSpace, isLineTerminator in E.
  rewrite !orb_true_iff, andb_true_iff, !N.eqb_eq, !N.leb_le in E. lia.
Qed.

Lemma digitOf_decimal (c : N) :
  48 <= c <= 57 -> Git.digitOf 10 c = Some (Z.of_N c - 48)%Z.
Proof.
  intros Hc. unfold Git.digitOf.
  assert (H1 : (48 <=? c) && (c <=? 57) = true)
    by (apply andb_true_iff; rewrite !N.leb_le; lia).
  change 0x30 with 48. change 0x39 with 57. rewrite H1.
  assert (H2 : (Z.of_N c - 0x30 <? 10)%Z = true) by (apply Z.ltb_lt; lia).
  now rewrite H2.
Qed.

(** The characters of a decimal numeral. *)
Lemma uint_digits (u : Decimal.uint) :
  Forall (fun c => 48 <= c <= 57) (lit (NilEmpty.string_of_uint u)).
Proof.
  induction u; cbn [NilEmpty.string_of_uint]; rewrite ?lit_String;
    try (constructor; [ascii_codes; lia | assumption]).
  constructor.
Qed.

Lemma digitsOf_all (s : jsstring) :
  Forall (fun c => 48 <= c <= 57) s ->
  Git.digitsOf 10 s = map (fun c => (Z.of_N c - 48)%Z) s.
Proof.
  induction 1 as [| c s Hc Hs IH]; cbn [Git.digitsOf map]; [reflexivity |].
  now rewrite digitOf_decimal, IH.
Qed.

Lemma value_acc (u : Decimal.uint) (p : positive) :
  fold_left (fun acc d => (acc * 10 + d)%Z)
    (map (fun c => (Z.of_N c - 48)%Z) (lit (NilEmpty.string_of_uint u))) (Z.pos p)
  = Z.pos (Pos.of_uint_acc u p).
Proof.
  revert p. induction u; intros p; cbn [NilEmpty.string_of_uint Pos.of_uint_acc];
    rewrite ?lit_String; cbn [map fold_left]; [reflexivity | ..];
    rewrite <- IHu; f_equal; ascii_codes; lia.
Qed.

Lemma value_uint (u : Decimal.uint) :
  fold_left (fun acc d => (acc * 10 + d)%Z)
    (map (fun c => (Z.of_N c - 48)%Z) (lit (NilEmpty.string_of_uint u))) 0%Z
  = Z.of_N (Pos.of_uint u).
Proof.
  induction u; cbn [NilEmpty.string_of_uint Pos.of_uint];
    rewrite ?lit_String; cbn [map fold_left]; [reflexivity | exact IHu | ..];
    cbn [Z.of_N]; rewrite <- value_acc; f_equal; ascii_codes; lia.
Qed.

(** [parseInt] on a text made of decimal digits. *)
Lemma parseInt_digits (c : N) (s : jsstring) :
  Forall (fun c => 48 <= c <= 57) (c :: s) ->
  Git.parseInt (c :: s)
  = Git.toDouble (fold_left (fun acc d => (acc * 10 + d)%Z)
                    (map (fun c => (Z.of_N c - 48)%Z) (c :: s)) 0%Z).
Proof.
  intros Hall. inversion Hall as [| ? ? Hc Hs]; subst.
  unfold Git.parseInt. cbn [dropWhile]. rewrite (digit_not_space c Hc).
  assert (Hm : (c =? ch "-") = false) by (apply N.eqb_neq; cbn; lia).
  assert (Hp : (c =? ch "+") = false) by (apply N.eqb_neq; cbn; lia).
  rewrite Hm, Hp.
  rewrite <- (digitsOf_all _ Hall).
  destruct s as [| c1 s'].
  - cbv beta iota zeta. cbn [Git.digitsOf]. rewrite (digitOf_decimal c Hc).
    now rewrite Z.mul_1_l.
  - inversion Hs as [| ? ? Hc1 _]; subst.
    assert (Hx : (c1 =? ch "x") = false) by (apply N.eqb_neq; cbn; lia).
    assert (HX : (c1 =? ch "X") = false) by (apply N.eqb_neq; cbn; lia).
    cbv beta iota zeta. rewrite Hx, HX, andb_false_r.
    cbn [Git.digitsOf]. rewrite (digitOf_decimal c Hc).
    now rewrite Z.mul_1_l.
Qed.

Lemma numberToString_shape (n : N) :
  exists c s,
    numberToString n = c :: s
    /\ Forall (fun c => 48 <= c <= 57) (c :: s)
    /\ fold_left (fun acc d => (acc * 10 + d)%Z)
         (map (fun c => (Z.of_N c - 48)%Z) (c :: s)) 0%Z
       = Z.of_N n.
Proof.
  unfold numberToString.
  pose proof (DecimalN.Unsigned.of_to n) as Hn. unfold N.of_uint in Hn.
  pose proof (uint_digits (N.to_uint n)) as Hd.
  pose proof (value_uint (N.to_uint n)) as Hv. rewrite Hn in Hv.
  destruct (N.to_uint n) as [| u | u | u | u | u | u | u | u | u | u] eqn:E;
    cbn [NilZero.string_of_uint];
    [ exists 48, []; split; [reflexivity |];
      split; [constructor; [lia | constructor] |];
      cbn in Hn; now subst n
    | .. ];
    cbn [NilEmpty.string_of_uint] in Hd, Hv |- *; rewrite lit_String in Hd, Hv |- *;
    eexists _, _; (split; [reflexivity |]); (split; [exact Hd | exact Hv]).
Qed.

(** Integers of at most 53 bits are doubles. *)
Lemma toDouble_exact (z : Z) :
  (Z.abs z < 2 ^ 53)%Z -> Git.toDouble z = Git.Finite z.
Proof.
  intros Hz. unfold Git.toDouble. cbv zeta.
  assert (Hl : (Z.log2 (Z.abs z) - 52 <= 0)%Z).
  { destruct (Z.eq_dec (Z.abs z) 0) as [-> | Hne]; [cbn; lia |].
    assert (Z.log2 (Z.abs z) < 53)%Z by (apply Z.log2_lt_pow2; lia). lia. }
  rewrite Z.max_r by exact Hl.
  assert (Hr : roundNearestEven (Z.abs z) (2 ^ 0) = Z.abs z).
  { unfold roundNearestEven. cbv zeta. change (2 ^ 0)%Z with 1%Z.
    now rewrite Z.div_1_r, Z.mod_1_r. }
  rewrite Hr. change (2 ^ 0)%Z with 1%Z. rewrite Z.mul_1_r.
  assert (Hbig : (2 ^ 53 < 2 ^ 1024)%Z) by (apply Z.pow_lt_mono_r; lia).
  destruct (Z.leb_spec (2 ^ 1024) (Z.abs z)) as [Hge | _]; [lia |].
  f_equal. rewrite Z.mul_comm. apply Z.abs_sgn.
Qed.

(** Reading a printed count gives the count, as long as the count is a
    double. *)
Lemma parseInt_numberToString (n : N) :
  n < 2 ^ 53 -> Git.parseInt (numberToString n) = Git.Finite (Z.of_N n).
Proof.
  intros Hn.
  destruct (numberToString_shape n) as (c & s & -> & Hall & Hv).
  rewrite parseInt_digits, Hv by exact Hall. apply toDouble_exact.
  change (2 ^ 53)%Z with (Z.of_N (2 ^ 53)). lia.
Qed.

Lemma orZero_countText (c : option N) :
  (Git.countOf c < 2 ^ 53)%Z ->
  Git.orZero (Git.parseInt (Git.countText c)) = Git.Finite (Git.countOf c).
Proof.
  destruct c as [n |]; cbn [Git.countText Git.countOf]; intros Hc.
  - rewrite parseInt_numberToString
      by (change (2 ^ 53)%Z with (Z.of_N (2 ^ 53)) in Hc; lia).
    cbn [Git.orZero]. destruct (Z.eqb_spec (Z.of_N n) 0) as [-> | _];
      reflexivity.
  - reflexivity.
Qed.

Lemma countOf_nonneg (c : option N) : (0 <= Git.countOf c)%Z.
Proof. destruct c; cbn [Git.countOf]; lia. Qed.

Lemma total_nonneg (f : Git.Entry -> option N) (entries : list Git.Entry) :
  (0 <= Git.total f entries)%Z.
Proof.
  induction entries as [| e es IH]; cbn [Git.total fold_right]; [lia |].
  fold (Git.total f es). pose proof (countOf_nonneg (f e)). lia.
Qed.

(** *** Reading the lines *)

Lemma countText_shape (c : option N) :
  exists a s,
    Git.countText c = a :: s
    /\ isWhiteSpace a = false
    /\ ~ In Git.TAB (a :: s) /\ ~ In NL (a :: s).
Proof.
  destruct c as [n |]; cbn [Git.countText].
  - destruct (numberToString_shape n) as (a & s & -> & Hall & _).
    exists a, s. split; [reflexivity |].
    inversion Hall as [| ? ? Ha _]; subst.
    split; [now apply digit_not_space |].
    rewrite Forall_forall in Hall.
    split; intros Hin; apply Hall in Hin; cbv in Hin; intuition discriminate.
  - exists (ch "-"), []. split; [reflexivity |]. split; [reflexivity |].
    split; cbn; intuition discriminate.
Qed.

Lemma numstatLine_parts (e : Git.Entry) :
  ~ In Git.TAB (Git.path e) ->
  split Git.TAB (Git.numstatLine e)
  = [Git.countText (Git.added e); Git.countText (Git.deleted e); Git.path e].
Proof.
  intros Hp. unfold Git.numstatLine.
  destruct (countText_shape (Git.added e)) as (a & s & Ea & _ & Ha & _).
  destruct (countText_shape (Git.deleted e)) as (b & t & Eb & _ & Hb & _).
  rewrite Ea, Eb in *.
  change ((a :: s) ++ [Git.TAB] ++ (b :: t) ++ [Git.TAB] ++ Git.path e)
    with ((a :: s) ++ Git.TAB :: (b :: t) ++ Git.TAB :: Git.path e).
  rewrite split_app_sep by exact Ha.
  rewrite split_app_sep by exact Hb.
  now rewrite split_no_sep by exact Hp.
Qed.

Lemma numstatLine_not_blank (e : Git.Entry) :
  (0 <? len (trim (Git.numstatLine e))) = true.
Proof.
  destruct (len (trim (Git.numstatLine e)) =? 0) eqn:E.
  - apply len_zero in E. apply trim_nil in E.
    unfold Git.numstatLine in E.
    destruct (countText_shape (Git.added e)) as (a & s & Ea & Hw & _).
    rewrite Ea in E. cbn [app forallb] in E. rewrite Hw in E. discriminate.
  - apply N.eqb_neq in E. apply N.ltb_lt. lia.
Qed.

Lemma numstatLine_no_newline (e : Git.Entry) :
  ~ In NL (Git.path e) -> ~ In NL (Git.numstatLine e).
Proof.
  intros Hp. unfold Git.numstatLine.
  destruct (countText_shape (Git.added e)) as (a & s & Ea & _ & _ & Ha).
  destruct (countText_shape (Git.deleted e)) as (b & t & Eb & _ & _ & Hb).
  rewrite Ea, Eb. intros Hin.
  repeat (apply in_app_or in Hin as [Hin | Hin]); try tauto;
    destruct Hin as [Hin | []]; discriminate Hin.
Qed.

Lemma numstatOutput_lines (entries : list Git.Entry) :
  Forall Git.pathOK entries ->
  filter (fun line => 0 <? len (trim line))
    (split NL (Git.numstatOutput entries))
  = map Git.numstatLine entries.
Proof.
  induction 1 as [| e es [_ He] Hes IH]; [reflexivity |].
  unfold Git.numstatOutput. cbn [flat_map map].
  fold (Git.numstatOutput es). rewrite <- app_assoc. cbn [app].
  rewrite split_app_sep by (now apply numstatLine_no_newline).
  cbn [filter]. now rewrite numstatLine_not_blank, IH.
Qed.

Lemma fold_numstatStep_entries (entries : list Git.Entry) (a d : Z)
    (fs : list jsstring) :
  Forall Git.pathOK entries ->
  (0 <= a)%Z -> (a + Git.total Git.added entries < 2 ^ 53)%Z ->
  (0 <= d)%Z -> (d + Git.total Git.deleted entries < 2 ^ 53)%Z ->
  fold_left Git.numstatStep (map Git.numstatLine entries)
    (Git.Finite a, Git.Finite d, fs)
  = (Git.Finite (a + Git.total Git.added entries),
     Git.Finite (d + Git.total Git.deleted entries),
     fs ++ map Git.path entries).
Proof.
  intros H. revert a d fs.
  induction H as [| e es [He _] Hes IH]; intros a d fs Ha Hta Hd Htd;
    cbn [map fold_left Git.total fold_right] in *.
  - now rewrite !Z.add_0_r, app_nil_r.
  - fold (Git.total Git.added es) in *. fold (Git.total Git.deleted es) in *.
    pose proof (countOf_nonneg (Git.added e)) as Hae.
    pose proof (countOf_nonneg (Git.deleted e)) as Hde.
    pose proof (total_nonneg Git.added es) as Has.
    pose proof (total_nonneg Git.deleted es) as Hds.
    unfold Git.numstatStep at 2. cbv zeta.
    rewrite (numstatLine_parts e He). cbn [List.length Nat.leb nth].
    rewrite !orZero_countText by lia. cbn [Git.add].
    rewrite !toDouble_exact by lia.
    rewrite IH by lia. rewrite <- app_assoc.
    now rewrite !Z.add_assoc.
Qed.

(** X19.  [getStagedDiff] reads the numstat output of git exactly: when the
    output has one line per file, with the two counts in decimal, or a dash
    each for a binary file, and a path without tab and newline, and the
    added lines and the deleted lines each add up to less than [2^53], so
    that no double of the source is rounded, the additions and the deletions
    are the sums of the printed counts, a dash counting for nothing, and the
    paths read are the paths printed, in order. *)
Theorem getStagedDiff_numstat (entries : list Git.Entry)
    (status : Git.StatusResult) :
  Forall Git.pathOK entries ->
  (Git.total Git.added entries < 2 ^ 53)%Z ->
  (Git.total Git.deleted entries < 2 ^ 53)%Z ->
  let r := Git.getStagedDiff (Git.numstatOutput entries) status in
  Git.additions r = Git.Finite (Git.total Git.added entries)
  /\ Git.deletions r = Git.Finite (Git.total Git.deleted entries)
  /\ Git.numstatPaths (Git.numstatOutput entries) = map Git.path entries
  /\ (forall e, In e entries -> In (Git.path e) (Git.files r)).
Proof.
  intros H Ha Hd r.
  assert (Hpaths : Git.numstatPaths (Git.numstatOutput entries)
                   = map Git.path entries).
  { unfold Git.numstatPaths. rewrite (numstatOutput_lines entries H).
    clear r Ha Hd. induction H as [| e es [He _] Hes IH]; [reflexivity |].
    cbn [map flat_map]. rewrite (numstatLine_parts e He).
    cbn [List.length Nat.leb nth app]. f_equal. exact IH. }
  subst r. unfold Git.getStagedDiff. cbv zeta.
  rewrite (numstatOutput_lines entries H).
  rewrite (fold_numstatStep_entries entries 0 0 [] H) by lia.
  cbn [Git.additions Git.deletions Git.files app].
  split; [reflexivity |]. split; [reflexivity |]. split; [exact Hpaths |].
  intros e He. unfold Git.dedupe. apply dedupeFrom_In.
  split; [| intros []]. apply in_or_app. left. now apply in_map.
Qed.

Lemma getStagedDiff_numstat_witness :
  Git.additions
    (Git.getStagedDiff (Git.numstatOutput Git.sampleEntries) Git.sampleStatus)
  = Git.Finite 112
  /\ Git.deletions
       (Git.getStagedDiff (Git.numstatOutput Git.sampleEntries)
          Git.sampleStatus)
     = Git.Finite 3.
Proof.
  assert (H : Forall Git.pathOK Git.sampleEntries).
  { repeat constructor; cbn; intuition discriminate. }
  destruct (getStagedDiff_numstat Git.sampleEntries Git.sampleStatus H)
    as (Ha & Hd & _); [vm_compute; reflexivity | vm_compute; reflexivity |].
  split; [exact Ha | exact Hd].
Defined.

(** ** The other tools and the dispatcher *)

Section Tools.

Variables toUpperCase toLowerCase : jsstring -> jsstring.

Local Abbreviation validate := (validateCommitMessage toUpperCase toLowerCase).
Local Abbreviation handleValidate :=
  (handleValidateMessage toUpperCase toLowerCase).

Lemma invalid_one_issue (message : jsstring) :
  valid (validate message) = false ->
  exists issue, issues (validate message) = [issue].
Proof.
  intros Hv.
  destruct (validate_cases toUpperCase toLowerCase message)
    as [[_ H] | [[_ H] | [(em & _ & _ & H) | (em & tm & _ & _ & H)]]];
    try (eexists; exact H).
  destruct H as [H | [(ty & H) | (e & ty & x & H)]];
    try (eexists; exact H).
  apply valid_iff_no_issue in H. congruence.
Qed.

(** X20.  The answer of the validation tool, for every value sent as the
    arguments.  Called without arguments, the tool fails on reading the
    message, with a [TypeError].  When the arguments have no message, or a
    falsy one ([undefined], [null], [false], zero, the empty string), it
    fails with 'Message is required'.  A truthy message that is not a
    string fails in [validateCommitMessage], with a [TypeError].  For a
    non-empty string the tool answers: for a valid message, the line that
    says so; for an invalid one, the heading and exactly one numbered
    issue; in both cases followed by the warnings, if any. *)
Theorem handleValidateMessage_report (args : jsvalue) :
  handleValidate VUndefined = Throw (Error MSG_NO_MESSAGE_OF_UNDEFINED)
  /\ handleValidate VNull = Throw (Error MSG_NO_MESSAGE_OF_NULL)
  /\ (forall message,
        readMessage args = Ok message ->
        truthyValue message = false ->
        handleValidate args = Throw (Error MSG_REQUIRED))
  /\ (forall message,
        readMessage args = Ok message ->
        truthyValue message = true ->
        (forall m, message <> VString m) ->
        handleValidate args = Throw (Error MSG_NO_TRIM))
  /\ (forall m,
        readMessage args = Ok (VString m) ->
        m <> [] ->
        let v := validate m in
        if valid v
        then handleValidate args
             = Ok {| content :=
                       [ {| text := MSG_IS_VALID
                                      ++ warningsSection (warnings v) |} ] |}
        else exists issue,
               issues v = [issue]
               /\ handleValidate args
                  = Ok {| content :=
                            [ {| text := MSG_HAS_ISSUES ++ lit "1. " ++ issue
                                           ++ [NL]
                                           ++ warningsSection (warnings v) |}
                            ] |}).
Proof.
  split; [reflexivity |]. split; [reflexivity |]. split; [| split].
  - intros message Hr Ht. unfold handleValidateMessage.
    now rewrite Hr, Ht.
  - intros message Hr Ht Hs. unfold handleValidateMessage.
    rewrite Hr, Ht. cbn [negb].
    destruct message as [| | b | n | m | items | props]; try reflexivity.
    now contradiction (Hs m).
  - intros m Hr Hm v. unfold handleValidateMessage. rewrite Hr.
    apply truthy_true in Hm. cbn [truthyValue]. rewrite Hm. cbn [negb].
    cbv zeta. fold v.
    destruct (valid v) eqn:Hv; [reflexivity |].
    destruct (invalid_one_issue m Hv) as (issue & Hi). fold v in Hi.
    exists issue. split; [exact Hi |]. rewrite Hi.
    cbn [numbered]. change (numberToString (0 + 1)) with (lit "1").
    now rewrite <- !app_assoc.
Qed.

End Tools.

Lemma handleValidateMessage_report_witness :
  exists issue,
    issues (validateCommitMessage asciiUpper asciiLower (lit "fix it"))
    = [issue]
    /\ handleValidateMessage asciiUpper asciiLower
         (messageArgs (VString (lit "fix it")))
       = Ok {| content :=
                 [ {| text := MSG_HAS_ISSUES ++ lit "1. " ++ issue ++ [NL]
                                ++ warningsSection
                                     (warnings
                                        (validateCommitMessage asciiUpper
                                           asciiLower (lit "fix it"))) |} ]
            |}.
Proof.
  assert (Hne : lit "fix it" <> []) by discriminate.
  pose proof (proj2 (proj2 (proj2 (proj2
                (handleValidateMessage_report asciiUpper asciiLower
                   (messageArgs (VString (lit "fix it")))))))
                (lit "fix it") eq_refl Hne) as H.
  cbv zeta in H.
  assert (Hv : valid (validateCommitMessage asciiUpper asciiLower
                        (lit "fix it")) = false)
    by (vm_compute; reflexivity).
  rewrite Hv in H. exact H.
Defined.

(** X21.  The suggestion tool never fails on the lookup of the description: the
    type of a suggestion is always a key of the table, and the answer ends
    with the description that the table gives for it.  Without files, the
    tool fails as [suggestCommitType] does. *)
Theorem handleSuggestType_describes (stats : DiffStats) :
  (files stats = [] -> handleSuggestType stats = Throw (Error MSG_NO_STAGED))
  /\ (files stats <> [] ->
      exists s info,
        suggestCommitType stats = Ok s
        /\ assoc (SuggestionResult.type s) COMMIT_TYPES = Some info
        /\ handleSuggestType stats
           = Ok {| content :=
                     [ {| text :=
                            suggestionText s
                              (CommitTypeInfo.description info) |} ] |}).
Proof.
  split.
  - intros H. unfold handleSuggestType, suggestCommitType. cbv zeta.
    now rewrite H.
  - intros H. destruct (suggestCommitType_some stats H) as (s & Hs).
    destruct (suggested_type stats s Hs) as [Hin _].
    apply suggestedTypes_plain in Hin. unfold plainType in Hin.
    destruct (assoc (SuggestionResult.type s) COMMIT_TYPES) as [info |] eqn:E;
      [| discriminate].
    exists s, info. split; [exact Hs |]. split; [exact E |].
    unfold handleSuggestType, descriptionOf. rewrite Hs.
    now rewrite (assoc_getProperty _ _ E).
Qed.

Lemma handleSuggestType_describes_witness :
  exists s info,
    suggestCommitType sourceChange = Ok s
    /\ assoc (SuggestionResult.type s) COMMIT_TYPES = Some info
    /\ handleSuggestType sourceChange
       = Ok {| content :=
                 [ {| text :=
                        suggestionText s (CommitTypeInfo.description info) |} ]
            |}.
Proof.
  apply (proj2 (handleSuggestType_describes sourceChange)). discriminate.
Defined.

Section Requests.

Variables toUpperCase toLowerCase : jsstring -> jsstring.
Variable World : Type.
Variable hasStagedChanges : World -> result bool * World.
Variable createCommit : jsstring -> World -> result jsstring * World.
Variable getStagedDiff : World -> result DiffStats * World.

Local Abbreviation request :=
  (callTool toUpperCase toLowerCase World hasStagedChanges createCommit
     getStagedDiff).

(** X22.  No tool call fails: the request handler always returns a payload.  A
    payload flagged as an error holds one text that starts with 'Error: ';
    a call of a tool that does not exist gets the payload
    'Error: Unknown tool: <name>', and neither queries nor changes the
    repository. *)
Theorem callTool_never_throws (name : jsstring) (args : ToolArgs)
    (w : World) (log : list call) :
  (exists r w' log',
     request name args w log = (Ok r, w', log')
     /\ (isError r = Some true ->
         exists m, resultContent r = [ {| text := lit "Error: " ++ m |} ]))
  /\ (~ In name toolNames ->
      request name args w log
      = (Ok (toolError (Error (lit "Unknown tool: " ++ name))), w, log)).
Proof.
  split.
  - unfold callTool.
    destruct (dispatch _ _ _ _ _ _ name args w log) as [[[r | e] w'] log'].
    + eexists _, _, _. split; [reflexivity |]. cbn. discriminate.
    + eexists _, _, _. split; [reflexivity |]. intros _.
      eexists. reflexivity.
  - intros Hn. unfold callTool, dispatch.
    assert (Hname : forall t, In t toolNames -> streq name t = false).
    { intros t Ht. destruct (streq name t) eqn:E; [| reflexivity].
      apply streq_true in E. subst. contradiction. }
    rewrite !Hname by (unfold toolNames; cbn [map In]; tauto).
    reflexivity.
Qed.

End Requests.

Lemma callTool_never_throws_witness :
  callTool asciiUpper asciiLower unit alwaysStaged (commitAs (lit "abc1234"))
    failingDiff (lit "git_push") noArgs tt []
  = (Ok (toolError (Error (lit "Unknown tool: git_push"))), tt, []).
Proof.
  apply (proj2 (callTool_never_throws asciiUpper asciiLower unit alwaysStaged
                  (commitAs (lit "abc1234")) failingDiff (lit "git_push")
                  noArgs tt [])).
  vm_compute. intuition discriminate.
Defined.

(** ** The repository path of a call *)

Lemma trim_not_blank (s : jsstring) :
  (0 <? len (trim s)) = negb (forallb isWhiteSpace s).
Proof.
  destruct (forallb isWhiteSpace s) eqn:E.
  - apply trim_nil in E. now rewrite E.
  - destruct (trim s) as [| c t] eqn:Et.
    + assert (H : trim s = []) by exact Et.
      apply trim_nil in H. congruence.
    + reflexivity.
Qed.

(** X23.  The path that [extractRepoPath] returns is never empty and neither
    starts nor ends with whitespace.  A [repo_path] that is a string
    decides alone: when it is blank there is no path, even if [repoPath]
    holds one. *)
Theorem extractRepoPath_result (args : jsvalue) :
  (forall p, extractRepoPath args = Some p -> p <> [] /\ trimmed p)
  /\ (forall record raw,
        args = VObject record ->
        getField (lit "repo_path") record = VString raw ->
        extractRepoPath args
        = if forallb isWhiteSpace raw then None else Some (trim raw)).
Proof.
  split.
  - intros p. unfold extractRepoPath.
    destruct args as [| | b | n | s | items | record]; try discriminate.
    cbv zeta.
    destruct (coalesce _ _) as [| | b | n | raw | items | props]; try discriminate.
    destruct (0 <? len (trim raw)) eqn:E; [| discriminate].
    intros [= <-]. split; [| apply trim_trimmed].
    intros H. rewrite H in E. discriminate.
  - intros record raw -> Hraw. unfold extractRepoPath, coalesce.
    rewrite Hraw. cbn [nullish]. cbv zeta. rewrite trim_not_blank.
    now destruct (forallb isWhiteSpace raw).
Qed.

Lemma extractRepoPath_result_witness :
  extractRepoPath blankThenPath = None.
Proof.
  exact (proj2 (extractRepoPath_result blankThenPath) _ (lit "  ") eq_refl
           eq_refl).
Defined.

(** ** A second round trip changes nothing *)

Lemma startsWith_prefix (s n : jsstring) :
  startsWith s n = true <-> exists post, s = n ++ post.
Proof.
  revert s. induction n as [| c n IH]; intros s; cbn [startsWith].
  - split; [intros _; now exists s | intros _; now destruct s].
  - destruct s as [| a s]; cbn [startsWith];
      [split; [discriminate | intros (p & H); discriminate] |].
    rewrite andb_true_iff, N.eqb_eq, IH. split.
    + intros [-> (post & ->)]. now exists post.
    + intros (post & H). injection H as -> ->. split; [reflexivity |].
      now exists post.
Qed.

Lemma includes_occurs (s n : jsstring) :
  includes s n = true <-> occursIn n s.
Proof.
  unfold occursIn. induction s as [| a s IH]; cbn [includes].
  - rewrite orb_false_r, startsWith_prefix. split.
    + intros (post & H). now exists [], post.
    + intros (pre & post & H). destruct pre; [now exists post |].
      discriminate.
  - rewrite orb_true_iff, startsWith_prefix, IH. split.
    + intros [(post & H) | (pre & post & H)].
      * now exists [], post.
      * exists (a :: pre), post. now rewrite H.
    + intros (pre & post & H). destruct pre as [| b pre].
      * left. now exists post.
      * right. injection H as -> H. now exists pre, post.
Qed.

Lemma dropWhile_app_stops p (pre r : jsstring) :
  stops p r -> dropWhile p (pre ++ r) = dropWhile p pre ++ r.
Proof.
  intros Hr. induction pre as [| c pre IH]; cbn [app dropWhile].
  - destruct r as [| a r]; [reflexivity |]. cbn in Hr |- *. now rewrite Hr.
  - destruct (p c); [exact IH | reflexivity].
Qed.

Lemma stops_app p (a b : jsstring) : a <> [] -> stops p a -> stops p (a ++ b).
Proof. destruct a; [contradiction | auto]. Qed.

Lemma occursIn_trim (m s : jsstring) :
  m <> [] -> stops isWhiteSpace m -> stops isWhiteSpace (rev m) ->
  occursIn m s -> occursIn m (trim s).
Proof.
  intros Hm Hl Hr (pre & post & ->). unfold trim.
  rewrite dropWhile_app_stops by (now apply stops_app).
  rewrite !rev_app_distr, <- app_assoc.
  rewrite dropWhile_app_stops.
  2:{ apply stops_app; [| exact Hr]. intros H.
      apply (f_equal (@rev N)) in H. rewrite rev_involutive in H.
      now apply Hm. }
  rewrite !rev_app_distr, !rev_involutive, <- app_assoc.
  eexists _, _. reflexivity.
Qed.

Lemma stops_dropWhile p (s : jsstring) : stops p s -> dropWhile p s = s.
Proof. destruct s as [| c s]; [reflexivity |]. cbn. now intros ->. Qed.

Lemma trimmed_trim (s : jsstring) : trimmed s -> trim s = s.
Proof.
  intros [Hl Hr]. unfold trim.
  now rewrite (stops_dropWhile _ s Hl), (stops_dropWhile _ _ Hr),
    rev_involutive.
Qed.

Lemma includes_trim_marker (s : jsstring) :
  includes s BREAKING_MARKER = true ->
  includes (trim s) BREAKING_MARKER = true.
Proof.
  rewrite !includes_occurs. apply occursIn_trim; [discriminate | | ];
    reflexivity.
Qed.

Lemma validatable_headerOK (f : CommitParams.t) (info : CommitTypeInfo.t) :
  validatable f = true ->
  assoc (CommitParams.type f) COMMIT_TYPES = Some info ->
  headerOK (CommitTypeInfo.emoji info) f = true.
Proof.
  intros Hf Hi. unfold validatable, plainType in Hf. rewrite Hi in Hf.
  rewrite !andb_true_iff in Hf. destruct Hf as [[[[Hl He] Hw] Hs] Ht].
  unfold headerOK, tokenOK, wordOK. rewrite He, Hw, Hl, Hs, Ht.
  destruct (CommitParams.type f); [discriminate | reflexivity].
Qed.

(** The round trip on well-formed fields, for any type of the table that
    the header pattern reads. *)
Lemma parse_formatted (f : CommitParams.t) :
  wellFormed f = true ->
  exists m, formatCommitMessage f = Ok m
            /\ parseCommitMessage m = Some (parsedBack f).
Proof.
  unfold wellFormed. rewrite !andb_true_iff.
  intros [[[Hf Hscope] Htitle] Hdesc]. apply negb_true_iff in Htitle.
  destruct (validatable_parts f Hf) as (info & Hi & _).
  pose proof (validatable_headerOK f info Hf Hi) as Hh.
  eexists. split; [exact (formatted_message f info Hi) |].
  rewrite (parse_header_with _ f (messageTail f) Hh Hscope Htitle
             (messageTail_shape f)).
  cbv zeta.
  rewrite (parsed_description f _ (headerOK_no_newline _ f Hh) Hdesc).
  reflexivity.
Qed.

Lemma parsedBack_wellFormed (f : CommitParams.t) :
  wellFormed f = true -> notBlank (CommitParams.description f) = true ->
  wellFormed (parsedBack f) = true.
Proof.
  unfold wellFormed, validatable, parsedBack, writtenDescription.
  cbn [CommitParams.type CommitParams.scope CommitParams.title
         CommitParams.description].
  rewrite !andb_true_iff. intros [[[Hf Hscope] Htitle] Hdesc] Hnb.
  split; [split; [split |] |]; auto.
  destruct (CommitParams.description f) as [d |]; [| reflexivity].
  cbn [option_map presentOrAbsent notBlank] in *.
  apply truthy_true. intros H. apply trim_nil in H.
  rewrite forallb_app in H. apply andb_prop in H as [H _].
  rewrite H in Hnb. discriminate.
Qed.

Lemma written_again (f : CommitParams.t) :
  option_map trim (writtenDescription (parsedBack f))
  = option_map trim (writtenDescription f).
Proof.
  unfold writtenDescription at 1.
  change (CommitParams.description (parsedBack f))
    with (option_map trim (writtenDescription f)).
  destruct (writtenDescription f) as [x |] eqn:Ew; cbn [option_map];
    [| reflexivity].
  f_equal.
  assert (Hinc : CommitParams.breaking f = true -> x <> [] ->
                 includes x BREAKING_MARKER = true).
  { intros Hb. unfold writtenDescription in Ew.
    destruct (CommitParams.description f) as [d |] eqn:Ed; [| discriminate].
    injection Ew as <-. unfold footerCondition. rewrite Hb, Ed.
    cbn [andb render present].
    destruct d as [| c d']; [intros H; now contradiction H |].
    intros _. cbn [truthy andb].
    destruct (includes (c :: d') BREAKING_MARKER) eqn:Ei; cbn [negb].
    - now rewrite app_nil_r.
    - apply includes_occurs. apply occursIn_app_r.
      exists [NL; NL], [SP]. reflexivity. }
  assert (Hfoot : footerCondition (parsedBack f) = false).
  { unfold footerCondition.
    change (CommitParams.breaking (parsedBack f))
      with (CommitParams.breaking f).
    change (CommitParams.description (parsedBack f))
      with (option_map trim (writtenDescription f)).
    rewrite Ew. cbn [option_map render present].
    destruct (CommitParams.breaking f) eqn:Hb; [| reflexivity].
    destruct (truthy (trim x)) eqn:Ht; [| reflexivity].
    assert (Hx : x <> []) by (intros ->; discriminate).
    rewrite (includes_trim_marker x (Hinc eq_refl Hx)). reflexivity. }
  rewrite Hfoot, app_nil_r. apply trimmed_trim, trim_trimmed.
Qed.

Lemma parsedBack_fixed (f : CommitParams.t) :
  parsedBack (parsedBack f) = parsedBack f.
Proof.
  unfold parsedBack at 1. rewrite written_again. reflexivity.
Qed.

(** X10.  After one round trip the fields are stable.  For well-formed fields
    whose description, if any, is not blank, the fields that
    [parseCommitMessage] reads from the formatted message are read again,
    unchanged, from the message formatted from them: neither the trimming
    of the description nor the breaking-change block makes a further
    difference. *)
Theorem parse_format_stable (f : CommitParams.t) :
  wellFormed f = true ->
  notBlank (CommitParams.description f) = true ->
  exists m g m',
    formatCommitMessage f = Ok m
    /\ parseCommitMessage m = Some g
    /\ formatCommitMessage g = Ok m'
    /\ parseCommitMessage m' = Some g.
Proof.
  intros Hf Hnb.
  destruct (parse_formatted f Hf) as (m & Hm & Hp).
  destruct (parse_formatted (parsedBack f) (parsedBack_wellFormed f Hf Hnb))
    as (m' & Hm' & Hp').
  rewrite (parsedBack_fixed f) in Hp'.
  exists m, (parsedBack f), m'. auto.
Qed.

Lemma parse_format_stable_witness :
  exists m g m',
    formatCommitMessage breakingWithBody = Ok m
    /\ parseCommitMessage m = Some g
    /\ formatCommitMessage g = Ok m'
    /\ parseCommitMessage m' = Some g.
Proof.
  apply (parse_format_stable breakingWithBody); vm_compute; reflexivity.
Defined.

(** ** When the emoji is reported missing *)

Lemma dropWhile_nil_iff p (s : jsstring) :
  dropWhile p s = [] <-> forallb p s = true.
Proof. split; [apply dropWhile_nil_all | apply dropWhile_all]. Qed.

Lemma takeWhile_nil_iff p (s : jsstring) :
  takeWhile p s = [] <-> stops p s.
Proof.
  destruct s as [| c s]; cbn; [tauto |].
  destruct (p c); split; congruence.
Qed.

Lemma no_token_iff (line : jsstring) :
  regexMatch line emojiRegex = None
  <-> startsWithWhiteSpace line = true
      \/ forallb notWhiteSpace line = true.
Proof.
  rewrite emojiRegex_none, takeWhile_nil_iff, takeWhile_nil_iff.
  split.
  - intros [H | H].
    + destruct line as [| c s]; [now right |]. left.
      cbn in H |- *. now apply notWhiteSpace_false.
    + right. apply dropWhile_nil_iff.
      pose proof (dropWhile_stops notWhiteSpace line) as Hs.
      destruct (dropWhile notWhiteSpace line) as [| c s]; [reflexivity |].
      cbn in H, Hs. apply notWhiteSpace_false in Hs. congruence.
  - intros [H | H].
    + left. destruct line as [| c s]; [discriminate |].
      cbn in H |- *. now apply notWhiteSpace_false.
    + right. apply dropWhile_nil_iff in H. now rewrite H.
Qed.

Section MissingEmoji.

Variables toUpperCase toLowerCase : jsstring -> jsstring.

Local Abbreviation validate := (validateCommitMessage toUpperCase toLowerCase).

(** X8.  The issue 'Commit message must start with an emoji' does not depend on
    any emoji: it is reported exactly when the message is not blank and
    its first line starts with whitespace or has no whitespace at all.  A
    first line such as [feat: add login], without emoji but with a space,
    is reported as an invalid format instead. *)
Theorem no_emoji_issue_iff (message : jsstring) :
  issues (validate message) = [MSG_NO_EMOJI]
  <-> forallb isWhiteSpace message = false
      /\ (startsWithWhiteSpace (firstLineOf message) = true
          \/ forallb notWhiteSpace (firstLineOf message) = true).
Proof.
  rewrite <- no_token_iff. split.
  - intros Hi.
    destruct (validate_cases toUpperCase toLowerCase message)
      as [[_ H] | [[Hn H] | [(em & _ & _ & H) | (em & tm & _ & _ & H)]]];
      try (rewrite H in Hi; discriminate).
    + split; [| exact Hn].
      destruct (forallb isWhiteSpace message) eqn:E; [| reflexivity].
      apply blank_condition in E. unfold validateCommitMessage in Hi.
      rewrite E in Hi. discriminate.
    + destruct H as [H | [(ty & H) | (e & ty & x & H)]];
        rewrite H in Hi; discriminate.
  - intros [Hb Hn]. unfold validateCommitMessage. cbv zeta.
    rewrite (not_blank message Hb).
    change (nth 0 (split NL message) []) with (firstLineOf message).
    now rewrite Hn.
Qed.

End MissingEmoji.

(** ** The warning on the mood of the title *)

Section Mood.

Variables toUpperCase toLowerCase : jsstring -> jsstring.

Local Abbreviation validate := (validateCommitMessage toUpperCase toLowerCase).

Lemma validate_header_warnings (e : jsstring) (f : CommitParams.t)
    (tail : jsstring) :
  headerOK e f = true ->
  tail = [] \/ (exists r, tail = NL :: r) ->
  exists t',
    (startsWithWhiteSpace (CommitParams.title f) = false ->
     t' = CommitParams.title f)
    /\ warnings (validate (headerLine e f ++ tail))
       = match titleWarnings toUpperCase toLowerCase t'
               ++ descriptionWarnings (split NL (headerLine e f ++ tail)) with
         | [] => None
         | w :: ws => Some (w :: ws)
         end.
Proof.
  intros Hf Htail.
  destruct (header_read e f tail Hf Htail)
    as (Hline & Hem & Hsub & t' & Ht' & Hsame & Htm).
  exists t'. split; [exact Hsame |].
  unfold validateCommitMessage. cbv zeta.
  change (nth 0 (split NL ?m) []) with (firstLineOf m).
  rewrite token_not_blank.
  2:{ rewrite Hline. rewrite emojiRegex_match in Hem. cbv zeta in Hem.
      intros H. rewrite H in Hem. discriminate. }
  rewrite Hline, Hem. unfold capture at 1. cbn [groups lookupCap Nat.eqb str].
  rewrite Hsub, Htm. unfold capture. cbn [groups].
  destruct (headerGroups_lookup (CommitParams.type f) (CommitParams.scope f)
              (CommitParams.breaking f) t' (headerRest f))
    as (_ & _ & _ & H4).
  rewrite H4. cbn [str warnings].
  now destruct (titleWarnings toUpperCase toLowerCase t'
                  ++ descriptionWarnings (split NL (headerLine e f ++ tail))).
Qed.

Lemma mood_found (title prefix stem : jsstring) :
  In (prefix, stem) stems ->
  startsWith (toLowerCase title) prefix = true ->
  In (moodWarning prefix stem) (titleWarnings toUpperCase toLowerCase title).
Proof.
  intros Hin Hs. unfold titleWarnings. cbv zeta.
  apply in_or_app. right. apply in_or_app. right. apply in_or_app. right.
  apply startsWith_prefix in Hs as (post & Hs). rewrite Hs.
  unfold stems in Hin. cbn [In] in Hin.
  repeat (destruct Hin as [[= <- <-] | Hin];
          [destruct post; vm_compute; left; reflexivity |]).
  destruct Hin.
Qed.

(** X9.  A title that starts, letter case apart, with one of the six listed
    words draws the warning on its mood, which proposes the word without
    its ending: 'add' and 'fix', but 'updat' for 'updated' and
    'updates'. *)
Theorem mood_warning_stem (e : jsstring) (f : CommitParams.t)
    (tail prefix stem : jsstring) :
  headerOK e f = true ->
  startsWithWhiteSpace (CommitParams.title f) = false ->
  tail = [] \/ (exists r, tail = NL :: r) ->
  In (prefix, stem) stems ->
  startsWith (toLowerCase (CommitParams.title f)) prefix = true ->
  exists ws,
    warnings (validate (headerLine e f ++ tail)) = Some ws
    /\ In (moodWarning prefix stem) ws.
Proof.
  intros Hf Htitle Htail Hin Hs.
  destruct (validate_header_warnings e f tail Hf Htail) as (t' & Ht' & ->).
  rewrite (Ht' Htitle).
  pose proof (mood_found _ _ _ Hin Hs) as Hw.
  assert (Hall : In (moodWarning prefix stem)
                   (titleWarnings toUpperCase toLowerCase
                      (CommitParams.title f)
                    ++ descriptionWarnings
                         (split NL (headerLine e f ++ tail))))
    by (apply in_or_app; now left).
  destruct (titleWarnings toUpperCase toLowerCase (CommitParams.title f)
              ++ descriptionWarnings (split NL (headerLine e f ++ tail)))
    as [| w ws]; [destruct Hall |].
  exists (w :: ws). split; [reflexivity | exact Hall].
Qed.

End Mood.

Lemma mood_warning_stem_witness :
  exists ws,
    warnings (validateCommitMessage asciiUpper asciiLower
                (headerLine (emojiOfType (lit "docs")) updatedFields))
    = Some ws
    /\ In (moodWarning (lit "updated") (lit "updat")) ws.
Proof.
  rewrite <- (app_nil_r (headerLine _ updatedFields)).
  apply (mood_warning_stem asciiUpper asciiLower (emojiOfType (lit "docs"))
           updatedFields [] (lit "updated") (lit "updat")).
  - vm_compute. reflexivity.
  - reflexivity.
  - now left.
  - unfold stems. cbn [In]. tauto.
  - vm_compute. reflexivity.
Defined.

(** ** Formatted messages and the blank second line *)

Lemma longLineWarnings_first (i : N) (ls : list jsstring) (w : jsstring) :
  In w (longLineWarnings i ls) -> firstChar w = ch "L".
Proof.
  revert i. induction ls as [| l ls IH]; intros i; cbn [longLineWarnings].
  - intros [].
  - intros H. apply in_app_or in H as [H | H]; [| now apply (IH (i + 1))].
    destruct (72 <? len l); [| destruct H].
    destruct H as [<- | []]. reflexivity.
Qed.

Section SecondLine.

Variables toUpperCase toLowerCase : jsstring -> jsstring.

Local Abbreviation validate := (validateCommitMessage toUpperCase toLowerCase).

Lemma titleWarnings_first (title w : jsstring) :
  In w (titleWarnings toUpperCase toLowerCase title) ->
  firstChar w = ch "T" \/ firstChar w = ch "U".
Proof.
  unfold titleWarnings. cbv zeta. intros H.
  repeat (apply in_app_or in H as [H | H]).
  - destruct (50 <? len title); [| destruct H].
    destruct H as [<- | []]. now left.
  - destruct title as [| c t]; [destruct H |].
    destruct (_ && _); [| destruct H]. destruct H as [<- | []]. now left.
  - destruct (endsWith title (lit ".")); [| destruct H].
    destruct H as [<- | []]. now left.
  - destruct (find _ _); [| destruct H]. destruct H as [<- | []]. now right.
Qed.

Lemma formatted_descriptionWarnings (f : CommitParams.t) (h : jsstring) :
  ~ In NL h ->
  exists ls,
    descriptionWarnings (split NL (h ++ messageTail f))
    = longLineWarnings 2 ls.
Proof.
  intros Hh. unfold messageTail, footerCondition.
  destruct (present (CommitParams.description f)).
  - rewrite <- app_assoc.
    change ([NL; NL] ++ ?x) with (NL :: NL :: x).
    rewrite split_app_sep by exact Hh.
    set (X := render _ ++ _). cbn [split]. rewrite N.eqb_refl.
    pose proof (split_not_nil NL X) as Hn.
    destruct (split NL X) as [| l ls] eqn:E; [contradiction |].
    exists (l :: ls). reflexivity.
  - rewrite andb_false_r. cbn [app]. rewrite app_nil_r.
    rewrite split_no_sep by exact Hh. exists []. reflexivity.
Qed.

(** X24.  A message built by [formatCommitMessage] from a type that the header
    pattern reads, a scope without closing parenthesis and newline and a
    non-empty one-line title never draws the warning 'Second line should
    be blank': the formatter separates the description by an empty
    line. *)
Theorem formatted_second_line_blank (f : CommitParams.t) (m : jsstring)
    (ws : list jsstring) :
  validatable f = true ->
  formatCommitMessage f = Ok m ->
  warnings (validate m) = Some ws ->
  ~ In MSG_SECOND_LINE ws.
Proof.
  intros Hf Hm Hws Hin.
  destruct (validatable_parts f Hf) as (info & Hi & _).
  rewrite (formatted_message f info Hi) in Hm. injection Hm as <-.
  pose proof (validatable_headerOK f info Hf Hi) as Hh.
  destruct (validate_header_warnings toUpperCase toLowerCase _ f
              (messageTail f) Hh (messageTail_shape f)) as (t' & _ & Hw).
  rewrite Hw in Hws.
  destruct (formatted_descriptionWarnings f _ (headerOK_no_newline _ f Hh))
    as (ls & Hd).
  rewrite Hd in Hws.
  assert (Hall : In MSG_SECOND_LINE
                   (titleWarnings toUpperCase toLowerCase t'
                    ++ longLineWarnings 2 ls)).
  { destruct (titleWarnings toUpperCase toLowerCase t'
              ++ longLineWarnings 2 ls); [discriminate |].
    now injection Hws as <-. }
  apply in_app_or in Hall as [H | H].
  - apply titleWarnings_first in H as [H | H]; discriminate.
  - apply longLineWarnings_first in H. discriminate.
Qed.

End SecondLine.

Lemma formatted_second_line_blank_witness :
  ~ In MSG_SECOND_LINE [moodWarning (lit "updated") (lit "updat")].
Proof.
  apply (formatted_second_line_blank asciiUpper asciiLower guideFields
           guideMessage);
    vm_compute; reflexivity.
Defined.
